(** * fidget.sym_tracking: the stack-frame taint traversal, embedded in Rocq

    The development follows [fidget/sym_tracking.py]: the symbolic values
    of the expression nodes, the taint-carrying expression nodes
    ([SmartExpression], [ConstExpression]), the scratch map of temporaries
    ([TempStore]), the per-block machine state ([BlockState]), the
    worklist traversal ([analyze_stack]) and the driver
    ([StructureAnalysis]).  Python exceptions are results of an error
    monad; mutation of the block state is explicit state passing. *)

From Stdlib Require Import ZArith String List Bool Lia.
From stdpp Require Import base option list gmap strings pretty.

Set Warnings "-register-all".

Local Open Scope string_scope.
Local Open Scope list_scope.
Local Open Scope Z_scope.

(** ** Exceptions and the error monad *)

Inductive exc : Type :=
| FidgetError (msg : string)
| FidgetUnsupportedError (msg : string)
| FidgetAnalysisFailure
| ValueNotFoundError
| AngrMemoryError
| ValueError (msg : string)
| IndexError
| AttributeError
| TypeError.

Inductive res (A : Type) : Type :=
| Ok (a : A)
| Raise (e : exc).
Arguments Ok {A} a.
Arguments Raise {A} e.

#[global] Instance res_ret : MRet res := fun A a => Ok a.
#[global] Instance res_bind : MBind res := fun A B k m =>
  match m with
  | Ok a => k a
  | Raise e => Raise e
  end.

(** A [for] loop over a list whose body may raise. *)
Fixpoint foldM {A S : Type} (body : S -> A -> res S) (l : list A) (s : S) : res S :=
  match l with
  | [] => Ok s
  | x :: l' => s' ← body s x; foldM body l' s'
  end.

(** Whether a computation ends in an exception. *)
Definition raises {A : Type} (m : res A) : bool :=
  match m with
  | Ok _ => false
  | Raise _ => true
  end.

(** ** IR types (pyvex's [Ity_*] names) *)

Inductive IRType : Type :=
| Ity_INVALID
| Ity_I (bits : Z)
| Ity_F (bits : Z)
| Ity_D (bits : Z)
| Ity_V (bits : Z).

Definition IRType_eqb (a b : IRType) : bool :=
  match a, b with
  | Ity_INVALID, Ity_INVALID => true
  | Ity_I n, Ity_I m | Ity_F n, Ity_F m | Ity_D n, Ity_D m | Ity_V n, Ity_V m => n =? m
  | _, _ => false
  end.

(** ['F' in ty] *)
Definition has_F (ty : IRType) : bool :=
  match ty with Ity_F _ => true | _ => false end.

(** Modelled from the spec: [vexutils.extract_int] is not among the
    sources; a node's element kind is "integer width or float kind", and
    the function returns the number in the type's name. *)
Definition extract_int (ty : IRType) : Z :=
  match ty with
  | Ity_INVALID => 0
  | Ity_I n | Ity_F n | Ity_D n | Ity_V n => n
  end.

(** ** Symbolic values (the fragment of claripy the engine builds) *)

Inductive bv : Type :=
| BVV (value size : Z)
| BVS (addr idx size : Z)
| FPV (value size : Z)
| FPS (addr idx size : Z)
| Concat (hi lo : bv)
| Extract (high low : Z) (a : bv)
| ZeroExt (n : Z) (a : bv)
| SignExt (n : Z) (a : bv)
| Calc (op : string) (args : list bv) (size : Z).

Fixpoint bv_size (b : bv) : Z :=
  match b with
  | BVV _ s | BVS _ _ s | FPV _ s | FPS _ _ s => s
  | Concat h l => bv_size h + bv_size l
  | Extract high low _ => high - low + 1
  | ZeroExt n a | SignExt n a => n + bv_size a
  | Calc _ _ s => s
  end.

Fixpoint bv_eqb (x y : bv) {struct x} : bool :=
  let fix all2 (l1 l2 : list bv) {struct l1} : bool :=
    match l1, l2 with
    | [], [] => true
    | a :: l1', b :: l2' => bv_eqb a b && all2 l1' l2'
    | _, _ => false
    end in
  match x, y with
  | BVV v s, BVV v' s' | FPV v s, FPV v' s' => (v =? v') && (s =? s')
  | BVS a i s, BVS a' i' s' | FPS a i s, FPS a' i' s' => (a =? a') && (i =? i') && (s =? s')
  | Concat h l, Concat h' l' => bv_eqb h h' && bv_eqb l l'
  | Extract hi lo a, Extract hi' lo' a' => (hi =? hi') && (lo =? lo') && bv_eqb a a'
  | ZeroExt n a, ZeroExt n' a' | SignExt n a, SignExt n' a' => (n =? n') && bv_eqb a a'
  | Calc o l s, Calc o' l' s' => String.eqb o o' && all2 l l' && (s =? s')
  | _, _ => false
  end.

(** A valuation gives the symbols and the opaque applications a value;
    [bv_eval] is the unsigned value of a term under it. *)
Record Valuation : Type := {
  sym_val : Z -> Z -> Z -> Z;
  op_val : string -> list Z -> Z }.

Fixpoint bv_eval (rho : Valuation) (b : bv) : Z :=
  match b with
  | BVV v s | FPV v s => v mod 2 ^ s
  | BVS a i s | FPS a i s => sym_val rho a i s mod 2 ^ s
  | Concat h l => bv_eval rho h * 2 ^ bv_size l + bv_eval rho l
  | Extract high low a => (bv_eval rho a / 2 ^ low) mod 2 ^ (high - low + 1)
  | ZeroExt _ a => bv_eval rho a
  | SignExt n a =>
      let v := bv_eval rho a in
      if Z.testbit v (bv_size a - 1) then v + (2 ^ n - 1) * 2 ^ bv_size a else v
  | Calc op args s => op_val rho op (map (bv_eval rho) args) mod 2 ^ s
  end.

(** ** Taints *)

(** [taints['pointer']] is [False] or the name of a region. *)
Inductive PointerTaint : Type :=
| PFalse
| PRegion (name : string).

Record Taints : Type := {
  pointer : PointerTaint;
  concrete : bool;
  it : bool }.

(** [defaultdict(bool)] *)
Definition no_taints : Taints := {| pointer := PFalse; concrete := false; it := false |}.

(** Python truth of a pointer taint: [False] and the empty string are false. *)
Definition truthy (t : PointerTaint) : bool :=
  match t with
  | PFalse => false
  | PRegion s => negb (String.eqb s "")
  end.

Definition PointerTaint_eqb (a b : PointerTaint) : bool :=
  match a, b with
  | PFalse, PFalse => true
  | PRegion s, PRegion s' => String.eqb s s'
  | _, _ => false
  end.

Definition set_pointer (p : PointerTaint) (t : Taints) : Taints :=
  {| pointer := p; concrete := concrete t; it := it t |}.
Definition set_concrete (c : bool) (t : Taints) : Taints :=
  {| pointer := pointer t; concrete := c; it := it t |}.
Definition set_it (i : bool) (t : Taints) : Taints :=
  {| pointer := pointer t; concrete := concrete t; it := i |}.

(** ** Expression nodes *)

Inductive PathElem : Type :=
| PStr (s : string)
| PInt (n : Z).

(** [ClsSmart] stands for [SmartExpression] and its subclass
    [CustomExpression], [ClsConst] for [ConstExpression]. *)
Inductive ExprClass : Type := ClsSmart | ClsConst.

Inductive Expr : Type := MkExpr {
  cls : ExprClass;
  e_size : Z;
  e_type : IRType;
  cleanval : bv;
  dirtyval : bv;
  deps : list Expr;
  taints : Taints;
  rootval : bool;
  e_addr : option Z;
  e_path : list PathElem }.

Definition ConstExpression (val : bv) (ty : IRType) (concrete : bool) : Expr :=
  {| cls := ClsConst;
     e_size := bv_size val;
     e_type := ty;
     cleanval := val;
     dirtyval := val;
     deps := [];
     taints := set_concrete concrete no_taints;
     rootval := false;
     e_addr := None;
     e_path := [] |}.

(** [SmartExpression.overwrite] ([self] is the new, narrower value).  The
    slices are claripy's [larger.cleanval[hi:lo]]; the terms here have a
    slice of every value, a floating-point value included, which claripy
    refuses to slice. *)
Definition overwrite (self other : Expr) : res Expr :=
  match cls self with
  | ClsConst => Raise AttributeError
  | ClsSmart =>
      if e_size other <? e_size self then Ok self
      else if e_size self =? e_size other then Ok self
      else
        let smaller := self in
        let larger := other in
        Ok {| cls := ClsSmart;
              e_size := e_size larger;
              e_type := e_type larger;
              cleanval := Concat (Extract (e_size larger - 1) (e_size smaller) (cleanval larger))
                                 (cleanval smaller);
              dirtyval := Concat (Extract (e_size larger - 1) (e_size smaller) (dirtyval larger))
                                 (dirtyval smaller);
              deps := [smaller; larger];
              taints := {| pointer := pointer (taints larger);
                           concrete := concrete (taints larger) && concrete (taints smaller);
                           it := false |};
              rootval := false;
              e_addr := e_addr smaller;
              e_path := e_path smaller |}
  end.

(** [SmartExpression.truncate] and [ConstExpression.truncate]. *)
Definition truncate (self : Expr) (ty : IRType) : res Expr :=
  if IRType_eqb ty (e_type self) then Ok self
  else if has_F (e_type self) then Raise (ValueError "Cannot coerce floating point values")
  else
    let size_bits := extract_int ty in
    if e_size self <? size_bits then Ok self
    else
      match cls self with
      | ClsConst =>
          Ok (ConstExpression (Extract (size_bits - 1) 0 (cleanval self)) ty
                              (concrete (taints self)))
      | ClsSmart =>
          Ok {| cls := ClsSmart;
                e_size := size_bits;
                e_type := ty;
                cleanval := Extract (size_bits - 1) 0 (cleanval self);
                dirtyval := Extract (size_bits - 1) 0 (dirtyval self);
                deps := [self];
                taints := set_concrete (concrete (taints self)) no_taints;
                rootval := false;
                e_addr := e_addr self;
                e_path := e_path self |}
      end.

(** ** The IR (pyvex) *)

Record IRConst : Type := {
  con_value : Z;
  con_type : IRType;
  con_size : Z }.

(** [Iex_Op] stands for the tags [Iex_Unop], [Iex_Binop], [Iex_Triop] and
    [Iex_Qop]; [Ico] for a bare constant (a tag that starts with [Ico_]);
    [Iex_Other] for every tag the engine has no case for. *)
Inductive IRExpr : Type :=
| Iex_Get (offset : Z) (ty : IRType)
| Iex_RdTmp (tmp : N) (ty : IRType)
| Iex_Load (ty : IRType) (addr : IRExpr)
| Iex_Const (con : IRConst)
| Ico (con : IRConst)
| Iex_ITE (cond iftrue iffalse : IRExpr) (ty : IRType)
| Iex_Op (op : string) (args : list IRExpr) (ty : IRType)
| Iex_CCall (args : list IRExpr) (ty : IRType)
| Iex_GetI (ty : IRType)
| Iex_Other (tag : string) (ty : IRType).

(** [result_type] and [result_size] of pyvex. *)
Definition result_type (e : IRExpr) : IRType :=
  match e with
  | Iex_Get _ ty | Iex_RdTmp _ ty | Iex_Load ty _ | Iex_ITE _ _ _ ty
  | Iex_Op _ _ ty | Iex_CCall _ ty | Iex_GetI ty | Iex_Other _ ty => ty
  | Iex_Const c | Ico c => con_type c
  end.

Definition result_size (e : IRExpr) : Z :=
  match e with
  | Iex_Const c | Ico c => con_size c
  | _ => extract_int (result_type e)
  end.

Inductive IRStmt : Type :=
| Ist_NoOp
| Ist_AbiHint
| Ist_MBE
| Ist_IMark (addr delta : Z)
| Ist_Exit (dst : IRConst)
| Ist_WrTmp (tmp : N) (data : IRExpr)
| Ist_Store (addr data : IRExpr)
| Ist_Put (offset : Z) (data : IRExpr)
| Ist_LoadG (dst : N) (addr alt guard : IRExpr) (cvt : string) (cvt_types : IRType * IRType)
| Ist_StoreG (addr data guard : IRExpr)
| Ist_PutI (data : IRExpr)
| Ist_CAS (oldLo oldHi : N)
| Ist_Dirty (tmp : N)
| Ist_Other (tag : string).

Record IRSB : Type := {
  statements : list IRStmt;
  jumpkind : string;
  tyenv_types : list IRType }.

Definition OK_CONTINUE_JUMPS : list string :=
  ["Ijk_FakeRet"; "Ijk_Boring"; "Ijk_FakeRet"; "Ijk_Sys_int128"; "Ijk_SigTRAP";
   "Ijk_Sys_syscall"].

(** The tuple of the source, with the strings its missing commas join. *)
Definition ROUNDING_IROPS : list string :=
  [
   "Iop_AddF64"; "Iop_SubF64"; "Iop_MulF64"; "Iop_DivF64"; "Iop_AddF32"; "Iop_SubF32";
   "Iop_MulF32"; "Iop_DivF32"; "Iop_AddF128"; "Iop_SubF128"; "Iop_MulF128"; "Iop_DivF128";
   "Iop_AddF64r32"; "Iop_SubF64r32"; "Iop_MulF64r32"; "Iop_DivF64r32"; "Iop_F64toI32S";
   "Iop_SqrtF64"; "Iop_SqrtF32"; "Iop_SqrtF128"; "Iop_F64toI16S"; "Iop_F64toI32S";
   "Iop_F64toI64S"; "Iop_F64toI64U"; "Iop_F64toI32U"; "Iop_I32StoF64"; "Iop_I64StoF64";
   "Iop_I64UtoF64"; "Iop_I64UtoF32"; "Iop_I32UtoF32"; "Iop_I32UtoF64"; "Iop_F32toI32S";
   "Iop_F32toI64S"; "Iop_F32toI32U"; "Iop_F32toI64U"; "Iop_I32StoF32"; "Iop_I64StoF32";
   "Iop_F64toF32Iop_F128toI32S"; "Iop_F128toI64S"; "Iop_F128toI32U"; "Iop_F128toI64U";
   "Iop_F128toF64"; "Iop_F128toF32Iop_AtanF64"; "Iop_Yl2xF64"; "Iop_Yl2xp1F64";
   "Iop_PRemF64"; "Iop_PRemC3210F64"; "Iop_PRem1F64"; "Iop_PRem1C3210F64"; "Iop_ScaleF64";
   "Iop_SinF64"; "Iop_CosF64"; "Iop_TanF64"; "Iop_2xm1F64"; "Iop_RoundF64toInt";
   "Iop_RoundF32toInt"; "Iop_MAddF32"; "Iop_MSubF32"; "Iop_MAddF64"; "Iop_MSubF64";
   "Iop_MAddF64r32"; "Iop_MSubF64r32"; "Iop_RoundF64toF32"; "Iop_RecpExpF64";
   "Iop_RecpExpF64"; "Iop_RecpExpF32"; "Iop_F64toF16"; "Iop_F32toF16"; "Iop_AddD64";
   "Iop_SubD64"; "Iop_MulD64"; "Iop_DivD64"; "Iop_AddD128"; "Iop_SubD128"; "Iop_MulD128";
   "Iop_DivD128"; "Iop_D64toD32"; "Iop_D128toD64"; "Iop_I64StoD64"; "Iop_I64UtoD64";
   "Iop_D64toI32S"; "Iop_D64toI32U"; "Iop_D64toI64S"; "Iop_D64toI64U"; "Iop_D128toI32S";
   "Iop_D128toI32U"; "Iop_D128toI64S"; "Iop_D128toI64U"; "Iop_F32toD32"; "Iop_F32toD64";
   "Iop_F32toD128"; "Iop_F64toD32"; "Iop_F64toD64"; "Iop_F64toD128"; "Iop_F128toD32";
   "Iop_F128toD64"; "Iop_F128toD128"; "Iop_D32toF32"; "Iop_D32toF64"; "Iop_D32toF128";
   "Iop_D64toF32"; "Iop_D64toF64"; "Iop_D64toF128"; "Iop_D128toF32"; "Iop_D128toF64";
   "Iop_D128toF128"; "Iop_RoundD64toInt"; "Iop_RoundD128toInt";
   "Iop_QuantizeD64Iop_QuantizeD128"; "Iop_SignificanceRoundD64";
   "Iop_SignificanceRoundD128"; "Iop_Add32Fx4"; "Iop_Sub32Fx4"; "Iop_Mul32Fx4";
   "Iop_Div32Fx4"; "Iop_Add64Fx2"; "Iop_Sub64Fx2"; "Iop_Mul64Fx2"; "Iop_Div64Fx2";
   "Iop_Add64Fx4"; "Iop_Sub64Fx4"; "Iop_Mul64Fx4"; "Iop_Div64Fx4"; "Iop_Add32Fx8";
   "Iop_Sub32Fx8"; "Iop_Mul32Fx8"; "Iop_Div32Fx8"
  ].

Definition str_in (s : string) (l : list string) : bool :=
  existsb (String.eqb s) l.

(** [s.startswith(p)] *)
Definition startswith (s p : string) : bool := String.prefix p s.

(** [needle in hay] on strings *)
Fixpoint str_contains (needle hay : string) : bool :=
  String.prefix needle hay ||
  match hay with
  | EmptyString => false
  | String _ hay' => str_contains needle hay'
  end.

(** ** The collaborators *)

Record Arch : Type := {
  arch_name : string;
  arch_bits : Z;
  sp_offset : Z;
  bp_offset : Z;
  ip_offset : Z;
  call_pushes_ret : bool;
  memory_endness : string;
  itstate_offset : Z }.

Record CFGNode : Type := {
  node_id : Z;
  node_addr : Z;
  simprocedure_name : option string }.

Record Function : Type := {
  func_addr : Z;
  func_name : string;
  has_unresolved_jumps : bool }.

Record Section_ : Type := { sec_name : string }.

Record BinaryData : Type := {
  bd_addr : option Z;
  bd_value : Z;
  bd_path : list PathElem }.

(** Everything the module takes from outside: the helpers of [vexutils],
    the opcode table of simuvex, the concrete model of claripy, the
    project (architecture, loader, lifter) and the CFG. *)
Class World : Type := {
  (* vexutils *)
  make_default_value : IRType -> bv;
  ZExtTo : Z -> bv -> bv;
  (* simuvex: [operations[op]] is [None] for a [KeyError], and
     [calculate] gives [None] for a [SimOperationError] *)
  operations : string -> option (list bv -> option bv);
  (* claripy: [ast.model.value] and [ast.model.signed] *)
  model_value : bv -> Z;
  model_signed : bv -> Z;
  (* binary_data: [BinaryData(...)] raises [ValueNotFoundError] where this is false *)
  value_found : option Z -> Z -> list PathElem -> bool;
  (* project *)
  arch : Arch;
  entry : Z;
  is_hooked : Z -> bool;
  loader_memory_contains : Z -> bool;
  loader_memory_bytes : Z -> Z -> string;
  reversed_repr : string -> string;
  find_segment_containing : Z -> option Z;
  sections_map_has : string -> bool;
  find_section_containing : Z -> option Section_;
  plt_values : list Z;
  (* [project.factory.block(addr, **options).vex] *)
  factory_block : Z -> option Z -> res IRSB;
  (* cfg *)
  get_all_nodes : Z -> list CFGNode;
  get_any_node : Z -> option CFGNode;
  (* the second argument is [excluding_fakeret] *)
  get_successors_and_jumpkind : CFGNode -> bool -> list (CFGNode * string);
  functions : list (Z * Function);
  (* stack_magic: the name of the n-th [Struct] that is created *)
  struct_name : nat -> string }.

(** ** TempStore, tags and BlockState *)

Record TempStore : Type := {
  tyenv : list IRType;
  storage : gmap N Expr }.

Inductive PatchItem : Type :=
| Patch (b : BinaryData)
| Immovable (value : Z).

(** [BinaryDataConglomerate(addr, signed, dirtyval, flags)] with the
    pairs its [add] method has received. *)
Record BinaryDataConglomerate : Type := {
  bdc_addr : option Z;
  bdc_signed : Z;
  bdc_dirtyval : bv;
  bdc_flags : Z;
  bdc_dependencies : list (PatchItem * bv) }.

Inductive TagKind : Type := ALLOC | ACCESS.

Definition Tag : Type := (TagKind * BinaryDataConglomerate)%type.

(** The frame of [stack_magic], as far as this module writes to it: its
    name and the [alloc] and [access] calls it has received, in order. *)
Record Struct : Type := {
  name : string;
  events : list Tag }.

Module AccessType.
Definition READ : Z := 1.
Definition WRITE : Z := 2.
Definition POINTER : Z := 4.
Definition UNINITREAD : Z := 8.
End AccessType.

Record BlockState : Type := {
  addr : Z;
  taint_region : string;
  tempstore : option TempStore;
  regs : gmap Z Expr;
  mem_regions : gmap string (list (bv * Expr));
  tags : list Tag }.

Definition set_tempstore (t : option TempStore) (b : BlockState) : BlockState :=
  {| addr := addr b; taint_region := taint_region b; tempstore := t;
     regs := regs b; mem_regions := mem_regions b; tags := tags b |}.
Definition set_regs (r : gmap Z Expr) (b : BlockState) : BlockState :=
  {| addr := addr b; taint_region := taint_region b; tempstore := tempstore b;
     regs := r; mem_regions := mem_regions b; tags := tags b |}.
Definition set_mem_regions (m : gmap string (list (bv * Expr))) (b : BlockState) : BlockState :=
  {| addr := addr b; taint_region := taint_region b; tempstore := tempstore b;
     regs := regs b; mem_regions := m; tags := tags b |}.
Definition set_tags (t : list Tag) (b : BlockState) : BlockState :=
  {| addr := addr b; taint_region := taint_region b; tempstore := tempstore b;
     regs := regs b; mem_regions := mem_regions b; tags := t |}.

(** [dict[key]] on a region's memory, keyed by the (hash-consed) clean value. *)
Fixpoint mem_lookup (key : bv) (m : list (bv * Expr)) : option Expr :=
  match m with
  | [] => None
  | (k, v) :: m' => if bv_eqb key k then Some v else mem_lookup key m'
  end.

Fixpoint mem_store (key : bv) (v : Expr) (m : list (bv * Expr)) : list (bv * Expr) :=
  match m with
  | [] => [(key, v)]
  | (k, w) :: m' => if bv_eqb key k then (k, v) :: m' else (k, w) :: mem_store key v m'
  end.

(** [mem_regions[region]] of a [defaultdict(dict)] *)
Definition region_mem (b : BlockState) (region : string) : list (bv * Expr) :=
  default [] (mem_regions b !! region).

Section Engine.
Context `{W : World}.

(** [ConstExpression.default] *)
Definition ConstExpression_default (ty : IRType) : Expr :=
  ConstExpression (make_default_value ty) ty false.

(** *** TempStore *)

Definition TempStore_read (self : TempStore) (tmp : N) : res Expr :=
  match storage self !! tmp with
  | None => Raise (ValueError "Temp not assigned to yet")
  | Some v => Ok v
  end.

Definition TempStore_size_of (self : TempStore) (tmp : N) : res Z :=
  match tyenv self !! N.to_nat tmp with
  | None => Raise (ValueError "Temp not valid in curent env")
  | Some ty => Ok (extract_int ty)
  end.

Definition with_vals (c d : bv) (e : Expr) : Expr :=
  {| cls := cls e; e_size := e_size e; e_type := e_type e; cleanval := c; dirtyval := d;
     deps := deps e; taints := taints e; rootval := rootval e; e_addr := e_addr e;
     e_path := e_path e |}.

Definition TempStore_write (self : TempStore) (tmp : N) (value : Expr) : res TempStore :=
  match tyenv self !! N.to_nat tmp with
  | None => Raise IndexError
  | Some ty =>
      if negb (IRType_eqb (e_type value) ty) then Raise (ValueError "Invalid type!")
      else
        size ← TempStore_size_of self tmp;
        let value' := with_vals (ZExtTo size (cleanval value)) (ZExtTo size (dirtyval value)) value in
        Ok {| tyenv := tyenv self; storage := <[tmp := value']> (storage self) |}
  end.

Definition TempStore_default (self : TempStore) (tmp : N) : res TempStore :=
  match tyenv self !! N.to_nat tmp with
  | None => Raise IndexError
  | Some ty => TempStore_write self tmp (ConstExpression_default ty)
  end.

(** *** Patch extraction *)

(** The list [_bindata] memoises the result on the node; the result is the
    same function of the node's fields with or without it. *)
Fixpoint make_bindata_internal (self : Expr) : list (bv * PatchItem) :=
  match self with
  | MkExpr ClsConst _ _ _ _ _ _ _ _ _ => []
  | MkExpr ClsSmart _ _ cleanval dirtyval deps _ rootval addr path =>
      if rootval then
        let value := model_value cleanval in
        let path' := path ++ [PStr "con"; PStr "value"] in
        let binary_data :=
          if value_found addr value path'
          then Patch {| bd_addr := addr; bd_value := value; bd_path := path' |}
          else Immovable value in
        [(dirtyval, binary_data)]
      else flat_map make_bindata_internal deps
  end.

Definition make_bindata (self : Expr) (flags : Z) : res BinaryDataConglomerate :=
  match cls self with
  | ClsConst => Raise AttributeError
  | ClsSmart =>
      Ok {| bdc_addr := e_addr self;
            bdc_signed := model_signed (cleanval self);
            bdc_dirtyval := dirtyval self;
            bdc_flags := flags;
            bdc_dependencies :=
              map (fun '(dirtyval, bindata) => (bindata, dirtyval)) (make_bindata_internal self) |}
  end.

(** *** BlockState *)

(** [BlockState.__init__] *)
Definition BlockState_new (addr : Z) (taint_region : string) : BlockState :=
  let regs : gmap Z Expr :=
    if String.eqb (arch_name arch) "AMD64" then
      <[156 := ConstExpression_default (Ity_I 64)]>
        (<[144 := ConstExpression_default (Ity_I 64)]> ∅)
    else if String.eqb (arch_name arch) "X86" then
      <[884 := ConstExpression_default (Ity_I 32)]>
        (<[216 := ConstExpression_default (Ity_I 32)]> ∅)
    else if startswith (arch_name arch) "ARM" then
      let d := ConstExpression_default (Ity_I 32) in
      <[itstate_offset arch :=
          MkExpr (cls d) (e_size d) (e_type d) (cleanval d) (dirtyval d) (deps d)
                 (set_it true (taints d)) (rootval d) (e_addr d) (e_path d)]> ∅
    else ∅ in
  {| addr := addr; taint_region := taint_region; tempstore := None;
     regs := regs; mem_regions := ∅; tags := [] |}.

(** [BlockState.copy] *)
Definition copy (self : BlockState) (newaddr : Z) : BlockState :=
  let out := BlockState_new newaddr (taint_region self) in
  set_regs (filter (fun kv => truthy (pointer (taints kv.2)) = true) (regs self) ∪ regs out) out.

(** [BlockState.get_reg], with [ty] already a type name. *)
Definition get_reg (self : BlockState) (regnum : Z) (ty : IRType) : res (Expr * BlockState) :=
  match regs self !! regnum with
  | None =>
      let v :=
        if has_F ty || (arch_bits arch <? extract_int ty)
        then ConstExpression_default ty
        else ConstExpression_default (Ity_I (arch_bits arch)) in
      r ← truncate v ty;
      Ok (r, set_regs (<[regnum := v]> (regs self)) self)
  | Some v =>
      if has_F (e_type v) then
        if negb (IRType_eqb (e_type v) ty) then
          let v' := ConstExpression_default ty in
          Ok (v', set_regs (<[regnum := v']> (regs self)) self)
        else Ok (v, self)
      else
        r ← truncate v ty;
        Ok (r, self)
  end.

(** [BlockState.get_tmp] *)
Definition get_tmp (self : BlockState) (tmpnum : N) : res Expr :=
  match tempstore self with
  | None => Raise AttributeError
  | Some t => TempStore_read t tmpnum
  end.

(** [int(strval.encode('hex'), 16)] *)
Definition int_of_bytes (s : string) : Z :=
  fold_left (fun acc c => acc * 256 + Z.of_N (Ascii.N_of_ascii c)) (list_ascii_of_string s) 0.

(** The branch of [get_mem] for an address without pointer taint: a
    constant folded from the binary's initialised data, or the default. *)
Definition get_mem_loader (addr : Expr) (ty : IRType) : Expr :=
  let cleanestval := model_value (cleanval addr) in
  if loader_memory_contains cleanestval && negb (has_F ty) then
    let size_bytes := extract_int ty / 8 in
    let strval := loader_memory_bytes cleanestval size_bytes in
    let strval :=
      if String.eqb (memory_endness arch) "Iend_LE" then reversed_repr strval else strval in
    ConstExpression (BVV (int_of_bytes strval) (size_bytes * 8)) ty true
  else ConstExpression_default ty.

(** [BlockState.get_mem] *)
Definition get_mem (self : BlockState) (addr : Expr) (ty : IRType) : Expr :=
  match pointer (taints addr) with
  | PRegion region =>
      if truthy (PRegion region) then
        match mem_lookup (cleanval addr) (region_mem self region) with
        | Some val => if IRType_eqb (e_type val) ty then val else ConstExpression_default ty
        | None => ConstExpression_default ty
        end
      else get_mem_loader addr ty
  | PFalse => get_mem_loader addr ty
  end.

(** [BlockState.access] *)
Definition access (self : BlockState) (addr_expression : Expr) (access_type : Z)
  : res BlockState :=
  if negb (PointerTaint_eqb (pointer (taints addr_expression)) (PRegion (taint_region self)))
  then Ok self
  else
    data ← make_bindata addr_expression access_type;
    Ok (set_tags (tags self ++ [(ACCESS, data)]) self).

(** *** SmartExpression *)

(** The fields [__init__] sets before it looks at the expression's tag. *)
Definition SmartExpression_fresh (vexpression : IRExpr) (addr : option Z)
    (path : list PathElem) : Expr :=
  {| cls := ClsSmart;
     e_size := result_size vexpression;
     e_type := result_type vexpression;
     cleanval := make_default_value (result_type vexpression);
     dirtyval := make_default_value (result_type vexpression);
     deps := [];
     taints := no_taints;
     rootval := false;
     e_addr := addr;
     e_path := path |}.

(** [SmartExpression.copy_to_self] *)
Definition copy_to_self (self other : Expr) : Expr :=
  {| cls := cls self;
     e_size := e_size self;
     e_type := e_type self;
     cleanval := cleanval other;
     dirtyval := dirtyval other;
     deps := deps other;
     taints := taints other;
     rootval := rootval other;
     e_addr := e_addr other;
     e_path := e_path other |}.

(** [SmartExpression.shield_constants]; [whitelist] is [None] or a list of
    positions. *)
Fixpoint shield_constants_from (i : Z) (expr_list : list Expr) (whitelist : option (list Z))
  : list Expr :=
  match expr_list with
  | [] => []
  | expr :: rest =>
      let skip := match whitelist with
                  | Some wl => negb (existsb (Z.eqb i) wl)
                  | None => false
                  end in
      (if skip then expr
       else if rootval expr
       then ConstExpression (cleanval expr) (e_type expr) (concrete (taints expr))
       else expr)
      :: shield_constants_from (i + 1) rest whitelist
  end.

Definition shield_constants (expr_list : list Expr) (whitelist : option (list Z)) : list Expr :=
  shield_constants_from 0 expr_list whitelist.

(** The pointer taint of an add, and, or or xor node:
    [((t1 if t1 == t2 else False) if t1 and t2 else t1) if t1 or t2 else False] *)
Definition add_pointer_taint (t1 t2 : PointerTaint) : PointerTaint :=
  if truthy t1 || truthy t2 then
    if truthy t1 && truthy t2 then
      if PointerTaint_eqb t1 t2 then t1 else PFalse
    else t1
  else PFalse.

(** The pointer taint of a subtract node: [t1 if t1 and not t2 else False] *)
Definition sub_pointer_taint (t1 t2 : PointerTaint) : PointerTaint :=
  if truthy t1 && negb (truthy t2) then t1 else PFalse.

(** ['%x_%d' % (addr, path[1])]: the instruction address and the statement
    index that name a symbol. *)
Definition symbol_name (addr : option Z) (path : list PathElem) : res (Z * Z) :=
  match path !! 1%nat with
  | None => Raise IndexError
  | Some p =>
      match addr, p with
      | Some a, PInt n => Ok (a, n)
      | _, _ => Raise TypeError
      end
  end.

Definition set_taints (t : Taints) (e : Expr) : Expr :=
  {| cls := cls e; e_size := e_size e; e_type := e_type e; cleanval := cleanval e;
     dirtyval := dirtyval e; deps := deps e; taints := t; rootval := rootval e;
     e_addr := e_addr e; e_path := e_path e |}.

Definition is_add_like (op : string) : bool :=
  startswith op "Iop_Add" || startswith op "Iop_And" ||
  startswith op "Iop_Or" || startswith op "Iop_Xor".

(** The end of the operator case of [__init__], once the arguments are
    built: shielding, evaluation of both values and the pointer taint.
    [concrete] and [it] are the taints the argument loop has accumulated. *)
Definition finish_op (self : Expr) (op : string) (args : list Expr) : res Expr :=
  let concrete0 := fold_left (fun c arg => c && concrete (taints arg)) args true in
  let it0 := fold_left (fun i arg => i || it (taints arg)) args (it (taints self)) in
  let deps1 :=
    if startswith op "Iop_Mul" || startswith op "Iop_And"
    then shield_constants args None else args in
  let deps2 :=
    if str_in op ROUNDING_IROPS then shield_constants deps1 (Some [0]) else deps1 in
  let node (c d : bv) (t : Taints) : Expr :=
    {| cls := ClsSmart; e_size := e_size self; e_type := e_type self;
       cleanval := c; dirtyval := d; deps := deps2; taints := t;
       rootval := false; e_addr := e_addr self; e_path := e_path self |} in
  let degraded := {| pointer := PFalse; concrete := false; it := it0 |} in
  match operations op with
  | None => Ok (node (cleanval self) (dirtyval self) degraded)
  | Some calculate =>
      match calculate (map cleanval deps2) with
      | None => Ok (node (cleanval self) (dirtyval self) degraded)
      | Some c =>
          match calculate (map dirtyval deps2) with
          | None => Ok (node c (dirtyval self) degraded)
          | Some d =>
              if is_add_like op then
                match deps2 with
                | d0 :: d1 :: _ =>
                    Ok (node c d {| pointer := add_pointer_taint (pointer (taints d0))
                                                                 (pointer (taints d1));
                                    concrete := concrete0; it := it0 |})
                | _ => Raise IndexError
                end
              else if startswith op "Iop_Sub" then
                match deps2 with
                | d0 :: d1 :: _ =>
                    Ok (node c d {| pointer := sub_pointer_taint (pointer (taints d0))
                                                                 (pointer (taints d1));
                                    concrete := concrete0; it := it0 |})
                | _ => Raise IndexError
                end
              else Ok (node c d {| pointer := PFalse; concrete := concrete0; it := it0 |})
          end
      end
  end.

(** The constant case of [__init__]. *)
Definition make_const (self : Expr) (con : IRConst) (addr : option Z)
    (path : list PathElem) : res Expr :=
  let root (c d : bv) : Expr :=
    {| cls := ClsSmart; e_size := e_size self; e_type := e_type self;
       cleanval := c; dirtyval := d; deps := []; taints := set_concrete true no_taints;
       rootval := true; e_addr := addr; e_path := path |} in
  if has_F (e_type self) then
    if e_size self =? 32 then
      '(a, idx) ← symbol_name addr path; Ok (root (FPV (con_value con) 32) (FPS a idx 32))
    else if e_size self =? 64 then
      '(a, idx) ← symbol_name addr path; Ok (root (FPV (con_value con) 64) (FPS a idx 64))
    else Raise (FidgetUnsupportedError "Why is there a FP const of size %d")
  else
    '(a, idx) ← symbol_name addr path;
    Ok (root (BVV (con_value con) (e_size self)) (BVS a idx (e_size self))).

(** The ternary case of [__init__], once the three sub-expressions are built. *)
Definition finish_ite (self false_expr truth_expr cond_expr : Expr) : Expr :=
  let self1 :=
    if truthy (pointer (taints truth_expr))
    then copy_to_self self truth_expr
    else copy_to_self self false_expr in
  let self2 :=
    if negb (it (taints cond_expr))
    then set_taints (set_concrete (concrete (taints false_expr) && concrete (taints truth_expr))
                                  (taints self1)) self1
    else self1 in
  set_taints (set_it (it (taints false_expr) || it (taints truth_expr)) (taints self2)) self2.

(** [SmartExpression.__init__]: the node of an IR expression, and the block
    state after the register defaults and access tags its construction
    leaves behind. *)
Fixpoint SmartExpression (blockstate : BlockState) (vexpression : IRExpr) (addr : option Z)
    (path : list PathElem) {struct vexpression} : res (Expr * BlockState) :=
  let self := SmartExpression_fresh vexpression addr path in
  let fix build_args (args : list IRExpr) (i : Z) (bs : BlockState) {struct args}
      : res (list Expr * BlockState) :=
    match args with
    | [] => Ok ([], bs)
    | expr :: rest =>
        '(arg, bs1) ← SmartExpression bs expr addr (path ++ [PStr "args"; PInt i]);
        '(more, bs2) ← build_args rest (i + 1) bs1;
        Ok (arg :: more, bs2)
    end in
  match vexpression with
  | Iex_Get offset _ =>
      '(r, bs) ← get_reg blockstate offset (e_type self);
      Ok (copy_to_self self r, bs)
  | Iex_RdTmp tmp _ =>
      r ← get_tmp blockstate tmp;
      Ok (copy_to_self self r, blockstate)
  | Iex_Load _ a =>
      '(addr_expression, bs) ← SmartExpression blockstate a addr (path ++ [PStr "addr"]);
      bs' ← access bs addr_expression AccessType.READ;
      Ok (copy_to_self self (get_mem bs' addr_expression (e_type self)), bs')
  | Iex_Const con | Ico con =>
      r ← make_const self con addr path;
      Ok (r, blockstate)
  | Iex_ITE cond iftrue iffalse _ =>
      '(false_expr, bs1) ← SmartExpression blockstate iffalse addr (path ++ [PStr "iffalse"]);
      '(truth_expr, bs2) ← SmartExpression bs1 iftrue addr (path ++ [PStr "iftrue"]);
      '(cond_expr, bs3) ← SmartExpression bs2 cond addr (path ++ [PStr "cond"]);
      Ok (finish_ite self false_expr truth_expr cond_expr, bs3)
  | Iex_Op op args _ =>
      '(deps, bs) ← build_args args 0 blockstate;
      r ← finish_op self op deps;
      Ok (r, bs)
  | Iex_CCall args _ =>
      '(deps, bs) ← build_args args 0 blockstate;
      let it' := fold_left (fun i arg => i || it (taints arg)) deps (it (taints self)) in
      Ok (set_taints (set_it it' (taints self)) self, bs)
  | Iex_GetI _ => Ok (self, blockstate)
  | Iex_Other tag _ =>
      (* the message is formatted with ['{:#x}'.format(addr)] *)
      match addr with
      | Some _ => Raise (FidgetUnsupportedError "Unknown expression tag")
      | None => Raise (ValueError "Alternate form (#) not allowed in string format specifier")
      end
  end.

(** [BlockState.assign] *)
Definition assign (self : BlockState) (vextatement : IRStmt) (expression : Expr)
    (stmt_idx : Z) : res BlockState :=
  match vextatement with
  | Ist_WrTmp tmp _ =>
      match tempstore self with
      | None => Raise AttributeError
      | Some t => t' ← TempStore_write t tmp expression; Ok (set_tempstore (Some t') self)
      end
  | Ist_Put offset _ =>
      regs' ←
        (if has_F (e_type expression) || (arch_bits arch <? e_size expression)
         then Ok (<[offset := expression]> (regs self))
         else
           let old := default (ConstExpression_default (Ity_I (arch_bits arch)))
                              (regs self !! offset) in
           v ← overwrite expression old;
           Ok (<[offset := v]> (regs self)));
      let self' := set_regs regs' self in
      if (offset =? sp_offset arch) && str_contains "stack" (taint_region self') then
        if negb (concrete (taints expression)) then Raise FidgetAnalysisFailure
        else if model_value (cleanval expression) =? 0 then
          data ← make_bindata expression 0;
          Ok (set_tags (tags self' ++ [(ALLOC, data)]) self')
        else
          data ← make_bindata expression 0;
          Ok (set_tags (tags self' ++ [(ALLOC, data)]) self')
      else Ok self'
  | Ist_Store a _ =>
      '(addr_expr, bs) ← SmartExpression self a (e_addr expression)
                            [PStr "statements"; PInt stmt_idx; PStr "addr"];
      bs1 ← access bs addr_expr AccessType.WRITE;
      let bs2 :=
        match pointer (taints addr_expr) with
        | PRegion region =>
            if truthy (PRegion region)
            then set_mem_regions
                   (<[region := mem_store (cleanval addr_expr) expression (region_mem bs1 region)]>
                      (mem_regions bs1)) bs1
            else bs1
        | PFalse => bs1
        end in
      if truthy (pointer (taints expression))
      then access bs2 expression AccessType.POINTER
      else Ok bs2
  | _ => Ok self
  end.

(** [BlockState.end]: the registers are visited in the order of the map. *)
Definition end_ (self : BlockState) : res BlockState :=
  foldM (fun bs '(offset, value) =>
           if (offset =? sp_offset arch) || (offset =? bp_offset arch) || (offset =? ip_offset arch)
           then Ok bs
           else access bs value AccessType.POINTER)
        (map_to_list (regs self)) self.

(** *** The traversal *)

(** [enumerate(l)] *)
Fixpoint enumerate_from {A : Type} (i : Z) (l : list A) : list (Z * A) :=
  match l with
  | [] => []
  | x :: l' => (i, x) :: enumerate_from (i + 1) l'
  end.

(** The first loop over [stmtgen]: consume up to the first [IMark]. *)
Fixpoint after_first_IMark (stmtgen : list (Z * IRStmt)) : list (Z * IRStmt) :=
  match stmtgen with
  | [] => []
  | (_, Ist_IMark _ _) :: rest => rest
  | _ :: rest => after_first_IMark rest
  end.

(** The conversion of a guarded load's value. *)
Definition convert_loaded (data_expression : Expr) (cvt : string)
    (cvt_types : IRType * IRType) : Expr :=
  let conv_diff := extract_int cvt_types.2 - extract_int cvt_types.1 in
  let ext (v : bv) : bv :=
    if conv_diff =? 0 then v
    else if str_contains "S" cvt then SignExt conv_diff v
    else ZeroExt conv_diff v in
  (* a [CustomExpression]: [size] is never set on it and never read *)
  {| cls := ClsSmart; e_size := 0; e_type := cvt_types.2;
     cleanval := ext (cleanval data_expression);
     dirtyval := ext (dirtyval data_expression);
     deps := deps data_expression;
     taints := taints data_expression;
     rootval := rootval data_expression;
     e_addr := e_addr data_expression;
     e_path := e_path data_expression |}.

Definition tempstore_default (blockstate : BlockState) (tmp : N) : res BlockState :=
  match tempstore blockstate with
  | None => Raise AttributeError
  | Some t => t' ← TempStore_default t tmp; Ok (set_tempstore (Some t') blockstate)
  end.

(** The body of the loop over one instruction's statements. *)
Definition exec_stmt (struct : Struct) (addr : Z) (blockstate : BlockState)
    (indexed : Z * IRStmt) : res BlockState :=
  let '(stmt_idx, stmt) := indexed in
  let path := [PStr "statements"; PInt stmt_idx] in
  match stmt with
  | Ist_NoOp | Ist_AbiHint | Ist_MBE => Ok blockstate
  | Ist_Exit dst =>
      '(_, bs) ← SmartExpression blockstate (Ico dst) (Some addr) (path ++ [PStr "dst"]);
      Ok bs
  | Ist_WrTmp _ data | Ist_Store _ data | Ist_Put _ data =>
      '(this_expression, bs) ← SmartExpression blockstate data (Some addr) (path ++ [PStr "data"]);
      assign bs stmt this_expression stmt_idx
  | Ist_LoadG dst a alt guard cvt cvt_types =>
      '(addr_expression, bs) ← SmartExpression blockstate a (Some addr) (path ++ [PStr "addr"]);
      bs1 ← access bs addr_expression AccessType.READ;
      let data_expression := get_mem bs1 addr_expression cvt_types.1 in
      let cvt_data_expression := convert_loaded data_expression cvt cvt_types in
      match tempstore bs1 with
      | None => Raise AttributeError
      | Some temps =>
          temps' ← TempStore_write temps dst cvt_data_expression;
          let bs2 := set_tempstore (Some temps') bs1 in
          '(_, bs3) ← SmartExpression bs2 guard (Some addr) (path ++ [PStr "guard"]);
          '(_, bs4) ← SmartExpression bs3 alt (Some addr) (path ++ [PStr "alt"]);
          Ok bs4
      end
  | Ist_StoreG a data guard =>
      '(addr_expr, bs) ← SmartExpression blockstate a (Some addr) (path ++ [PStr "addr"]);
      '(value_expr, bs0) ← SmartExpression bs data (Some addr) (path ++ [PStr "data"]);
      bs1 ← access bs0 addr_expr AccessType.WRITE;
      let bs2 :=
        match pointer (taints addr_expr) with
        | PRegion region =>
            if truthy (PRegion region)
            then set_mem_regions
                   (<[region := mem_store (cleanval addr_expr) value_expr (region_mem bs1 region)]>
                      (mem_regions bs1)) bs1
            else bs1
        | PFalse => bs1
        end in
      bs3 ← (if PointerTaint_eqb (pointer (taints value_expr)) (PRegion (name struct))
             then access bs2 value_expr AccessType.POINTER
             else Ok bs2);
      '(_, bs4) ← SmartExpression bs3 guard (Some addr) (path ++ [PStr "guard"]);
      Ok bs4
  | Ist_PutI data =>
      '(_, bs) ← SmartExpression blockstate data (Some addr) (path ++ [PStr "data"]);
      Ok bs
  | Ist_CAS oldLo oldHi =>
      bs ← (if negb (N.eqb oldLo 4294967295)
            then tempstore_default blockstate oldLo else Ok blockstate);
      if negb (N.eqb oldHi 4294967295) then tempstore_default bs oldHi else Ok bs
  | Ist_Dirty tmp =>
      if negb (N.eqb tmp 4294967295) then tempstore_default blockstate tmp else Ok blockstate
  | Ist_IMark _ _ | Ist_Other _ =>
      Raise (FidgetUnsupportedError "Unknown vex instruction???")
  end.

Definition is_function (a : Z) : bool := existsb (fun kv => kv.1 =? a) functions.

(** The body of the loop over [mark_addrs]: one instruction, lifted alone. *)
Definition exec_insn (struct : Struct) (funcaddr : Z) (st : BlockState * gset Z) (addr : Z)
  : res (BlockState * gset Z) :=
  let '(blockstate, cache) := st in
  if negb (addr =? funcaddr) && is_function addr then Raise FidgetAnalysisFailure
  else
    let cache' := {[addr]} ∪ cache in
    insnblock ← factory_block addr (Some 1);
    let temps := {| tyenv := tyenv_types insnblock; storage := ∅ |} in
    let bs := set_tempstore (Some temps) blockstate in
    bs' ← foldM (exec_stmt struct addr)
                (after_first_IMark (enumerate_from 0 (statements insnblock))) bs;
    Ok (bs', cache').

(** The call case at the end of a block: pop the return address and
    discard the last two tags ([tags[:-2]]). *)
Definition pop_return_address (blockstate : BlockState) : res BlockState :=
  '(stack, bs) ← get_reg blockstate (sp_offset arch) (Ity_I (arch_bits arch));
  match deps stack with
  | [] => Raise IndexError
  | d0 :: rest =>
      popped ← (if truthy (pointer (taints d0)) then Ok d0
                else match rest with
                     | d1 :: _ => Ok d1
                     | [] => Raise IndexError
                     end);
      Ok (set_tags (take (length (tags bs) - 2)%nat (tags bs))
                   (set_regs (<[sp_offset arch := popped]> (regs bs)) bs))
  end.

(** The states the successor loops append to the queue. *)
Definition enqueue_successors (blockstate : BlockState) (headcache cache : gset Z)
  : list BlockState :=
  flat_map (fun context =>
    flat_map (fun '(node, jumpkind) =>
      if negb (str_in jumpkind OK_CONTINUE_JUMPS) then []
      else if bool_decide (node_addr node ∈ headcache) then []
      else if bool_decide (simprocedure_name node ≠ None) then []
      else if bool_decide (node_addr node ∈ cache) then
        flat_map (fun '(succ, jumpkind) =>
          if str_in jumpkind OK_CONTINUE_JUMPS
             && negb (bool_decide (node_addr succ ∈ cache))
             && bool_decide (simprocedure_name succ = None)
          then [copy blockstate (node_addr succ)] else [])
          (get_successors_and_jumpkind node false)
      else [copy blockstate (node_addr node)])
      (get_successors_and_jumpkind context false))
    (get_all_nodes (addr blockstate)).

Definition mark_addrs_of (block : IRSB) : res (list Z) :=
  let mark_addrs :=
    flat_map (fun s => match s with Ist_IMark a d => [a + d] | _ => [] end) (statements block) in
  if String.eqb (jumpkind block) "Ijk_NoDecode" then
    match mark_addrs with
    | [] => Raise IndexError
    | _ => Ok (removelast mark_addrs)
    end
  else Ok mark_addrs.

(** The end of a block: the terminator decides whether the traversal goes
    on, and with which states. *)
Definition block_end (block : IRSB) (blockstate : BlockState) (headcache cache : gset Z)
  : res (BlockState * list BlockState) :=
  if String.eqb (jumpkind block) "Ijk_Call" || str_in (jumpkind block) OK_CONTINUE_JUMPS then
    bs ← (if String.eqb (jumpkind block) "Ijk_Call" && call_pushes_ret arch
          then pop_return_address blockstate else Ok blockstate);
    Ok (bs, enqueue_successors bs headcache cache)
  else if str_in (jumpkind block) ["Ijk_Ret"; "Ijk_NoDecode"] then Ok (blockstate, [])
  else Raise (FidgetError "Can't proceed from unknown jumpkind").

(** One lifted block: its instructions, its terminator, the drain of its tags. *)
Definition analyze_block (struct : Struct) (funcaddr : Z) (blockstate : BlockState)
    (block : IRSB) (headcache cache : gset Z) : res (list BlockState * gset Z * Struct) :=
  mark_addrs ← mark_addrs_of block;
  let headcache := {[addr blockstate]} ∪ headcache in
  '(bs, cache) ← foldM (exec_insn struct funcaddr) mark_addrs (blockstate, cache);
  '(bs, new) ← block_end block bs headcache cache;
  bs ← end_ bs;
  (* every tag is ALLOC or ACCESS, so the drain's last branch is never taken *)
  Ok (new, cache, {| name := name struct; events := events struct ++ tags bs |}).

(** The state of the [while] loop of [analyze_stack]. *)
Record LoopState : Type := {
  struct : Struct;
  queue : list BlockState;
  headcache : gset Z;
  cache : gset Z }.

Inductive Progress : Type :=
| Finished (s : Struct)
| Next (ls : LoopState).

(** One test of the loop condition and one run of the loop body. *)
Definition loop_body (funcaddr : Z) (ls : LoopState) : res Progress :=
  match queue ls with
  | [] => Ok (Finished (struct ls))
  | blockstate :: queue' =>
      let skipped :=
        {| struct := struct ls; queue := queue'; headcache := headcache ls;
           cache := cache ls |} in
      if bool_decide (addr blockstate ∈ headcache ls) then Ok (Next skipped)
      else
        match factory_block (addr blockstate) None with
        | Raise AngrMemoryError => Ok (Next skipped)
        | Raise e => Raise e
        | Ok block =>
            '(new, cache', struct') ←
              analyze_block (struct ls) funcaddr blockstate block (headcache ls) (cache ls);
            Ok (Next {| struct := struct'; queue := queue' ++ new;
                        headcache := {[addr blockstate]} ∪ headcache ls;
                        cache := cache' |})
        end
  end.

(** The [while] loop of [analyze_stack]; [None] when the fuel runs out. *)
Fixpoint analyze_loop (fuel : nat) (funcaddr : Z) (ls : LoopState) : option (res Struct) :=
  match fuel with
  | O => None
  | S fuel' =>
      match loop_body funcaddr ls with
      | Raise e => Some (Raise e)
      | Ok (Finished s) => Some (Ok s)
      | Ok (Next ls') => analyze_loop fuel' funcaddr ls'
      end
  end.

(** The frame and the block state [analyze_stack] starts from; [n] counts
    the frames created so far. *)
Definition initial_loop_state (n : nat) (funcaddr : Z) : LoopState :=
  let struct := {| name := struct_name n; events := [] |} in
  let initial_state := BlockState_new funcaddr (name struct) in
  let stackexp := ConstExpression (BVV 0 (arch_bits arch)) (Ity_I (arch_bits arch)) true in
  let stackexp :=
    MkExpr (cls stackexp) (e_size stackexp) (e_type stackexp) (cleanval stackexp)
           (dirtyval stackexp) (deps stackexp)
           (set_pointer (PRegion (name struct)) (taints stackexp))
           (rootval stackexp) (Some funcaddr) (e_path stackexp) in
  let initial_state :=
    set_regs (<[sp_offset arch := stackexp]> (regs initial_state)) initial_state in
  {| struct := struct; queue := [initial_state]; headcache := ∅; cache := ∅ |}.

(** [StructureAnalysis.analyze_stack] *)
Definition analyze_stack (fuel : nat) (n : nat) (funcaddr : Z) : option (res Struct) :=
  analyze_loop fuel funcaddr (initial_loop_state n funcaddr).

(** *** The driver *)

(** Modelled from the spec: [fidget/errors.py], which declares the
    exception classes, is not among the sources.  The handler of the
    driver names [FidgetAnalysisFailure]; section 7 of the spec says that
    an unsupported-construct error "is caught defensively by the driver as
    if recoverable", so [FidgetUnsupportedError] is taken to derive from
    [FidgetAnalysisFailure].  The base class [FidgetError] and the
    exceptions of Python and angr are not caught by that handler. *)
Definition isinstance_FidgetAnalysisFailure (e : exc) : bool :=
  match e with
  | FidgetAnalysisFailure | FidgetUnsupportedError _ => true
  | _ => false
  end.

Record Results : Type := {
  structures : gmap string Struct;
  stack_frames : gmap Z string }.

Definition no_results : Results := {| structures := ∅; stack_frames := ∅ |}.

(** The [else] branch of the driver's [try]: [add_struct] and the entry
    of [stack_frames]. *)
Definition record_frame (func : Function) (struct : Struct) (acc : Results) : Results :=
  {| structures := <[name struct := struct]> (structures acc);
     stack_frames := <[func_addr func := name struct]> (stack_frames acc) |}.

(** The loop of [StructureAnalysis.__init__] over [functions_list]. *)
Fixpoint analyze_functions (fuel : nat) (functions_list : list Function) (n : nat)
    (acc : Results) : option (res Results) :=
  match functions_list with
  | [] => Some (Ok acc)
  | func :: rest =>
      match analyze_stack fuel n (func_addr func) with
      | None => None
      | Some (Raise e) =>
          if isinstance_FidgetAnalysisFailure e
          then analyze_functions fuel rest (S n) acc
          else Some (Raise e)
      | Some (Ok struct) =>
          analyze_functions fuel rest (S n) (record_frame func struct acc)
      end
  end.

(** [StructureAnalysis.get_real_functions]: the target of the MIPS entry
    stub, then the loop. *)
Definition mips_do_not_touch : option Z :=
  if String.eqb (arch_name arch) "MIPS32" then
    fold_left (fun acc context =>
      fold_left (fun acc '(succ, jumpkind) =>
                   if String.eqb jumpkind "Ijk_Call" then Some (node_addr succ) else acc)
                (get_successors_and_jumpkind context true) acc)
      (get_all_nodes entry) None
  else None.

(** The body of the loop of [get_real_functions] over the functions. *)
Definition get_real_functions_body (do_not_touch : option Z) (out : list Function)
    (item : Z * Function) : res (list Function) :=
  let '(funcaddr, func) := item in
  if funcaddr =? entry then Ok out
  else if bool_decide (Some funcaddr = do_not_touch) then Ok out
  else if is_hooked funcaddr then Ok out
  else if bool_decide (find_segment_containing funcaddr = None) then Ok out
  else if negb (sections_map_has ".text")
          && match find_section_containing funcaddr with
             | None => true
             | Some sec => negb (String.eqb (sec_name sec) ".text")
             end
  then Ok out
  else if existsb (Z.eqb funcaddr) plt_values then Ok out
  else if has_unresolved_jumps func then Ok out
  else
    match get_any_node funcaddr with
    | None => Raise AttributeError
    | Some node =>
        if bool_decide (simprocedure_name node ≠ None)
        then (* l.debug('Skipping function %s starting with a SimProcedure') *)
             Ok (out ++ [func])
        else Ok (out ++ [func])
    end.

Definition get_real_functions : res (list Function) :=
  foldM (get_real_functions_body mips_do_not_touch) functions [].

(** The filters of [get_real_functions] that end in [continue]. *)
Definition passes_filters (kv : Z * Function) : bool :=
  let '(funcaddr, func) := kv in
  negb (funcaddr =? entry)
  && negb (bool_decide (Some funcaddr = mips_do_not_touch))
  && negb (is_hooked funcaddr)
  && negb (bool_decide (find_segment_containing funcaddr = None))
  && negb (negb (sections_map_has ".text")
           && match find_section_containing funcaddr with
              | None => true
              | Some sec => negb (String.eqb (sec_name sec) ".text")
              end)
  && negb (existsb (Z.eqb funcaddr) plt_values)
  && negb (has_unresolved_jumps func).

(** [StructureAnalysis.__init__], with the CFG given. *)
Definition StructureAnalysis (fuel : nat) (functions_list : option (list Function))
    (chase_structs : bool) : option (res Results) :=
  match (match functions_list with
         | Some l => Ok l
         | None => get_real_functions
         end) with
  | Raise e => Some (Raise e)
  | Ok functions_list =>
      match analyze_functions fuel functions_list 0 no_results with
      | None => None
      | Some (Raise e) => Some (Raise e)
      | Some (Ok results) =>
          if chase_structs then Some (Raise (FidgetUnsupportedError "lmao what"))
          else Some (Ok results)
      end
  end.

End Engine.

(** ** Where the traversal is

    [reaches funcaddr ls ls' k]: [k] runs of the loop body lead from the
    loop state [ls] to [ls'].  [statement_reached n funcaddr a struct bs s k]:
    after [k] runs of the loop body, the traversal of the function at
    [funcaddr] (the [n]-th frame) pops a block it has not visited, lifts
    it, runs the instructions before the one at [a], lifts that one alone
    and runs its statements before [s]; [bs] is the block state and [s]
    the indexed statement about to be interpreted. *)

Inductive reaches `{W : World} (funcaddr : Z) : LoopState -> LoopState -> nat -> Prop :=
| reaches_here (ls : LoopState) : reaches funcaddr ls ls 0
| reaches_next (ls ls' ls'' : LoopState) (k : nat) :
    loop_body funcaddr ls = Ok (Next ls') ->
    reaches funcaddr ls' ls'' k ->
    reaches funcaddr ls ls'' (S k).

Inductive statement_reached `{W : World} (n : nat) (funcaddr : Z)
  : Z -> Struct -> BlockState -> Z * IRStmt -> nat -> Prop :=
| StatementReached (ls : LoopState) (k : nat) (blockstate : BlockState)
    (queue' : list BlockState) (block : IRSB) (pre post : list Z) (a : Z)
    (bs1 : BlockState) (cache1 : gset Z) (insnblock : IRSB)
    (spre spost : list (Z * IRStmt)) (s : Z * IRStmt) (bs2 : BlockState) :
    reaches funcaddr (initial_loop_state n funcaddr) ls k ->
    queue ls = blockstate :: queue' ->
    addr blockstate ∉ headcache ls ->
    factory_block (addr blockstate) None = Ok block ->
    mark_addrs_of block = Ok (pre ++ a :: post) ->
    foldM (exec_insn (struct ls) funcaddr) pre (blockstate, cache ls) = Ok (bs1, cache1) ->
    negb (a =? funcaddr) && is_function a = false ->
    factory_block a (Some 1) = Ok insnblock ->
    after_first_IMark (enumerate_from 0 (statements insnblock)) = spre ++ s :: spost ->
    foldM (exec_stmt (struct ls) a) spre
          (set_tempstore (Some {| tyenv := tyenv_types insnblock; storage := ∅ |}) bs1)
      = Ok bs2 ->
    statement_reached n funcaddr a (struct ls) bs2 s k.


(** What building a node leaves alone in the block state: everything but
    the registers and the tag log. *)
Definition same_frame (bs bs' : BlockState) : Prop :=
  addr bs' = addr bs /\ taint_region bs' = taint_region bs /\
  tempstore bs' = tempstore bs /\ mem_regions bs' = mem_regions bs.

(** * A small world to run the definitions in

    A 64-bit architecture whose calls push a return address, with three
    functions: one that moves the stack pointer by a register, one whose
    single instruction has a statement the engine has no case for, and one
    whose head block is a simulated procedure. *)

Module Demo.

Definition valuation : Valuation :=
  {| sym_val := fun _ _ _ => 0;
     op_val := fun op args =>
       match args with
       | [a; b] =>
           if String.eqb op "Iop_Sub64" then a - b
           else if String.eqb op "Iop_Add64" then a + b
           else 0
       | _ => 0
       end |}.

Definition amd64 : Arch :=
  {| arch_name := "AMD64"; arch_bits := 64; sp_offset := 48; bp_offset := 56;
     ip_offset := 184; call_pushes_ret := true; memory_endness := "Iend_LE";
     itstate_offset := 0 |}.

Definition rax : Z := 16.

Definition u64 (v : Z) : IRConst := {| con_value := v; con_type := Ity_I 64; con_size := 64 |}.

(** [sp = rax]: the stack pointer takes a register's value. *)
Definition alloca_insn : IRSB :=
  {| statements := [Ist_IMark 4096 0; Ist_Put 48 (Iex_Get rax (Ity_I 64))];
     jumpkind := "Ijk_Ret";
     tyenv_types := [] |}.

Definition unknown_insn : IRSB :=
  {| statements := [Ist_IMark 8192 0; Ist_Other "Ist_LLSC"];
     jumpkind := "Ijk_Ret";
     tyenv_types := [] |}.

(** [call f]: [t0 = sp - 8; sp = t0; *t0 = return address]. *)
Definition call_insn : IRSB :=
  {| statements :=
       [Ist_IMark 12288 0;
        Ist_WrTmp 0 (Iex_Op "Iop_Sub64" [Iex_Get 48 (Ity_I 64); Iex_Const (u64 8)] (Ity_I 64));
        Ist_Put 48 (Iex_RdTmp 0 (Ity_I 64));
        Ist_Store (Iex_RdTmp 0 (Ity_I 64)) (Iex_Const (u64 12293))];
     jumpkind := "Ijk_Call";
     tyenv_types := [Ity_I 64] |}.

Definition ret_insn : IRSB :=
  {| statements := [Ist_IMark 16384 0]; jumpkind := "Ijk_Ret"; tyenv_types := [] |}.

Definition fn (a : Z) (nm : string) : Function :=
  {| func_addr := a; func_name := nm; has_unresolved_jumps := false |}.

#[export] Instance world : World :=
  {| make_default_value := fun ty => BVV 0 (extract_int ty);
     ZExtTo := fun size v => if bv_size v <? size then ZeroExt (size - bv_size v) v else v;
     operations := fun op =>
       if str_in op ["Iop_Add64"; "Iop_Sub64"; "Iop_And64"]
       then Some (fun args => Some (Calc op args 64)) else None;
     model_value := bv_eval valuation;
     model_signed := bv_eval valuation;
     value_found := fun _ _ _ => true;
     arch := amd64;
     entry := 256;
     is_hooked := fun _ => false;
     loader_memory_contains := fun _ => false;
     loader_memory_bytes := fun _ _ => "";
     reversed_repr := fun _ => "<reversed object>";
     find_segment_containing := fun a => Some 0;
     sections_map_has := fun _ => true;
     find_section_containing := fun _ => Some {| sec_name := ".text" |};
     plt_values := [];
     factory_block := fun a _ =>
       if a =? 4096 then Ok alloca_insn
       else if a =? 8192 then Ok unknown_insn
       else if a =? 12288 then Ok call_insn
       else if a =? 16384 then Ok ret_insn
       else Raise AngrMemoryError;
     get_all_nodes := fun a => [{| node_id := a; node_addr := a; simprocedure_name := None |}];
     get_any_node := fun a =>
       Some {| node_id := a; node_addr := a;
               simprocedure_name := if a =? 16384 then Some "puts" else None |};
     get_successors_and_jumpkind := fun _ _ => [];
     functions := [(4096, fn 4096 "moves_sp"); (8192, fn 8192 "unknown_stmt");
                   (16384, fn 16384 "simulated_head")];
     struct_name := fun n => "stack_" +:+ pretty n |}.

(** A 32-bit literal, a 64-bit integer register value and a 64-bit float
    register value. *)
Definition narrow32 : Expr :=
  {| cls := ClsSmart; e_size := 32; e_type := Ity_I 32;
     cleanval := BVV 7 32; dirtyval := BVS 4096 1 32; deps := [];
     taints := set_concrete true no_taints; rootval := true; e_addr := Some 4096;
     e_path := [PStr "statements"; PInt 1; PStr "data"] |}.

Definition wide64 : Expr := ConstExpression (BVV 4294967296 64) (Ity_I 64) false.

Definition wideF64 : Expr := ConstExpression (FPV 0 64) (Ity_F 64) false.

(** The block state [analyze_stack] starts the first function from: the
    stack pointer holds the zero of the region [stack_0]. *)
Definition entry_state : BlockState :=
  match queue (initial_loop_state 0 4096) with
  | bs :: _ => bs
  | [] => BlockState_new 4096 ""
  end.

Definition data_path : list PathElem := [PStr "statements"; PInt 1; PStr "data"].

(** [8 + sp] and [sp + 8] *)
Definition const_plus_sp : IRExpr :=
  Iex_Op "Iop_Add64" [Iex_Const (u64 8); Iex_Get 48 (Ity_I 64)] (Ity_I 64).
Definition sp_plus_const : IRExpr :=
  Iex_Op "Iop_Add64" [Iex_Get 48 (Ity_I 64); Iex_Const (u64 8)] (Ity_I 64).

(** A state in which register 100 holds a value with predication taint. *)
Definition predicated_state : BlockState :=
  let d := ConstExpression (BVV 0 64) (Ity_I 64) false in
  set_regs (<[100 := MkExpr (cls d) (e_size d) (e_type d) (cleanval d) (dirtyval d) (deps d)
                            (set_it true (taints d)) (rootval d) (e_addr d) (e_path d)]>
              (regs entry_state)) entry_state.

(** [itstate ? 1 : 2] and [itstate ? rax : rax] *)
Definition ite_of_literals : IRExpr :=
  Iex_ITE (Iex_Get 100 (Ity_I 64)) (Iex_Const (u64 1)) (Iex_Const (u64 2)) (Ity_I 64).
Definition ite_of_registers : IRExpr :=
  Iex_ITE (Iex_Get 100 (Ity_I 64)) (Iex_Get rax (Ity_I 64)) (Iex_Get rax (Ity_I 64)) (Ity_I 64).

(** The node of the literal 0 in a statement [sp = 0]. *)
Definition zero_node : Expr :=
  {| cls := ClsSmart; e_size := 64; e_type := Ity_I 64;
     cleanval := BVV 0 64; dirtyval := BVS 4096 1 64; deps := [];
     taints := set_concrete true no_taints; rootval := true; e_addr := Some 4096;
     e_path := data_path |}.

(** The node of the stack pointer at the entry of the first function, as
    a register read returns it, and the node of a literal 8. *)
Definition precall_sp : Expr :=
  {| cls := ClsSmart; e_size := 64; e_type := Ity_I 64;
     cleanval := BVV 0 64; dirtyval := BVV 0 64; deps := [];
     taints := {| pointer := PRegion "stack_0"; concrete := true; it := false |};
     rootval := false; e_addr := Some 4096; e_path := [] |}.

Definition eight : Expr :=
  {| cls := ClsSmart; e_size := 64; e_type := Ity_I 64;
     cleanval := BVV 8 64; dirtyval := BVS 12288 1 64; deps := [];
     taints := {| pointer := PFalse; concrete := true; it := false |};
     rootval := true; e_addr := Some 12288;
     e_path := [PStr "statements"; PInt 1; PStr "data"; PStr "args"; PInt 1] |}.

(** A state in which temporary 0 holds the frame pointer, and a guarded
    load [t1 = if (0) then load(t0) else 0]. *)
Definition load_state : BlockState :=
  set_tempstore (Some {| tyenv := [Ity_I 64; Ity_I 64]; storage := {[ 0%N := precall_sp ]} |})
                entry_state.

Definition false_guard : IRExpr :=
  Iex_Const {| con_value := 0; con_type := Ity_I 1; con_size := 1 |}.

Definition guarded_load : IRStmt :=
  Ist_LoadG 1 (Iex_RdTmp 0 (Ity_I 64)) (Iex_Const (u64 0)) false_guard
            "ILGop_Ident64" (Ity_I 64, Ity_I 64).

End Demo.

Example demo_struct_name : @struct_name Demo.world 3 = "stack_3".
Proof. vm_compute. reflexivity. Qed.

(** * Properties *)

(** ** Types and derived nodes *)

Lemma IRType_eqb_eq (a b : IRType) : IRType_eqb a b = true <-> a = b.
Proof.
  destruct a, b; simpl; split; intros H; try congruence; try discriminate;
    try (apply Z.eqb_eq in H; congruence); try (injection H as ->; apply Z.eqb_refl).
Qed.

Lemma IRType_eqb_refl (a : IRType) : IRType_eqb a a = true.
Proof. by apply IRType_eqb_eq. Qed.

Lemma PointerTaint_eqb_eq (a b : PointerTaint) : PointerTaint_eqb a b = true <-> a = b.
Proof.
  destruct a, b; simpl; split; intros H; try congruence; try discriminate.
  - apply String.eqb_eq in H. congruence.
  - injection H as ->. apply String.eqb_refl.
Qed.

Lemma truncate_same_type (e : Expr) : truncate e (e_type e) = Ok e.
Proof. unfold truncate. by rewrite IRType_eqb_refl. Qed.

(** The low [w] bits of [Concat(h, l)] with [l] of width [w], as
    [Extract(w - 1, 0, .)] computes them. *)
Lemma low_bits_of_concat (h l w : Z) :
  0 <= w -> ((h * 2 ^ w + l) / 2 ^ 0) mod 2 ^ (w - 1 - 0 + 1) = l mod 2 ^ w.
Proof.
  intros Hw. rewrite Z.pow_0_r, Z.div_1_r.
  replace (w - 1 - 0 + 1) with w by lia.
  rewrite Z.add_comm, Z.mod_add; [reflexivity|].
  apply Z.pow_nonzero; lia.
Qed.

(** C2, as stated, fails on a wider node of a float type: overwriting the
    32-bit integer node with the 64-bit float node and truncating back to
    32 bits ends in an exception, not in a node. *)
Lemma truncate_overwrite_float_raises :
  e_size Demo.narrow32 < e_size Demo.wideF64 /\
  raises (x ← overwrite Demo.narrow32 Demo.wideF64;
          truncate x (e_type Demo.narrow32)) = true.
Proof. split; reflexivity. Qed.

(** C2 (amended): [truncate] at a node's own type returns the node itself;
    for a node [e] of width [w] and a wider node [o] that is not of a
    float type, [overwrite(e, o)] truncated back to the type of [e] has
    the width and type of [e], and both of its values are the low [w]
    bits of the values of [e]; and for a wider node [o] of a float type
    the round trip ends in an exception and yields no node. *)
Theorem truncate_overwrite_low_bits :
  (forall e : Expr, truncate e (e_type e) = Ok e) /\
  (forall e o : Expr,
      cls e = ClsSmart ->
      0 <= e_size e < e_size o ->
      extract_int (e_type e) = e_size e ->
      extract_int (e_type o) = e_size o ->
      has_F (e_type o) = false ->
      bv_size (cleanval e) = e_size e ->
      bv_size (dirtyval e) = e_size e ->
      exists x r,
        overwrite e o = Ok x /\ truncate x (e_type e) = Ok r /\
        e_size r = e_size e /\ e_type r = e_type e /\
        forall rho,
          bv_eval rho (cleanval r) = bv_eval rho (cleanval e) mod 2 ^ e_size e /\
          bv_eval rho (dirtyval r) = bv_eval rho (dirtyval e) mod 2 ^ e_size e) /\
  (forall e o : Expr,
      e_size e < e_size o ->
      extract_int (e_type e) = e_size e ->
      extract_int (e_type o) = e_size o ->
      has_F (e_type o) = true ->
      raises (x ← overwrite e o; truncate x (e_type e)) = true).
Proof.
  split; [exact truncate_same_type|]. split.
  - intros e o Hcls Hsz He Ho HF Hc Hd.
    unfold overwrite. rewrite Hcls.
    destruct (Z.ltb_spec (e_size o) (e_size e)); [lia|].
    destruct (Z.eqb_spec (e_size e) (e_size o)); [lia|].
    eexists _, _. split; [reflexivity|].
    unfold truncate; simpl.
    destruct (IRType_eqb (e_type e) (e_type o)) eqn:Hty.
    { apply IRType_eqb_eq in Hty. rewrite Hty in He. lia. }
    rewrite HF, He.
    destruct (Z.ltb_spec (e_size o) (e_size e)); [lia|].
    split; [reflexivity|]. simpl. repeat split; try reflexivity.
    + rewrite Hc. apply low_bits_of_concat. lia.
    + rewrite Hd. apply low_bits_of_concat. lia.
  - intros e o Hsz He Ho HF.
    unfold overwrite. destruct (cls e); [|reflexivity].
    destruct (Z.ltb_spec (e_size o) (e_size e)); [lia|].
    destruct (Z.eqb_spec (e_size e) (e_size o)); [lia|].
    cbn [mbind res_bind]. unfold truncate. cbn [e_type].
    destruct (IRType_eqb (e_type e) (e_type o)) eqn:Hty.
    { apply IRType_eqb_eq in Hty. rewrite Hty in He. lia. }
    by rewrite HF.
Qed.

Lemma truncate_overwrite_low_bits_witness :
  (exists x r,
     overwrite Demo.narrow32 Demo.wide64 = Ok x /\
     truncate x (Ity_I 32) = Ok r /\
     e_size r = 32 /\ e_type r = Ity_I 32 /\
     forall rho,
       bv_eval rho (cleanval r) = 7 mod 2 ^ 32 mod 2 ^ 32 /\
       bv_eval rho (dirtyval r) = (sym_val rho 4096 1 32 mod 2 ^ 32) mod 2 ^ 32) /\
  raises (x ← overwrite Demo.narrow32 Demo.wideF64; truncate x (Ity_I 32)) = true.
Proof.
  split.
  - apply (proj1 (proj2 truncate_overwrite_low_bits) Demo.narrow32 Demo.wide64);
      simpl; first [reflexivity | lia].
  - apply (proj2 (proj2 truncate_overwrite_low_bits) Demo.narrow32 Demo.wideF64);
      simpl; first [reflexivity | lia].
Defined.

(** ** Pointer taint of operator nodes *)

Lemma add_pointer_taint_left (t1 t2 : PointerTaint) :
  truthy t1 = true -> truthy t2 = false -> add_pointer_taint t1 t2 = t1.
Proof. unfold add_pointer_taint. by intros -> ->. Qed.

Lemma add_pointer_taint_same (t : PointerTaint) :
  truthy t = true -> add_pointer_taint t t = t.
Proof.
  unfold add_pointer_taint. intros ->. simpl.
  by rewrite (proj2 (PointerTaint_eqb_eq t t) eq_refl).
Qed.

Lemma add_pointer_taint_different (t1 t2 : PointerTaint) :
  truthy t1 = true -> truthy t2 = true -> t1 <> t2 -> add_pointer_taint t1 t2 = PFalse.
Proof.
  unfold add_pointer_taint. intros -> -> Hne. simpl.
  destruct (PointerTaint_eqb t1 t2) eqn:E; [|done].
  by apply PointerTaint_eqb_eq in E.
Qed.

(** With an untainted first operand the node is untainted, whatever the
    second operand carries: the inner [else] of the source yields [t1]. *)
Lemma add_pointer_taint_right (t1 t2 : PointerTaint) :
  truthy t1 = false -> truthy (add_pointer_taint t1 t2) = false.
Proof.
  unfold add_pointer_taint. intros H1. rewrite H1. simpl.
  destruct (truthy t2); [exact H1 | reflexivity].
Qed.

Lemma sub_pointer_taint_spec (t1 t2 : PointerTaint) :
  sub_pointer_taint t1 t2 = if truthy t1 && negb (truthy t2) then t1 else PFalse.
Proof. reflexivity. Qed.

(** The pointer taint of an operator node is [False], or what the rule of
    its opcode family gives on the first two entries of the node's own
    operand list. *)
Lemma finish_op_pointer `{W : World} (self : Expr) (op : string) (args : list Expr)
    (node : Expr) :
  finish_op self op args = Ok node ->
  pointer (taints node) = PFalse \/
  exists d0 d1 rest,
    deps node = d0 :: d1 :: rest /\
    ((is_add_like op = true /\
      pointer (taints node) = add_pointer_taint (pointer (taints d0)) (pointer (taints d1))) \/
     (is_add_like op = false /\ startswith op "Iop_Sub" = true /\
      pointer (taints node) = sub_pointer_taint (pointer (taints d0)) (pointer (taints d1)))).
Proof.
  unfold finish_op.
  set (deps2 := if str_in op ROUNDING_IROPS then _ else _).
  destruct (operations op) as [calculate|]; [|intros [= <-]; by left].
  destruct (calculate (map cleanval deps2)); [|intros [= <-]; by left].
  destruct (calculate (map dirtyval deps2)); [|intros [= <-]; by left].
  destruct (is_add_like op) eqn:Hadd.
  - destruct deps2 as [|d0 [|d1 rest]]; try discriminate.
    intros [= <-]. right. exists d0, d1, rest. simpl. split; [reflexivity|]. by left.
  - destruct (startswith op "Iop_Sub") eqn:Hsub.
    + destruct deps2 as [|d0 [|d1 rest]]; try discriminate.
      intros [= <-]. right. exists d0, d1, rest. simpl. split; [reflexivity|]. by right.
    + intros [= <-]. by left.
Qed.

(** An add, and, or or xor node whose first operand is untainted is
    untainted, whatever its second operand carries. *)
Lemma add_like_untainted_first_operand `{W : World} (self : Expr) (op : string)
    (args : list Expr) (node d0 : Expr) (rest : list Expr) :
  finish_op self op args = Ok node ->
  is_add_like op = true ->
  deps node = d0 :: rest ->
  truthy (pointer (taints d0)) = false ->
  truthy (pointer (taints node)) = false.
Proof.
  intros Hnode Hadd Hdeps Ht.
  destruct (finish_op_pointer self op args node Hnode) as [-> | (x0 & x1 & xs & Hd & Hrule)];
    [reflexivity|].
  rewrite Hdeps in Hd. injection Hd as <- _.
  destruct Hrule as [[_ ->] | [Hno _]]; [|congruence].
  by apply add_pointer_taint_right.
Qed.

(** C1: the add of a constant and a frame pointer.  [8 + sp] is built from
    the state in which the stack pointer carries the region [stack_0]: the
    node's operands are an untainted literal and the tainted pointer, and
    the node itself carries no region, where the claim has it carry the
    pointer's. *)
Theorem add_const_ptr_loses_region :
  exists node bs,
    SmartExpression (W := Demo.world) Demo.entry_state Demo.const_plus_sp (Some 4096) Demo.data_path
      = Ok (node, bs) /\
    map (fun d => pointer (taints d)) (deps node) = [PFalse; PRegion "stack_0"] /\
    pointer (taints node) = PFalse.
Proof. eexists _, _. split; [vm_compute; reflexivity|]. split; reflexivity. Qed.

(** The same add with the operands exchanged keeps the region. *)
Lemma add_ptr_const_keeps_region :
  exists node bs,
    SmartExpression (W := Demo.world) Demo.entry_state Demo.sp_plus_const (Some 4096) Demo.data_path
      = Ok (node, bs) /\
    map (fun d => pointer (taints d)) (deps node) = [PRegion "stack_0"; PFalse] /\
    pointer (taints node) = PRegion "stack_0".
Proof. eexists _, _. split; [vm_compute; reflexivity|]. split; reflexivity. Qed.

(** ** Ternary select *)

(** C6, as stated, fails where it says that under a predicated condition
    the arms do not constrain the result's concreteness: with the same
    predicated condition, two literal arms give a concrete node and two
    register arms give a node that is not concrete. *)
Lemma ite_predicated_concreteness_follows_arm :
  exists n1 b1 n2 b2,
    SmartExpression (W := Demo.world) Demo.predicated_state Demo.ite_of_literals
      (Some 4096) Demo.data_path = Ok (n1, b1) /\
    SmartExpression (W := Demo.world) Demo.predicated_state Demo.ite_of_registers
      (Some 4096) Demo.data_path = Ok (n2, b2) /\
    concrete (taints n1) = true /\ concrete (taints n2) = false.
Proof.
  eexists _, _, _, _. split; [vm_compute; reflexivity|].
  split; [vm_compute; reflexivity|]. split; reflexivity.
Qed.

(** C6 (amended): a ternary node is built by building the false arm, then
    the true arm, then the condition, each in the state the one before
    left, whatever the arms are; the node copies the true arm when that
    is region-tainted and the false arm otherwise; its concreteness is
    the conjunction of the arms' concreteness unless the condition has
    predication taint, and then it is the concreteness of the arm the
    node copied. *)
Theorem ite_evaluates_both_arms `{W : World} :
  (forall bs cond iftrue iffalse ty a p,
      SmartExpression bs (Iex_ITE cond iftrue iffalse ty) a p =
        '(false_expr, bs1) ← SmartExpression bs iffalse a (p ++ [PStr "iffalse"]);
        '(truth_expr, bs2) ← SmartExpression bs1 iftrue a (p ++ [PStr "iftrue"]);
        '(cond_expr, bs3) ← SmartExpression bs2 cond a (p ++ [PStr "cond"]);
        Ok (finish_ite (SmartExpression_fresh (Iex_ITE cond iftrue iffalse ty) a p)
                       false_expr truth_expr cond_expr, bs3)) /\
  (forall self false_expr truth_expr cond_expr,
      let node := finish_ite self false_expr truth_expr cond_expr in
      let chosen := if truthy (pointer (taints truth_expr)) then truth_expr else false_expr in
      cleanval node = cleanval chosen /\
      dirtyval node = dirtyval chosen /\
      deps node = deps chosen /\
      pointer (taints node) = pointer (taints chosen) /\
      concrete (taints node) =
        (if it (taints cond_expr) then concrete (taints chosen)
         else concrete (taints false_expr) && concrete (taints truth_expr)) /\
      it (taints node) = it (taints false_expr) || it (taints truth_expr)).
Proof.
  split; [reflexivity|].
  intros self fe te ce. unfold finish_ite. simpl.
  destruct (truthy (pointer (taints te))), (it (taints ce)); simpl; repeat split.
Qed.

(** ** State copy *)

Lemma copy_regs_lookup `{W : World} (self : BlockState) (newaddr r : Z) :
  regs (copy self newaddr) !! r =
    match regs self !! r with
    | Some v => if truthy (pointer (taints v))
                then Some v else regs (BlockState_new newaddr (taint_region self)) !! r
    | None => regs (BlockState_new newaddr (taint_region self)) !! r
    end.
Proof.
  unfold copy. generalize (BlockState_new newaddr (taint_region self)). intros out.
  cbn [regs set_regs]. rewrite lookup_union.
  destruct (regs self !! r) as [v|] eqn:Hr.
  - destruct (truthy (pointer (taints v))) eqn:Ht.
    + erewrite (proj2 (map_lookup_filter_Some _ _ _ _)); [|split; [exact Hr | exact Ht]].
      by destruct (regs out !! r).
    + rewrite (proj2 (map_lookup_filter_None _ _ _)).
      * by destruct (regs out !! r).
      * right. intros v' Hv'. simpl. rewrite Hr in Hv'. injection Hv' as <-.
        by rewrite Ht.
  - rewrite (proj2 (map_lookup_filter_None _ _ _)); [by destruct (regs out !! r)|].
    by left.
Qed.

(** C7, as stated, fails on an architecture with bookkeeping registers:
    the copy of the entry state holds register 144 with a default value,
    and the source's register 144 is not tainted. *)
Lemma copy_has_seeded_register :
  regs (copy (W := Demo.world) Demo.entry_state 8192) !! 144
    = Some (ConstExpression (BVV 0 64) (Ity_I 64) false) /\
  (pointer ∘ taints) <$> (regs Demo.entry_state !! 144) = Some PFalse.
Proof. split; vm_compute; reflexivity. Qed.

(** C7 (amended): the copy is a fresh state at the new address in the same
    region, with no temporaries, memory or tags; a register of the source
    whose value has a pointer taint is in the copy with that value; at
    every other offset the copy has what the constructor seeds for the
    architecture, and nothing else. *)
Theorem copy_keeps_tainted_registers `{W : World} (self : BlockState) (newaddr : Z) :
  let out := copy self newaddr in
  let seeded := regs (BlockState_new newaddr (taint_region self)) in
  addr out = newaddr /\
  taint_region out = taint_region self /\
  tempstore out = None /\
  mem_regions out = ∅ /\
  tags out = [] /\
  forall r : Z,
    regs out !! r =
      match regs self !! r with
      | Some v => if truthy (pointer (taints v)) then Some v else seeded !! r
      | None => seeded !! r
      end.
Proof.
  intros out seeded. repeat split. exact (copy_regs_lookup self newaddr).
Qed.

(** ** Writes to the stack pointer *)

Lemma overwrite_smart (e o : Expr) : cls e = ClsSmart -> exists v, overwrite e o = Ok v.
Proof.
  intros H. unfold overwrite. rewrite H.
  destruct (e_size o <? e_size e); [by eexists|].
  destruct (e_size e =? e_size o); by eexists.
Qed.

Lemma make_bindata_smart `{W : World} (e : Expr) (flags : Z) :
  cls e = ClsSmart ->
  make_bindata e flags =
    Ok {| bdc_addr := e_addr e;
          bdc_signed := model_signed (cleanval e);
          bdc_dirtyval := dirtyval e;
          bdc_flags := flags;
          bdc_dependencies := map (fun '(d, b) => (b, d)) (make_bindata_internal e) |}.
Proof. intros H. unfold make_bindata. by rewrite H. Qed.

(** C10: a write of a concrete node to the stack pointer in a stack region
    appends exactly one tag, of kind ALLOC, whose patch locations are
    extracted from the written node with access type 0; the statement does
    not depend on the node's value, so a zero adjustment is tagged as any
    other. *)
Theorem sp_write_appends_one_alloc `{W : World} (self : BlockState) (data : IRExpr)
    (expression : Expr) (stmt_idx : Z) :
  cls expression = ClsSmart ->
  concrete (taints expression) = true ->
  str_contains "stack" (taint_region self) = true ->
  exists regs' bindata,
    make_bindata expression 0 = Ok bindata /\
    assign self (Ist_Put (sp_offset arch) data) expression stmt_idx
      = Ok (set_tags (tags self ++ [(ALLOC, bindata)]) (set_regs regs' self)).
Proof.
  intros Hcls Hconc Hstack.
  pose proof (make_bindata_smart expression 0 Hcls) as Hb.
  unfold assign.
  assert (exists regs',
    (if has_F (e_type expression) || (arch_bits arch <? e_size expression)
     then Ok (<[sp_offset arch := expression]> (regs self))
     else v ← overwrite expression
                (default (ConstExpression_default (Ity_I (arch_bits arch)))
                         (regs self !! sp_offset arch));
          Ok (<[sp_offset arch := v]> (regs self))) = Ok regs') as [regs' ->].
  { destruct (_ || _); [by eexists|].
    destruct (overwrite_smart expression
                (default (ConstExpression_default (Ity_I (arch_bits arch)))
                         (regs self !! sp_offset arch)) Hcls) as [v ->].
    by eexists. }
  eexists regs', _. split; [exact Hb|].
  cbn [mbind res_bind]. cbn [taint_region set_regs].
  rewrite Z.eqb_refl, Hstack, Hconc. cbn [andb negb].
  rewrite Hb. by destruct (model_value (cleanval expression) =? 0).
Qed.

Lemma sp_write_appends_one_alloc_witness :
  model_value (World := Demo.world) (cleanval Demo.zero_node) = 0 /\
  exists regs' bindata,
    make_bindata (W := Demo.world) Demo.zero_node 0 = Ok bindata /\
    assign (W := Demo.world) Demo.entry_state (Ist_Put 48 (Iex_Const (Demo.u64 0)))
           Demo.zero_node 1
      = Ok (set_tags (tags Demo.entry_state ++ [(ALLOC, bindata)])
                     (set_regs regs' Demo.entry_state)).
Proof.
  split; [reflexivity|].
  apply (sp_write_appends_one_alloc (W := Demo.world) Demo.entry_state
           (Iex_Const (Demo.u64 0)) Demo.zero_node 1); reflexivity.
Defined.

(** ** The eligible functions *)

(** The list [get_real_functions] returns: the functions that pass the
    filters, in order; the name of a simulated procedure on the head node
    plays no part in it. *)
Lemma get_real_functions_spec `{W : World} :
  (forall kv, kv ∈ functions -> passes_filters kv = true -> is_Some (get_any_node kv.1)) ->
  get_real_functions = Ok (map snd (filter (fun kv => passes_filters kv = true) functions)).
Proof.
  intros Hnode0. unfold get_real_functions.
  enough (Hgen : forall l out,
             (forall kv, kv ∈ l -> passes_filters kv = true -> is_Some (get_any_node kv.1)) ->
             foldM (get_real_functions_body mips_do_not_touch) l out
             = Ok (out ++ map snd (filter (fun kv => passes_filters kv = true) l))).
  { by rewrite (Hgen functions [] Hnode0). }
  clear Hnode0.
  induction l as [|[funcaddr func] l IH]; intros out Hnode.
  - simpl. by rewrite app_nil_r.
  - rewrite filter_cons. cbn [foldM].
    assert (Hl : forall kv, kv ∈ l -> passes_filters kv = true -> is_Some (get_any_node kv.1)).
    { intros kv Hin. apply Hnode. by apply list_elem_of_further. }
    specialize (Hnode (funcaddr, func) (list_elem_of_here _ _)).
    destruct (decide (passes_filters (funcaddr, func) = true)) as [Hp|Hp].
    + assert (Hstep : get_real_functions_body mips_do_not_touch out (funcaddr, func)
                      = Ok (out ++ [func])).
      { destruct (Hnode Hp) as [node Hn]. cbn in Hn.
        unfold passes_filters in Hp.
        repeat (apply andb_prop in Hp as [Hp ?]).
        repeat match goal with
               | H : negb ?b = true |- _ => apply negb_true_iff in H
               end.
        unfold get_real_functions_body.
        repeat match goal with
               | H : ?b = false |- context [if ?b then _ else _] => rewrite H
               end.
        rewrite Hn. by destruct (bool_decide (simprocedure_name node ≠ None)). }
      rewrite Hstep. cbn [mbind res_bind]. rewrite IH by exact Hl.
      cbn [map snd]. by rewrite <- app_assoc.
    + assert (Hstep : get_real_functions_body mips_do_not_touch out (funcaddr, func) = Ok out).
      { apply not_true_is_false in Hp. unfold passes_filters in Hp.
        unfold get_real_functions_body.
        repeat match goal with
               | |- context [if ?b then Ok out else _] => destruct b; [reflexivity|]
               end.
        discriminate Hp. }
      rewrite Hstep. cbn [mbind res_bind]. by apply IH.
Qed.

(** C9: a function whose head block is a simulated procedure, and which
    passes the other filters, is in the list [get_real_functions]
    returns; the claim has it excluded. *)
Theorem simulated_head_function_is_kept :
  (simprocedure_name <$> get_any_node (World := Demo.world) 16384) = Some (Some "puts") /\
  exists out,
    get_real_functions (W := Demo.world) = Ok out /\
    Demo.fn 16384 "simulated_head" ∈ out.
Proof.
  split; [reflexivity|].
  eexists. split; [vm_compute; reflexivity|].
  apply list_elem_of_In. simpl. tauto.
Qed.

(** ** The call case at the end of a block *)



(** ** Failures of the traversal *)

Lemma foldM_raise {A S : Type} (body : S -> A -> res S) (pre post : list A) (x : A)
    (s s1 : S) (e : exc) :
  foldM body pre s = Ok s1 -> body s1 x = Raise e -> foldM body (pre ++ x :: post) s = Raise e.
Proof.
  revert s. induction pre as [|y pre IH]; intros s; simpl.
  - intros [= ->] Hx. by rewrite Hx.
  - destruct (body s y) as [s'|e'] eqn:Hy; simpl; [|discriminate].
    intros Hpre Hx. by apply IH.
Qed.

Section IRExpr_induction.
Variable P : IRExpr -> Prop.
Hypothesis HGet : forall offset ty, P (Iex_Get offset ty).
Hypothesis HRdTmp : forall tmp ty, P (Iex_RdTmp tmp ty).
Hypothesis HLoad : forall ty a, P a -> P (Iex_Load ty a).
Hypothesis HConst : forall con, P (Iex_Const con).
Hypothesis HIco : forall con, P (Ico con).
Hypothesis HITE : forall c t f ty, P c -> P t -> P f -> P (Iex_ITE c t f ty).
Hypothesis HOp : forall op args ty, Forall P args -> P (Iex_Op op args ty).
Hypothesis HCCall : forall args ty, Forall P args -> P (Iex_CCall args ty).
Hypothesis HGetI : forall ty, P (Iex_GetI ty).
Hypothesis HOther : forall tag ty, P (Iex_Other tag ty).

Fixpoint IRExpr_nested_ind (e : IRExpr) : P e :=
  let fix all (l : list IRExpr) : Forall P l :=
    match l with
    | [] => @List.Forall_nil _ P
    | x :: l' => @List.Forall_cons _ P x l' (IRExpr_nested_ind x) (all l')
    end in
  match e with
  | Iex_Get offset ty => HGet offset ty
  | Iex_RdTmp tmp ty => HRdTmp tmp ty
  | Iex_Load ty a => HLoad ty a (IRExpr_nested_ind a)
  | Iex_Const con => HConst con
  | Ico con => HIco con
  | Iex_ITE c t f ty => HITE c t f ty (IRExpr_nested_ind c) (IRExpr_nested_ind t) (IRExpr_nested_ind f)
  | Iex_Op op args ty => HOp op args ty (all args)
  | Iex_CCall args ty => HCCall args ty (all args)
  | Iex_GetI ty => HGetI ty
  | Iex_Other tag ty => HOther tag ty
  end.
End IRExpr_induction.


Section Traversal.
Context `{W : World}.

Lemma reaches_raise (funcaddr : Z) (ls ls' : LoopState) (k fuel : nat) (e : exc) :
  reaches funcaddr ls ls' k -> loop_body funcaddr ls' = Raise e -> (k < fuel)%nat ->
  analyze_loop fuel funcaddr ls = Some (Raise e).
Proof.
  intros Hr. revert fuel. induction Hr as [ls|ls ls' ls'' k Hstep Hr IH]; intros fuel Hbody Hk.
  - destruct fuel as [|fuel]; [lia|]. simpl. by rewrite Hbody.
  - destruct fuel as [|fuel]; [lia|]. simpl. rewrite Hstep. apply IH; [done|lia].
Qed.

Lemma statement_raise_fails_analysis (n : nat) (funcaddr a : Z) (st : Struct)
    (bs : BlockState) (s : Z * IRStmt) (k fuel : nat) (e : exc) :
  statement_reached n funcaddr a st bs s k ->
  exec_stmt st a bs s = Raise e ->
  (k < fuel)%nat ->
  analyze_stack fuel n funcaddr = Some (Raise e).
Proof.
  intros Hs Hraise Hk.
  destruct Hs as [ls k blockstate queue' block pre post a bs1 cache1 insnblock
                  spre spost s bs2 Hreach Hq Hhead Hlift Hmarks Hpre Hfn Hinsn Hstmts Hspre].
  unfold analyze_stack. eapply reaches_raise; [exact Hreach| |exact Hk].
  unfold loop_body. rewrite Hq.
  rewrite bool_decide_eq_false_2 by exact Hhead.
  rewrite Hlift. unfold analyze_block. rewrite Hmarks. cbn [mbind res_bind].
  rewrite (foldM_raise _ pre post a _ (bs1, cache1) e Hpre); [reflexivity|].
  unfold exec_insn. rewrite Hfn, Hinsn. cbn [mbind res_bind]. rewrite Hstmts.
  by rewrite (foldM_raise _ spre spost s _ bs2 e Hspre Hraise).
Qed.

Lemma caught_failure_skips_function (fuel n : nat) (func : Function) (rest : list Function)
    (acc : Results) (e : exc) :
  analyze_stack fuel n (func_addr func) = Some (Raise e) ->
  isinstance_FidgetAnalysisFailure e = true ->
  analyze_functions fuel (func :: rest) n acc = analyze_functions fuel rest (S n) acc.
Proof. intros H He. simpl. by rewrite H, He. Qed.

(** An exception the handler does not catch leaves the driver's loop. *)
Lemma uncaught_failure_aborts_run (fuel n : nat) (func : Function) (rest : list Function)
    (acc : Results) (e : exc) :
  analyze_stack fuel n (func_addr func) = Some (Raise e) ->
  isinstance_FidgetAnalysisFailure e = false ->
  analyze_functions fuel (func :: rest) n acc = Some (Raise e).
Proof. intros H He. simpl. by rewrite H, He. Qed.

Lemma analyze_functions_frames (fuel : nat) (l : list Function) :
  forall (n : nat) (acc r : Results) (a : Z),
    analyze_functions fuel l n acc = Some (Ok r) ->
    stack_frames acc !! a = None ->
    a ∉ map func_addr l ->
    stack_frames r !! a = None.
Proof.
  induction l as [|f l IH]; intros n acc r a; simpl.
  - by intros [= <-].
  - intros Hrun Hacc Hnotin.
    apply not_elem_of_cons in Hnotin as [Hne Hnotin].
    destruct (analyze_stack fuel n (func_addr f)) as [[st|e]|]; [| |discriminate].
    + eapply IH; [exact Hrun| |exact Hnotin].
      simpl. by rewrite lookup_insert_ne.
    + destruct (isinstance_FidgetAnalysisFailure e); [|discriminate].
      by eapply IH.
Qed.
Lemma finish_op_cls self op args node : finish_op self op args = Ok node -> cls node = ClsSmart.
Proof.
  unfold finish_op.
  repeat match goal with
         | |- context [match ?x with _ => _ end] => destruct x
         end; intros H; inversion H; reflexivity.
Qed.

Lemma make_const_cls self con a p node : make_const self con a p = Ok node -> cls node = ClsSmart.
Proof.
  unfold make_const.
  destruct (has_F _); [destruct (_ =? 32); [|destruct (_ =? 64)]|];
    try discriminate;
    (destruct (symbol_name a p) as [[a0 idx]|]; cbn; intros H; inversion H; reflexivity).
Qed.

Lemma finish_ite_cls self f t c : cls self = ClsSmart -> cls (finish_ite self f t c) = ClsSmart.
Proof.
  intros H. unfold finish_ite.
  destruct (truthy _), (negb _); exact H.
Qed.

Lemma SmartExpression_cls bs v a p e bs' :
  SmartExpression bs v a p = Ok (e, bs') -> cls e = ClsSmart.
Proof.
  destruct v; cbn [SmartExpression]; intros H.
  - destruct (get_reg _ _ _) as [[r b]|]; cbn in H; [|discriminate]. by injection H as <- _.
  - destruct (get_tmp _ _) as [r|]; cbn in H; [|discriminate]. by injection H as <- _.
  - destruct (SmartExpression _ _ _ _) as [[r b]|]; cbn in H; [|discriminate].
    destruct (access _ _ _) as [b'|]; cbn in H; [|discriminate]. by injection H as <- _.
  - destruct (make_const _ _ _ _) as [r|] eqn:Hc; cbn in H; [|discriminate].
    injection H as <- _. by eapply make_const_cls.
  - destruct (make_const _ _ _ _) as [r|] eqn:Hc; cbn in H; [|discriminate].
    injection H as <- _. by eapply make_const_cls.
  - destruct (SmartExpression _ v3 _ _) as [[r1 b1]|]; cbn in H; [|discriminate].
    destruct (SmartExpression _ v2 _ _) as [[r2 b2]|]; cbn in H; [|discriminate].
    destruct (SmartExpression _ v1 _ _) as [[r3 b3]|]; cbn in H; [|discriminate].
    injection H as <- _. by apply finish_ite_cls.
  - match type of H with (mbind _ ?m = _) => destruct m as [[ds b]|]; cbn in H; [|discriminate] end.
    destruct (finish_op _ _ _) as [r|] eqn:Hf; cbn in H; [|discriminate].
    injection H as <- _. by eapply finish_op_cls.
  - match type of H with (mbind _ ?m = _) => destruct m as [[ds b]|]; cbn in H; [|discriminate] end.
    by injection H as <- _.
  - by injection H as <- _.
  - by destruct a.
Qed.

Lemma same_frame_refl bs : same_frame bs bs.
Proof. by repeat split. Qed.

Lemma same_frame_trans a b c : same_frame a b -> same_frame b c -> same_frame a c.
Proof. unfold same_frame. intros (?&?&?&?) (?&?&?&?). repeat split; congruence. Qed.

Lemma get_reg_frame bs r ty v bs' : get_reg bs r ty = Ok (v, bs') -> same_frame bs bs'.
Proof.
  unfold get_reg. destruct (regs bs !! r) as [x|].
  - destruct (has_F (e_type x)).
    + destruct (negb _); intros [= _ <-]; by repeat split.
    + destruct (truncate x ty); cbn; intros [= _ <-]; by repeat split.
  - destruct (truncate _ ty); cbn; intros [= _ <-]; by repeat split.
Qed.

Lemma access_frame bs e t bs' : access bs e t = Ok bs' -> same_frame bs bs'.
Proof.
  unfold access. destruct (negb _); [intros [= <-]; apply same_frame_refl|].
  destruct (make_bindata e t); cbn; intros [= <-]; by repeat split.
Qed.

Lemma SmartExpression_frame v : forall bs a p e bs',
  SmartExpression bs v a p = Ok (e, bs') -> same_frame bs bs'.
Proof.
  induction v using IRExpr_nested_ind; intros bs a p e bs'; cbn [SmartExpression]; intros Hrun.
  - destruct (get_reg _ _ _) as [[r b]|] eqn:Hg; cbn in Hrun; [|discriminate].
    injection Hrun as _ <-. by eapply get_reg_frame.
  - destruct (get_tmp _ _) as [r|]; cbn in Hrun; [|discriminate].
    injection Hrun as _ <-. apply same_frame_refl.
  - destruct (SmartExpression _ _ _ _) as [[r b]|] eqn:Hs; cbn in Hrun; [|discriminate].
    destruct (access _ _ _) as [b'|] eqn:Ha; cbn in Hrun; [|discriminate].
    injection Hrun as _ <-. eapply same_frame_trans; [by eapply IHv|by eapply access_frame].
  - destruct (make_const _ _ _ _) as [r|]; cbn in Hrun; [|discriminate].
    injection Hrun as _ <-. apply same_frame_refl.
  - destruct (make_const _ _ _ _) as [r|]; cbn in Hrun; [|discriminate].
    injection Hrun as _ <-. apply same_frame_refl.
  - destruct (SmartExpression _ v3 _ _) as [[r1 b1]|] eqn:H1; cbn in Hrun; [|discriminate].
    destruct (SmartExpression _ v2 _ _) as [[r2 b2]|] eqn:H2; cbn in Hrun; [|discriminate].
    destruct (SmartExpression _ v1 _ _) as [[r3 b3]|] eqn:H3; cbn in Hrun; [|discriminate].
    injection Hrun as _ <-.
    eapply same_frame_trans; [by eapply IHv3|].
    eapply same_frame_trans; [by eapply IHv2|by eapply IHv1].
  - match type of Hrun with (mbind _ ?m = _) => destruct m as [[ds b]|] eqn:Hb; cbn in Hrun; [|discriminate] end.
    destruct (finish_op _ _ _) as [r|]; cbn in Hrun; [|discriminate].
    injection Hrun as _ <-.
    clear -Hb H. revert bs ds b Hb. generalize 0. 
    induction H as [|x l Hx Hl IH]; intros i bs ds b Hb.
    + injection Hb as _ <-. apply same_frame_refl.
    + destruct (SmartExpression bs x a _) as [[r1 b1]|] eqn:H1; cbn in Hb; [|discriminate].
      match type of Hb with (mbind _ ?m = _) => destruct m as [[ds2 b2]|] eqn:Hb2; cbn in Hb; [|discriminate] end.
      injection Hb as _ <-.
      eapply same_frame_trans; [by eapply Hx|by eapply IH].
  - match type of Hrun with (mbind _ ?m = _) => destruct m as [[ds b]|] eqn:Hb; cbn in Hrun; [|discriminate] end.
    injection Hrun as _ <-.
    clear -Hb H. revert bs ds b Hb. generalize 0. 
    induction H as [|x l Hx Hl IH]; intros i bs ds b Hb.
    + injection Hb as _ <-. apply same_frame_refl.
    + destruct (SmartExpression bs x a _) as [[r1 b1]|] eqn:H1; cbn in Hb; [|discriminate].
      match type of Hb with (mbind _ ?m = _) => destruct m as [[ds2 b2]|] eqn:Hb2; cbn in Hb; [|discriminate] end.
      injection Hb as _ <-.
      eapply same_frame_trans; [by eapply Hx|by eapply IH].
  - injection Hrun as _ <-. apply same_frame_refl.
  - by destruct a.
Qed.

End Traversal.

(** ** A non-constant stack adjustment, and constructs without a handler *)

Section Failures.
Context `{W : World}.

Lemma put_sp_nonconcrete_raises (st : Struct) (a : Z) (bs bs' : BlockState) (idx : Z)
    (data : IRExpr) (e : Expr) :
  SmartExpression bs data (Some a) [PStr "statements"; PInt idx; PStr "data"] = Ok (e, bs') ->
  concrete (taints e) = false ->
  str_contains "stack" (taint_region bs) = true ->
  exec_stmt st a bs (idx, Ist_Put (sp_offset arch) data) = Raise FidgetAnalysisFailure.
Proof.
  intros He Hc Hstack.
  pose proof (SmartExpression_cls _ _ _ _ _ _ He) as Hcls.
  destruct (SmartExpression_frame _ _ _ _ _ _ He) as (_ & Hregion & _).
  unfold exec_stmt. cbn [app]. rewrite He. cbn [mbind res_bind]. unfold assign.
  assert (exists regs',
    (if has_F (e_type e) || (arch_bits arch <? e_size e)
     then Ok (<[sp_offset arch := e]> (regs bs'))
     else v ← overwrite e
                (default (ConstExpression_default (Ity_I (arch_bits arch)))
                         (regs bs' !! sp_offset arch));
          Ok (<[sp_offset arch := v]> (regs bs'))) = Ok regs') as [regs' ->].
  { destruct (_ || _); [by eexists|].
    destruct (overwrite_smart e
                (default (ConstExpression_default (Ity_I (arch_bits arch)))
                         (regs bs' !! sp_offset arch)) Hcls) as [v ->].
    by eexists. }
  cbn [mbind res_bind taint_region set_regs].
  by rewrite Z.eqb_refl, Hregion, Hstack, Hc.
Qed.

(** C3: when the traversal of a function reaches a statement that writes
    the stack pointer, in a stack region, and the written expression
    builds a node that is not concrete, then [analyze_stack] raises
    [FidgetAnalysisFailure]; the driver's loop catches it and goes on with
    the remaining functions from the same results, so the function gets no
    entry in the result map. *)
Theorem nonconstant_sp_fails_function (fuel n k : nat) (func : Function) (rest : list Function)
    (acc : Results) (a idx : Z) (st : Struct) (bs bs' : BlockState) (data : IRExpr) (e : Expr) :
  statement_reached n (func_addr func) a st bs (idx, Ist_Put (sp_offset arch) data) k ->
  str_contains "stack" (taint_region bs) = true ->
  SmartExpression bs data (Some a) [PStr "statements"; PInt idx; PStr "data"] = Ok (e, bs') ->
  concrete (taints e) = false ->
  (k < fuel)%nat ->
  analyze_stack fuel n (func_addr func) = Some (Raise FidgetAnalysisFailure) /\
  analyze_functions fuel (func :: rest) n acc = analyze_functions fuel rest (S n) acc /\
  (stack_frames acc !! func_addr func = None ->
   func_addr func ∉ map func_addr rest ->
   forall r, analyze_functions fuel (func :: rest) n acc = Some (Ok r) ->
             stack_frames r !! func_addr func = None).
Proof.
  intros Hreached Hstack He Hc Hk.
  assert (Hfail : analyze_stack fuel n (func_addr func) = Some (Raise FidgetAnalysisFailure)).
  { eapply statement_raise_fails_analysis; [exact Hreached| |exact Hk].
    by eapply put_sp_nonconcrete_raises. }
  assert (Hskip : analyze_functions fuel (func :: rest) n acc
                  = analyze_functions fuel rest (S n) acc).
  { by eapply caught_failure_skips_function. }
  split; [exact Hfail|]. split; [exact Hskip|].
  intros Hacc Hnotin r Hr. rewrite Hskip in Hr.
  by eapply analyze_functions_frames.
Qed.

Lemma unknown_statement_raises (st : Struct) (a : Z) (bs : BlockState) (idx : Z) (tag : string) :
  exec_stmt st a bs (idx, Ist_Other tag) = Raise (FidgetUnsupportedError "Unknown vex instruction???").
Proof. reflexivity. Qed.

Lemma unknown_expression_raises (st : Struct) (a : Z) (bs : BlockState) (idx offset : Z)
    (tag : string) (ty : IRType) :
  exec_stmt st a bs (idx, Ist_Put offset (Iex_Other tag ty))
    = Raise (FidgetUnsupportedError "Unknown expression tag").
Proof. reflexivity. Qed.

(** C8: when the traversal of a function reaches a statement whose
    interpretation raises [FidgetUnsupportedError] (a statement or an
    expression the engine has no case for), [analyze_stack] raises it; the
    driver's handler, with the exception classes as the spec has them,
    catches it, goes on with the remaining functions from the same
    results, and the function gets no entry in the result map. *)
Theorem unsupported_construct_skips_function (fuel n k : nat) (func : Function)
    (rest : list Function) (acc : Results) (a : Z) (st : Struct) (bs : BlockState)
    (s : Z * IRStmt) (msg : string) :
  statement_reached n (func_addr func) a st bs s k ->
  exec_stmt st a bs s = Raise (FidgetUnsupportedError msg) ->
  (k < fuel)%nat ->
  analyze_stack fuel n (func_addr func) = Some (Raise (FidgetUnsupportedError msg)) /\
  analyze_functions fuel (func :: rest) n acc = analyze_functions fuel rest (S n) acc /\
  (stack_frames acc !! func_addr func = None ->
   func_addr func ∉ map func_addr rest ->
   forall r, analyze_functions fuel (func :: rest) n acc = Some (Ok r) ->
             stack_frames r !! func_addr func = None).
Proof.
  intros Hreached Hraise Hk.
  assert (Hfail : analyze_stack fuel n (func_addr func)
                  = Some (Raise (FidgetUnsupportedError msg))).
  { by eapply statement_raise_fails_analysis. }
  assert (Hskip : analyze_functions fuel (func :: rest) n acc
                  = analyze_functions fuel rest (S n) acc).
  { by eapply caught_failure_skips_function. }
  split; [exact Hfail|]. split; [exact Hskip|].
  intros Hacc Hnotin r Hr. rewrite Hskip in Hr.
  by eapply analyze_functions_frames.
Qed.

End Failures.

Lemma demo_put_reached :
  statement_reached (W := Demo.world) 0 4096 4096 {| name := "stack_0"; events := [] |}
    (set_tempstore (Some {| tyenv := []; storage := ∅ |}) Demo.entry_state)
    (1, Ist_Put 48 (Iex_Get Demo.rax (Ity_I 64))) 0.
Proof.
  eapply (StatementReached (W := Demo.world) 0 4096
            (initial_loop_state (W := Demo.world) 0 4096) 0 Demo.entry_state []
            Demo.alloca_insn [] [] 4096 Demo.entry_state ∅ Demo.alloca_insn
            [] [] (1, Ist_Put 48 (Iex_Get Demo.rax (Ity_I 64)))).
  - constructor.
  - reflexivity.
  - apply not_elem_of_empty.
  - reflexivity.
  - reflexivity.
  - reflexivity.
  - reflexivity.
  - reflexivity.
  - reflexivity.
  - reflexivity.
Qed.

Lemma nonconstant_sp_fails_function_witness :
  analyze_stack (W := Demo.world) 5 0 4096 = Some (Raise FidgetAnalysisFailure) /\
  analyze_functions (W := Demo.world) 5
      [Demo.fn 4096 "moves_sp"; Demo.fn 16384 "simulated_head"] 0 no_results
    = analyze_functions (W := Demo.world) 5 [Demo.fn 16384 "simulated_head"] 1 no_results /\
  (stack_frames no_results !! 4096 = None ->
   4096 ∉ map func_addr [Demo.fn 16384 "simulated_head"] ->
   forall r,
     analyze_functions (W := Demo.world) 5
       [Demo.fn 4096 "moves_sp"; Demo.fn 16384 "simulated_head"] 0 no_results = Some (Ok r) ->
     stack_frames r !! 4096 = None).
Proof.
  eapply (nonconstant_sp_fails_function (W := Demo.world) 5 0 0 (Demo.fn 4096 "moves_sp")
            [Demo.fn 16384 "simulated_head"] no_results 4096 1 _ _ _
            (Iex_Get Demo.rax (Ity_I 64)) _ demo_put_reached).
  - reflexivity.
  - vm_compute. reflexivity.
  - reflexivity.
  - lia.
Defined.

Lemma demo_unknown_reached :
  statement_reached (W := Demo.world) 0 8192 8192 {| name := "stack_0"; events := [] |}
    (set_tempstore (Some {| tyenv := []; storage := ∅ |})
       (match queue (initial_loop_state (W := Demo.world) 0 8192) with
        | bs :: _ => bs
        | [] => Demo.entry_state
        end))
    (1, Ist_Other "Ist_LLSC") 0.
Proof.
  eapply (StatementReached (W := Demo.world) 0 8192
            (initial_loop_state (W := Demo.world) 0 8192) 0 _ []
            Demo.unknown_insn [] [] 8192 _ ∅ Demo.unknown_insn
            [] [] (1, Ist_Other "Ist_LLSC")).
  - constructor.
  - reflexivity.
  - apply not_elem_of_empty.
  - reflexivity.
  - reflexivity.
  - reflexivity.
  - reflexivity.
  - reflexivity.
  - reflexivity.
  - reflexivity.
Qed.

Lemma unsupported_construct_skips_function_witness :
  analyze_stack (W := Demo.world) 5 0 8192
    = Some (Raise (FidgetUnsupportedError "Unknown vex instruction???")) /\
  analyze_functions (W := Demo.world) 5
      [Demo.fn 8192 "unknown_stmt"; Demo.fn 16384 "simulated_head"] 0 no_results
    = analyze_functions (W := Demo.world) 5 [Demo.fn 16384 "simulated_head"] 1 no_results /\
  (stack_frames no_results !! 8192 = None ->
   8192 ∉ map func_addr [Demo.fn 16384 "simulated_head"] ->
   forall r,
     analyze_functions (W := Demo.world) 5
       [Demo.fn 8192 "unknown_stmt"; Demo.fn 16384 "simulated_head"] 0 no_results = Some (Ok r) ->
     stack_frames r !! 8192 = None).
Proof.
  eapply (unsupported_construct_skips_function (W := Demo.world) 5 0 0
            (Demo.fn 8192 "unknown_stmt") [Demo.fn 16384 "simulated_head"] no_results
            8192 _ _ (1, Ist_Other "Ist_LLSC") _ demo_unknown_reached).
  - reflexivity.
  - lia.
Defined.

(** Scenario C of the spec, run: the function that moves the stack pointer
    by a register has no frame, the function after it has one. *)
Example scenario_C :
  exists r,
    StructureAnalysis (W := Demo.world) 5
      (Some [Demo.fn 4096 "moves_sp"; Demo.fn 16384 "simulated_head"]) false = Some (Ok r) /\
    stack_frames r !! 4096 = None /\
    stack_frames r !! 16384 = Some "stack_1".
Proof. eexists. split; [vm_compute; reflexivity|]. split; reflexivity. Qed.

(** ** Guarded loads *)

Section GuardedLoad.
Context `{W : World}.


End GuardedLoad.


(** * Further properties of the engine *)

(** How a block state may change while nodes are built and statements
    are interpreted: the address and the region stay, the tag log is
    extended by tags that satisfy [P], no register is removed, and the
    type environment of the temporaries stays. *)
Definition grows (P : Tag -> Prop) (bs bs' : BlockState) : Prop :=
  addr bs' = addr bs /\ taint_region bs' = taint_region bs /\
  (exists new, tags bs' = tags bs ++ new /\ Forall P new) /\
  (forall r, is_Some (regs bs !! r) -> is_Some (regs bs' !! r)) /\
  (tyenv <$> tempstore bs') = (tyenv <$> tempstore bs).

(** An ACCESS tag of type READ. *)
Definition is_read_tag (t : Tag) : Prop :=
  t.1 = ACCESS /\ bdc_flags t.2 = AccessType.READ.

(** What every state of the traversal's loop satisfies: the frame keeps
    its name, and every queued block state carries it as its region. *)
Definition traversal_invariant (nm : string) (ls : LoopState) : Prop :=
  name (struct ls) = nm /\ Forall (fun bs => taint_region bs = nm) (queue ls).

(** The driver's maps agree: every frame name in the address map is a key
    of the structures map, at a frame of that name. *)
Definition frames_exist (r : Results) : Prop :=
  forall a nm, stack_frames r !! a = Some nm ->
               exists st, structures r !! nm = Some st /\ name st = nm.

(** A tag of any kind. *)
Definition any_tag (t : Tag) : Prop := True.

(** What [shield_constants] makes of an operand: a literal root becomes a
    plain constant of the same clean value, type and concreteness; any
    other operand stays. *)
Definition shielded (a d : Expr) : Prop :=
  if rootval a
  then d = ConstExpression (cleanval a) (e_type a) (concrete (taints a))
  else d = a.

Section Effects.
Context `{W : World}.

(** The tag [access] appends for a node: an ACCESS of the node's patch
    locations with the given access type. *)
Definition access_tag (e : Expr) (access_type : Z) : Tag :=
  (ACCESS,
   {| bdc_addr := e_addr e;
      bdc_signed := model_signed (cleanval e);
      bdc_dirtyval := dirtyval e;
      bdc_flags := access_type;
      bdc_dependencies := map (fun '(d, b) => (b, d)) (make_bindata_internal e) |}).

(** Whether a node's pointer taint is the block's region. *)
Definition in_scope (bs : BlockState) (e : Expr) : bool :=
  PointerTaint_eqb (pointer (taints e)) (PRegion (taint_region bs)).

(** The state after [access], when it does not raise. *)
Definition accessed (bs : BlockState) (e : Expr) (access_type : Z) : BlockState :=
  if in_scope bs e then set_tags (tags bs ++ [access_tag e access_type]) bs else bs.

(** The state after the memory update of a store. *)
Definition after_store (bs : BlockState) (addr_expr value : Expr) : BlockState :=
  match pointer (taints addr_expr) with
  | PRegion region =>
      if truthy (PRegion region)
      then set_mem_regions
             (<[region := mem_store (cleanval addr_expr) value (region_mem bs region)]>
                (mem_regions bs)) bs
      else bs
  | PFalse => bs
  end.

End Effects.

(** The small world again, changed in three places: the control-flow
    graph has no node for the one function the function manager knows (at
    4096); the block at 20480 runs on into that function; the block at
    24576 ends in a jump kind the traversal has no case for. *)
Module Stray.

Definition falls_through : IRSB :=
  {| statements := [Ist_IMark 20480 0; Ist_IMark 4096 0];
     jumpkind := "Ijk_Boring";
     tyenv_types := [] |}.

Definition falls_through_insn : IRSB :=
  {| statements := [Ist_IMark 20480 0]; jumpkind := "Ijk_Boring"; tyenv_types := [] |}.

Definition yields : IRSB :=
  {| statements := [Ist_IMark 24576 0]; jumpkind := "Ijk_Yield"; tyenv_types := [] |}.

Definition world : World :=
  {| make_default_value := make_default_value (World := Demo.world);
     ZExtTo := ZExtTo (World := Demo.world);
     operations := operations (World := Demo.world);
     model_value := model_value (World := Demo.world);
     model_signed := model_signed (World := Demo.world);
     value_found := value_found (World := Demo.world);
     arch := Demo.amd64;
     entry := 256;
     is_hooked := fun _ => false;
     loader_memory_contains := fun _ => false;
     loader_memory_bytes := fun _ _ => "";
     reversed_repr := reversed_repr (World := Demo.world);
     find_segment_containing := fun _ => Some 0;
     sections_map_has := fun _ => true;
     find_section_containing := find_section_containing (World := Demo.world);
     plt_values := [];
     factory_block := fun a num_inst =>
       if a =? 20480 then
         match num_inst with
         | None => Ok falls_through
         | Some _ => Ok falls_through_insn
         end
       else if a =? 24576 then Ok yields
       else factory_block (World := Demo.world) a num_inst;
     get_all_nodes := fun _ => [];
     get_any_node := fun _ => None;
     get_successors_and_jumpkind := fun _ _ => [];
     functions := [(4096, Demo.fn 4096 "moves_sp")];
     struct_name := struct_name (World := Demo.world) |}.

End Stray.

(** ** Temporaries and registers *)

Section Storage.
Context `{W : World}.

(** X1: a temporary that was written can be read back.  When [TempStore.write]
    does not raise, the type environment is unchanged and declares the
    temporary at the value's type, [TempStore.read] of the temporary
    returns the value with both of its values zero-extended to the
    declared width, and every other temporary reads as before. *)
Theorem TempStore_write_then_read (t t' : TempStore) (tmp : N) (v : Expr) :
  TempStore_write t tmp v = Ok t' ->
  tyenv t' = tyenv t /\
  tyenv t !! N.to_nat tmp = Some (e_type v) /\
  TempStore_read t' tmp =
    Ok (with_vals (ZExtTo (extract_int (e_type v)) (cleanval v))
                  (ZExtTo (extract_int (e_type v)) (dirtyval v)) v) /\
  forall tmp', tmp' <> tmp -> TempStore_read t' tmp' = TempStore_read t tmp'.
Proof.
  unfold TempStore_write, TempStore_size_of.
  destruct (tyenv t !! N.to_nat tmp) as [ty|] eqn:Hty; [|discriminate].
  destruct (IRType_eqb (e_type v) ty) eqn:Heq; [|discriminate].
  apply IRType_eqb_eq in Heq. subst ty. cbn. intros [= <-]. cbn.
  split; [reflexivity|]. split; [reflexivity|].
  unfold TempStore_read. cbn. split.
  - by rewrite lookup_insert_eq.
  - intros tmp' Hne. by rewrite lookup_insert_ne.
Qed.

(** X2: what [truncate] returns when it does not raise.  At the node's own
    type, or at a type wider than the node, it is the node itself.
    Otherwise the node is not a float, the result has the requested type
    and the node's class, it carries no region taint, it keeps the
    concreteness, it is not a root, and its values are the low bits of the
    node's values at the requested width (a constant node's dirty value
    is taken from its clean value). *)
Theorem truncate_narrows_and_drops_region (e r : Expr) (ty : IRType) :
  truncate e ty = Ok r ->
  (r = e /\ (ty = e_type e \/ e_size e < extract_int ty)) \/
  (ty <> e_type e /\ extract_int ty <= e_size e /\ has_F (e_type e) = false /\
   e_type r = ty /\ cls r = cls e /\
   truthy (pointer (taints r)) = false /\
   concrete (taints r) = concrete (taints e) /\
   rootval r = false /\
   forall rho,
     bv_eval rho (cleanval r) = bv_eval rho (cleanval e) mod 2 ^ extract_int ty /\
     bv_eval rho (dirtyval r) =
       bv_eval rho (match cls e with ClsSmart => dirtyval e | ClsConst => cleanval e end)
       mod 2 ^ extract_int ty).
Proof.
  unfold truncate.
  destruct (IRType_eqb ty (e_type e)) eqn:Heq.
  { apply IRType_eqb_eq in Heq. intros [= <-]. left. split; [done|by left]. }
  destruct (has_F (e_type e)); [discriminate|].
  destruct (Z.ltb_spec (e_size e) (extract_int ty)).
  { intros [= <-]. left. split; [done|by right]. }
  assert (ty <> e_type e).
  { intros ->. by rewrite IRType_eqb_refl in Heq. }
  assert (Hlow : forall x, (x / 2 ^ 0) mod 2 ^ (extract_int ty - 1 - 0 + 1)
                           = x mod 2 ^ extract_int ty).
  { intros x. rewrite Z.pow_0_r, Z.div_1_r. f_equal. f_equal. lia. }
  destruct (cls e) eqn:Hc; intros [= <-]; right; cbn; repeat split; auto; apply Hlow.
Qed.

Lemma default_truncate (ty ty' : IRType) :
  has_F ty' = false \/ ty = ty' ->
  exists r, truncate (ConstExpression_default ty') ty = Ok r /\
            concrete (taints r) = false /\ pointer (taints r) = PFalse.
Proof.
  intros H. unfold truncate. cbn [e_type ConstExpression_default ConstExpression cls taints].
  destruct (IRType_eqb ty ty') eqn:Heq; [by eexists|].
  destruct H as [-> | ->]; [|by rewrite IRType_eqb_refl in Heq].
  destruct (_ <? _); by eexists.
Qed.

(** X3: [BlockState.get_reg] never raises.  After it the register is in
    the register map, every other register is as before, and the tag log,
    the address, the region, the temporaries and the memory are unchanged;
    a register that was not in the map reads as a value that is neither
    concrete nor region-tainted. *)
Theorem get_reg_never_raises (bs : BlockState) (regnum : Z) (ty : IRType) :
  ty <> Ity_INVALID ->
  exists v bs',
    get_reg bs regnum ty = Ok (v, bs') /\
    is_Some (regs bs' !! regnum) /\
    (forall r, r <> regnum -> regs bs' !! r = regs bs !! r) /\
    tags bs' = tags bs /\ same_frame bs bs' /\
    (regs bs !! regnum = None ->
     concrete (taints v) = false /\ pointer (taints v) = PFalse).
Proof.
  intros _. unfold get_reg. destruct (regs bs !! regnum) as [x|] eqn:Hx.
  - destruct (has_F (e_type x)) eqn:HF.
    + destruct (negb (IRType_eqb (e_type x) ty)).
      * eexists _, _. split; [reflexivity|]. cbn.
        rewrite lookup_insert_eq.
        repeat split; try done. intros r Hr. by rewrite lookup_insert_ne.
      * eexists _, _. split; [reflexivity|]. rewrite Hx. repeat split; done.
    + assert (exists r, truncate x ty = Ok r) as [r ->].
      { unfold truncate. rewrite HF. destruct (IRType_eqb _ _); [by eexists|].
        destruct (_ <? _); [by eexists|]. destruct (cls x); by eexists. }
      eexists _, _. split; [reflexivity|]. rewrite Hx. repeat split; done.
  - set (v0 := if has_F ty || (arch_bits arch <? extract_int ty)
               then ConstExpression_default ty
               else ConstExpression_default (Ity_I (arch_bits arch))).
    assert (exists r, truncate v0 ty = Ok r /\
                      concrete (taints r) = false /\ pointer (taints r) = PFalse)
      as (r & -> & Hc & Hp).
    { subst v0. destruct (_ || _); apply default_truncate; [by right|by left]. }
    eexists _, _. split; [reflexivity|]. cbn. rewrite lookup_insert_eq.
    repeat split; try done. intros r' Hr. by rewrite lookup_insert_ne.
Qed.

(** X4: reading a register is idempotent: a second [get_reg] of the same
    register at the same type, in the state the first one left, returns
    the same node and leaves that state as it is. *)
Theorem get_reg_twice (bs bs' : BlockState) (regnum : Z) (ty : IRType) (v : Expr) :
  get_reg bs regnum ty = Ok (v, bs') ->
  get_reg bs' regnum ty = Ok (v, bs').
Proof.
  unfold get_reg at 1. destruct (regs bs !! regnum) as [x|] eqn:Hx.
  - destruct (has_F (e_type x)) eqn:HF.
    + destruct (negb (IRType_eqb (e_type x) ty)) eqn:Hne.
      * intros [= <- <-]. unfold get_reg. cbn [regs set_regs].
        rewrite lookup_insert_eq. cbn [e_type ConstExpression_default ConstExpression].
        rewrite IRType_eqb_refl. cbn [negb].
        destruct (has_F ty); [reflexivity|].
        change ty with (e_type (ConstExpression_default ty)) at 2.
        by rewrite truncate_same_type.
      * intros [= <- <-]. unfold get_reg. by rewrite Hx, HF, Hne.
    + destruct (truncate x ty) as [r|] eqn:Hr; cbn; [|discriminate].
      intros [= <- <-]. unfold get_reg. by rewrite Hx, HF, Hr.
  - set (v0 := if has_F ty || (arch_bits arch <? extract_int ty)
               then ConstExpression_default ty
               else ConstExpression_default (Ity_I (arch_bits arch))).
    destruct (truncate v0 ty) as [r|] eqn:Hr; cbn; [|discriminate].
    intros [= <- <-]. unfold get_reg. cbn [regs set_regs]. rewrite lookup_insert_eq.
    destruct (has_F (e_type v0)) eqn:HF.
    + assert (e_type v0 = ty) as Hty.
      { subst v0. destruct (has_F ty || _) eqn:Hor; [reflexivity|]. discriminate HF. }
      rewrite Hty, IRType_eqb_refl. cbn [negb].
      rewrite <- Hty in Hr. rewrite truncate_same_type in Hr. by injection Hr as <-.
    + by rewrite Hr.
Qed.
End Storage.

Lemma TempStore_write_then_read_witness :
  exists t',
    TempStore_write (W := Demo.world) {| tyenv := [Ity_I 64]; storage := ∅ |} 0 Demo.zero_node
      = Ok t' /\
    TempStore_read t' 0 = Ok Demo.zero_node.
Proof.
  eexists. split; [reflexivity|].
  destruct (TempStore_write_then_read (W := Demo.world)
              {| tyenv := [Ity_I 64]; storage := ∅ |} _ 0 Demo.zero_node eq_refl)
    as (_ & _ & Hread & _).
  exact Hread.
Defined.

Lemma truncate_narrows_and_drops_region_witness :
  exists r,
    truncate Demo.precall_sp (Ity_I 32) = Ok r /\
    e_type r = Ity_I 32 /\ truthy (pointer (taints r)) = false /\
    concrete (taints r) = true.
Proof.
  eexists. split; [reflexivity|].
  destruct (truncate_narrows_and_drops_region Demo.precall_sp _ (Ity_I 32) eq_refl)
    as [[_ [H|H]] | (_ & _ & _ & Hty & _ & Hp & Hc & _)].
  - discriminate H.
  - vm_compute in H. discriminate H.
  - split; [exact Hty|]. split; [exact Hp|exact Hc].
Defined.

Lemma get_reg_never_raises_witness :
  exists v bs',
    get_reg (W := Demo.world) Demo.entry_state Demo.rax (Ity_I 32) = Ok (v, bs') /\
    is_Some (regs bs' !! Demo.rax) /\ tags bs' = tags Demo.entry_state /\
    concrete (taints v) = false.
Proof.
  destruct (get_reg_never_raises (W := Demo.world) Demo.entry_state Demo.rax (Ity_I 32))
    as (v & bs' & Hget & Hin & _ & Htags & _ & Hcold).
  - discriminate.
  - exists v, bs'. split; [exact Hget|]. split; [exact Hin|]. split; [exact Htags|].
    apply Hcold. reflexivity.
Defined.

Lemma get_reg_twice_witness :
  exists v bs',
    get_reg (W := Demo.world) Demo.entry_state Demo.rax (Ity_I 32) = Ok (v, bs') /\
    get_reg (W := Demo.world) bs' Demo.rax (Ity_I 32) = Ok (v, bs').
Proof.
  eexists _, _. split; [reflexivity|].
  apply (get_reg_twice (W := Demo.world) Demo.entry_state). reflexivity.
Defined.

(** ** What nodes and statements change *)

Section Growth.
Context `{W : World}.

Lemma grows_refl P bs : grows P bs bs.
Proof.
  repeat split; try done. exists []. by rewrite app_nil_r.
Qed.

Lemma grows_trans P a b c : grows P a b -> grows P b c -> grows P a c.
Proof.
  intros (?&?&(n1&Hn1&?)&Hr1&?) (?&?&(n2&Hn2&?)&Hr2&?).
  repeat split; try congruence.
  - exists (n1 ++ n2). rewrite Hn2, Hn1, app_assoc. split; [done|].
    by apply Forall_app.
  - intros r Hr. by apply Hr2, Hr1.
Qed.

Lemma grows_weaken (P Q : Tag -> Prop) bs bs' :
  (forall t, P t -> Q t) -> grows P bs bs' -> grows Q bs bs'.
Proof.
  intros HPQ (?&?&(n&Hn&HF)&?&?). repeat split; try done.
  exists n. split; [done|]. eapply Forall_impl; eauto.
Qed.

Lemma get_reg_grows P bs r ty v bs' : get_reg bs r ty = Ok (v, bs') -> grows P bs bs'.
Proof.
  assert (Hins : forall x, grows P bs (set_regs (<[r := x]> (regs bs)) bs)).
  { intros x. repeat split; try done.
    - exists []. by rewrite app_nil_r.
    - intros r' Hr'. cbn. destruct (decide (r = r')) as [->|Hne].
      + by rewrite lookup_insert_eq.
      + by rewrite lookup_insert_ne. }
  unfold get_reg. destruct (regs bs !! r) as [x|].
  - destruct (has_F (e_type x)).
    + destruct (negb _); intros [= _ <-]; [apply Hins|apply grows_refl].
    + destruct (truncate x ty); cbn; intros [= _ <-]. apply grows_refl.
  - destruct (truncate _ ty); cbn; intros [= _ <-]. apply Hins.
Qed.

Lemma access_grows bs e f bs' :
  access bs e f = Ok bs' -> grows (fun t => t.1 = ACCESS /\ bdc_flags t.2 = f) bs bs'.
Proof.
  unfold access. destruct (negb _); [intros [= <-]; apply grows_refl|].
  unfold make_bindata. destruct (cls e); [|discriminate]. cbn. intros [= <-].
  repeat split; try done. eexists. split; [reflexivity|]. by repeat constructor.
Qed.

(** Building a node preserves every relation on block states that is
    reflexive and transitive and that register reads and READ accesses
    satisfy. *)
Lemma SmartExpression_preserves (R : BlockState -> BlockState -> Prop) :
  (forall bs, R bs bs) ->
  (forall a b c, R a b -> R b c -> R a c) ->
  (forall bs r ty v bs', get_reg bs r ty = Ok (v, bs') -> R bs bs') ->
  (forall bs e bs', access bs e AccessType.READ = Ok bs' -> R bs bs') ->
  forall v bs a p e bs', SmartExpression bs v a p = Ok (e, bs') -> R bs bs'.
Proof.
  intros Hrefl Htrans Hget Hacc.
  induction v using IRExpr_nested_ind; intros bs a p e bs'; cbn [SmartExpression]; intros Hrun.
  - destruct (get_reg _ _ _) as [[r b]|] eqn:Hg; cbn in Hrun; [|discriminate].
    injection Hrun as _ <-. by eapply Hget.
  - destruct (get_tmp _ _) as [r|]; cbn in Hrun; [|discriminate].
    injection Hrun as _ <-. apply Hrefl.
  - destruct (SmartExpression _ _ _ _) as [[r b]|] eqn:Hs; cbn in Hrun; [|discriminate].
    destruct (access _ _ _) as [b'|] eqn:Ha; cbn in Hrun; [|discriminate].
    injection Hrun as _ <-. eapply Htrans; [by eapply IHv|by eapply Hacc].
  - destruct (make_const _ _ _ _) as [r|]; cbn in Hrun; [|discriminate].
    injection Hrun as _ <-. apply Hrefl.
  - destruct (make_const _ _ _ _) as [r|]; cbn in Hrun; [|discriminate].
    injection Hrun as _ <-. apply Hrefl.
  - destruct (SmartExpression _ v3 _ _) as [[r1 b1]|] eqn:H1; cbn in Hrun; [|discriminate].
    destruct (SmartExpression _ v2 _ _) as [[r2 b2]|] eqn:H2; cbn in Hrun; [|discriminate].
    destruct (SmartExpression _ v1 _ _) as [[r3 b3]|] eqn:H3; cbn in Hrun; [|discriminate].
    injection Hrun as _ <-.
    eapply Htrans; [by eapply IHv3|]. eapply Htrans; [by eapply IHv2|by eapply IHv1].
  - match type of Hrun with (mbind _ ?m = _) =>
      destruct m as [[ds b]|] eqn:Hb; cbn in Hrun; [|discriminate] end.
    destruct (finish_op _ _ _) as [r|]; cbn in Hrun; [|discriminate].
    injection Hrun as _ <-.
    clear -Hb H Hrefl Htrans. revert bs ds b Hb. generalize 0.
    induction H as [|x l Hx Hl IH]; intros i bs ds b Hb.
    + injection Hb as _ <-. apply Hrefl.
    + destruct (SmartExpression bs x a _) as [[r1 b1]|] eqn:H1; cbn in Hb; [|discriminate].
      match type of Hb with (mbind _ ?m = _) =>
        destruct m as [[ds2 b2]|] eqn:Hb2; cbn in Hb; [|discriminate] end.
      injection Hb as _ <-. eapply Htrans; [by eapply Hx|by eapply IH].
  - match type of Hrun with (mbind _ ?m = _) =>
      destruct m as [[ds b]|] eqn:Hb; cbn in Hrun; [|discriminate] end.
    injection Hrun as _ <-.
    clear -Hb H Hrefl Htrans. revert bs ds b Hb. generalize 0.
    induction H as [|x l Hx Hl IH]; intros i bs ds b Hb.
    + injection Hb as _ <-. apply Hrefl.
    + destruct (SmartExpression bs x a _) as [[r1 b1]|] eqn:H1; cbn in Hb; [|discriminate].
      match type of Hb with (mbind _ ?m = _) =>
        destruct m as [[ds2 b2]|] eqn:Hb2; cbn in Hb; [|discriminate] end.
      injection Hb as _ <-. eapply Htrans; [by eapply Hx|by eapply IH].
  - injection Hrun as _ <-. apply Hrefl.
  - by destruct a.
Qed.

Lemma SmartExpression_grows v bs a p e bs' :
  SmartExpression bs v a p = Ok (e, bs') -> grows is_read_tag bs bs'.
Proof.
  apply SmartExpression_preserves.
  - apply grows_refl.
  - apply grows_trans.
  - intros. by eapply get_reg_grows.
  - intros. by eapply access_grows.
Qed.

Lemma SmartExpression_appends v bs a p e bs' :
  SmartExpression bs v a p = Ok (e, bs') -> exists new, tags bs' = tags bs ++ new.
Proof.
  intros H. destruct (SmartExpression_grows _ _ _ _ _ _ H) as (_&_&(new&?&_)&_).
  by exists new.
Qed.

(** X5: building a node never writes.  When [SmartExpression] does not
    raise, the node is a smart expression, the block's address, region,
    temporaries and memory map are unchanged, the tag log is the old one
    followed by ACCESS tags of type READ only, and no register leaves the
    register map. *)
Theorem node_construction_only_appends_read_tags (v : IRExpr) (bs bs' : BlockState)
    (a : option Z) (p : list PathElem) (e : Expr) :
  SmartExpression bs v a p = Ok (e, bs') ->
  cls e = ClsSmart /\
  addr bs' = addr bs /\ taint_region bs' = taint_region bs /\
  tempstore bs' = tempstore bs /\ mem_regions bs' = mem_regions bs /\
  (exists new, tags bs' = tags bs ++ new /\
               Forall (fun t => t.1 = ACCESS /\ bdc_flags t.2 = AccessType.READ) new) /\
  (forall r, is_Some (regs bs !! r) -> is_Some (regs bs' !! r)).
Proof.
  intros H.
  destruct (SmartExpression_grows _ _ _ _ _ _ H) as (?&?&?&?&?).
  destruct (SmartExpression_frame _ _ _ _ _ _ H) as (?&?&?&?).
  pose proof (SmartExpression_cls _ _ _ _ _ _ H). by repeat split.
Qed.

Lemma grows_any P bs bs' : grows P bs bs' -> grows any_tag bs bs'.
Proof. by apply grows_weaken. Qed.

Lemma grows_set_tags bs t : grows any_tag bs (set_tags (tags bs ++ [t]) bs).
Proof.
  repeat split; try done. exists [t]. split; [done|]. by repeat constructor.
Qed.

Lemma grows_set_regs bs r x : grows any_tag bs (set_regs (<[r := x]> (regs bs)) bs).
Proof.
  repeat split; try done.
  - exists []. by rewrite app_nil_r.
  - intros r' Hr'. cbn. destruct (decide (r = r')) as [->|Hne].
    + by rewrite lookup_insert_eq.
    + by rewrite lookup_insert_ne.
Qed.

Lemma grows_set_mem_regions bs m : grows any_tag bs (set_mem_regions m bs).
Proof. repeat split; try done. exists []. by rewrite app_nil_r. Qed.

Lemma TempStore_write_tyenv t tmp v t' : TempStore_write t tmp v = Ok t' -> tyenv t' = tyenv t.
Proof.
  unfold TempStore_write. destruct (tyenv t !! _); [|discriminate].
  destruct (negb _); [discriminate|]. destruct (TempStore_size_of t tmp); cbn; [|discriminate].
  by intros [= <-].
Qed.

Lemma grows_set_tempstore bs t t' :
  tempstore bs = Some t -> tyenv t' = tyenv t -> grows any_tag bs (set_tempstore (Some t') bs).
Proof.
  intros Ht Hty. repeat split; try done.
  - exists []. by rewrite app_nil_r.
  - cbn. rewrite Ht. cbn. by rewrite Hty.
Qed.

Lemma tempstore_default_grows bs tmp bs' :
  tempstore_default bs tmp = Ok bs' -> grows any_tag bs bs'.
Proof.
  unfold tempstore_default. destruct (tempstore bs) as [t|] eqn:Ht; [|discriminate].
  destruct (TempStore_default t tmp) as [t'|] eqn:Hd; cbn; [|discriminate].
  intros [= <-]. eapply grows_set_tempstore; [done|].
  unfold TempStore_default in Hd. destruct (tyenv t !! _); [|discriminate].
  by eapply TempStore_write_tyenv.
Qed.

Lemma store_memory_grows bs addr_expr value :
  grows any_tag bs
    (match pointer (taints addr_expr) with
     | PRegion region =>
         if truthy (PRegion region)
         then set_mem_regions
                (<[region := mem_store (cleanval addr_expr) value (region_mem bs region)]>
                   (mem_regions bs)) bs
         else bs
     | PFalse => bs
     end).
Proof.
  destruct (pointer _); [apply grows_refl|].
  destruct (truthy _); [apply grows_set_mem_regions|apply grows_refl].
Qed.

Lemma assign_grows bs stmt e idx bs' : assign bs stmt e idx = Ok bs' -> grows any_tag bs bs'.
Proof.
  destruct stmt; cbn [assign]; try (intros [= <-]; apply grows_refl).
  - destruct (tempstore bs) as [t|] eqn:Ht; [|discriminate].
    destruct (TempStore_write t tmp e) as [t'|] eqn:Hw; cbn; [|discriminate].
    intros [= <-]. eapply grows_set_tempstore; [done|]. by eapply TempStore_write_tyenv.
  - destruct (SmartExpression bs _ _ _) as [[ae b0]|] eqn:Ha; cbn; [|discriminate].
    destruct (access b0 ae _) as [b1|] eqn:Hacc; cbn; [|discriminate].
    intros H. eapply grows_trans; [eapply grows_any, SmartExpression_grows, Ha|].
    eapply grows_trans; [eapply grows_any, access_grows, Hacc|].
    eapply grows_trans; [apply (store_memory_grows b1 ae e)|].
    destruct (truthy (pointer (taints e))).
    + eapply grows_any, access_grows, H.
    + injection H as <-. apply grows_refl.
  - match goal with |- mbind _ ?m = _ -> _ => destruct m as [regs'|] eqn:Hr; cbn; [|discriminate] end.
    assert (Hg : grows any_tag bs (set_regs regs' bs)).
    { destruct (_ || _).
      - injection Hr as <-. apply grows_set_regs.
      - destruct (overwrite _ _); cbn in Hr; [|discriminate]. injection Hr as <-.
        apply grows_set_regs. }
    destruct (_ && _); [|intros [= <-]; exact Hg].
    destruct (negb _); [discriminate|].
    destruct (_ =? 0); (destruct (make_bindata e 0); cbn; [|discriminate]);
      intros [= <-]; (eapply grows_trans; [exact Hg|apply (grows_set_tags (set_regs regs' bs))]).
Qed.

Lemma exec_stmt_grows st a bs s bs' : exec_stmt st a bs s = Ok bs' -> grows any_tag bs bs'.
Proof.
  destruct s as [idx stmt]. destruct stmt; cbn [exec_stmt]; try discriminate;
    try (intros [= <-]; apply grows_refl).
  - (* Exit *)
    destruct (SmartExpression _ _ _ _) as [[e b]|] eqn:He; cbn; [|discriminate].
    intros [= <-]. eapply grows_any, SmartExpression_grows, He.
  - (* WrTmp *)
    destruct (SmartExpression _ _ _ _) as [[e b]|] eqn:He; cbn [mbind res_bind]; [|discriminate].
    intros H. eapply grows_trans; [eapply grows_any, SmartExpression_grows, He|].
    by eapply assign_grows.
  - (* Store *)
    destruct (SmartExpression _ _ _ _) as [[e b]|] eqn:He; cbn [mbind res_bind]; [|discriminate].
    intros H. eapply grows_trans; [eapply grows_any, SmartExpression_grows, He|].
    by eapply assign_grows.
  - (* Put *)
    destruct (SmartExpression _ _ _ _) as [[e b]|] eqn:He; cbn [mbind res_bind]; [|discriminate].
    intros H. eapply grows_trans; [eapply grows_any, SmartExpression_grows, He|].
    by eapply assign_grows.
  - (* LoadG *)
    destruct (SmartExpression _ _ _ _) as [[ae b]|] eqn:He; cbn; [|discriminate].
    destruct (access b ae _) as [b1|] eqn:Hacc; cbn; [|discriminate].
    destruct (tempstore b1) as [t|] eqn:Ht; [|discriminate].
    destruct (TempStore_write t dst _) as [t'|] eqn:Hw; cbn; [|discriminate].
    destruct (SmartExpression _ guard _ _) as [[g b3]|] eqn:Hg; cbn; [|discriminate].
    destruct (SmartExpression _ alt _ _) as [[al b4]|] eqn:Hal; cbn; [|discriminate].
    intros [= <-].
    eapply grows_trans; [eapply grows_any, SmartExpression_grows, He|].
    eapply grows_trans; [eapply grows_any, access_grows, Hacc|].
    eapply grows_trans; [eapply grows_set_tempstore; [exact Ht|by eapply TempStore_write_tyenv]|].
    eapply grows_trans; [eapply grows_any, SmartExpression_grows, Hg|].
    eapply grows_any, SmartExpression_grows, Hal.
  - (* StoreG *)
    destruct (SmartExpression _ _ _ _) as [[ae b]|] eqn:He; cbn; [|discriminate].
    destruct (SmartExpression b data _ _) as [[ve b0]|] eqn:Hv; cbn; [|discriminate].
    destruct (access b0 ae _) as [b1|] eqn:Hacc; cbn; [|discriminate].
    match goal with |- mbind _ ?m = _ -> _ => destruct m as [b3|] eqn:H3; cbn; [|discriminate] end.
    destruct (SmartExpression b3 guard _ _) as [[g b4]|] eqn:Hg; cbn; [|discriminate].
    intros [= <-].
    eapply grows_trans; [eapply grows_any, SmartExpression_grows, He|].
    eapply grows_trans; [eapply grows_any, SmartExpression_grows, Hv|].
    eapply grows_trans; [eapply grows_any, access_grows, Hacc|].
    eapply grows_trans; [apply (store_memory_grows b1 ae ve)|].
    eapply grows_trans; [|eapply grows_any, SmartExpression_grows, Hg].
    destruct (PointerTaint_eqb _ _).
    + eapply grows_any, access_grows, H3.
    + injection H3 as <-. apply grows_refl.
  - (* PutI *)
    destruct (SmartExpression _ _ _ _) as [[e b]|] eqn:He; cbn; [|discriminate].
    intros [= <-]. eapply grows_any, SmartExpression_grows, He.
  - (* CAS *)
    match goal with |- mbind _ ?m = _ -> _ => destruct m as [b1|] eqn:H1; cbn; [|discriminate] end.
    intros H2.
    eapply grows_trans.
    + destruct (negb _); [by eapply tempstore_default_grows|].
      injection H1 as <-. apply grows_refl.
    + destruct (negb (oldHi =? _)%N); [by eapply tempstore_default_grows|].
      injection H2 as <-. apply grows_refl.
  - (* Dirty *)
    destruct (negb _); [by apply tempstore_default_grows|].
    intros [= <-]. apply grows_refl.
Qed.

(** X6: what a statement may change.  When a statement of the instruction
    is interpreted without raising, the block's address and region are
    unchanged, the tag log is extended at its end (no tag is removed or
    reordered), no register leaves the register map, and the type
    environment of the temporaries is unchanged. *)
Theorem statement_only_grows_block_state (st : Struct) (a : Z) (bs bs' : BlockState)
    (s : Z * IRStmt) :
  exec_stmt st a bs s = Ok bs' ->
  addr bs' = addr bs /\
  taint_region bs' = taint_region bs /\
  (exists new, tags bs' = tags bs ++ new) /\
  (forall r, is_Some (regs bs !! r) -> is_Some (regs bs' !! r)) /\
  (tyenv <$> tempstore bs') = (tyenv <$> tempstore bs).
Proof.
  intros H. destruct (exec_stmt_grows _ _ _ _ _ H) as (?&?&(new&?&_)&?&?).
  repeat split; try done. by exists new.
Qed.

Lemma foldM_exec_stmt_grows st a l : forall bs bs',
  foldM (exec_stmt st a) l bs = Ok bs' -> grows any_tag bs bs'.
Proof.
  induction l as [|s l IH]; intros bs bs'; cbn [foldM].
  - intros [= <-]. apply grows_refl.
  - destruct (exec_stmt st a bs s) as [b1|] eqn:H1; cbn; [|discriminate].
    intros H. eapply grows_trans; [by eapply exec_stmt_grows|by eapply IH].
Qed.

(** What one instruction may change: as [grows], but the temporaries
    are replaced. *)
Lemma exec_insn_grows st f bs c a bs' c' :
  exec_insn st f (bs, c) a = Ok (bs', c') ->
  c' = {[a]} ∪ c /\
  addr bs' = addr bs /\ taint_region bs' = taint_region bs /\
  (exists new, tags bs' = tags bs ++ new) /\
  (forall r, is_Some (regs bs !! r) -> is_Some (regs bs' !! r)).
Proof.
  unfold exec_insn. destruct (_ && _); [discriminate|].
  destruct (factory_block a (Some 1)) as [insn|]; cbn; [|discriminate].
  match goal with |- mbind _ ?m = _ -> _ => destruct m as [b1|] eqn:H1; cbn; [|discriminate] end.
  intros [= <- <-].
  destruct (foldM_exec_stmt_grows _ _ _ _ _ H1) as (?&?&(new&?&_)&?&_).
  repeat split; try done. by exists new.
Qed.

Lemma Forall_flat_map {A B : Type} (P : B -> Prop) (f : A -> list B) (l : list A) :
  (forall x, Forall P (f x)) -> Forall P (flat_map f l).
Proof.
  intros Hf. induction l as [|x l IH]; cbn; [constructor|]. apply Forall_app. by split.
Qed.

(** Every state the successor loops enqueue is a copy of the block's
    state at an address outside the instruction cache. *)
Lemma enqueue_successors_Forall (P : BlockState -> Prop) (blockstate : BlockState)
    (headcache cache : gset Z) :
  (forall a, a ∉ cache -> P (copy blockstate a)) ->
  Forall P (enqueue_successors blockstate headcache cache).
Proof.
  intros HP. unfold enqueue_successors.
  apply Forall_flat_map. intros context.
  apply Forall_flat_map. intros [node jumpkind].
  destruct (negb _); [constructor|].
  destruct (bool_decide (node_addr node ∈ headcache)); [constructor|].
  destruct (bool_decide (simprocedure_name node ≠ None)); [constructor|].
  destruct (bool_decide (node_addr node ∈ cache)) eqn:Hc.
  - apply Forall_flat_map. intros [succ jk].
    destruct (str_in jk OK_CONTINUE_JUMPS); cbn [andb]; [|constructor].
    destruct (bool_decide (node_addr succ ∈ cache)) eqn:Hs; cbn [negb andb]; [constructor|].
    destruct (bool_decide (simprocedure_name succ = None)); [|constructor].
    repeat constructor. apply HP. by apply bool_decide_eq_false in Hs.
  - repeat constructor. apply HP. by apply bool_decide_eq_false in Hc.
Qed.

(** X7: every block state the traversal enqueues at the end of a block is
    a fresh copy of the finished block's state at an address that is not
    in the instruction cache; it has the block's region, an empty tag log,
    no temporaries and an empty memory map. *)
Theorem successors_are_fresh_copies (blockstate : BlockState) (headcache cache : gset Z) :
  Forall (fun s => s = copy blockstate (addr s) /\
                   (addr s ∉ cache) /\
                   taint_region s = taint_region blockstate /\
                   tags s = [] /\ tempstore s = None /\ mem_regions s = ∅)
         (enqueue_successors blockstate headcache cache).
Proof.
  apply enqueue_successors_Forall. intros a Ha. by repeat split.
Qed.

Lemma foldM_exec_insn_grows st f l : forall bs c bs' c',
  foldM (exec_insn st f) l (bs, c) = Ok (bs', c') ->
  c ⊆ c' /\ (forall a, a ∈ l -> a ∈ c') /\
  addr bs' = addr bs /\ taint_region bs' = taint_region bs.
Proof.
  induction l as [|a l IH]; intros bs c bs' c'; cbn [foldM].
  - intros [= <- <-]. repeat split; try done. intros a Ha. by apply elem_of_nil in Ha.
  - destruct (exec_insn st f (bs, c) a) as [[b1 c1]|] eqn:H1; cbn; [|discriminate].
    intros H. destruct (exec_insn_grows _ _ _ _ _ _ _ H1) as (-> & ? & ? & _).
    destruct (IH _ _ _ _ H) as (Hsub & Hin & ? & ?).
    repeat split; try congruence.
    + intros x Hx. apply Hsub, elem_of_union. by right.
    + intros x Hx. apply elem_of_cons in Hx as [->|Hx]; [|by apply Hin].
      apply Hsub, elem_of_union. left. by apply elem_of_singleton.
Qed.

Lemma pop_return_address_region bs bs' :
  pop_return_address bs = Ok bs' -> addr bs' = addr bs /\ taint_region bs' = taint_region bs.
Proof.
  unfold pop_return_address.
  destruct (get_reg _ _ _) as [[v b]|] eqn:Hg; cbn; [|discriminate].
  destruct (get_reg_grows any_tag _ _ _ _ _ Hg) as (?&?&_).
  destruct (deps v) as [|d0 rest]; [discriminate|].
  match goal with |- mbind _ ?m = _ -> _ => destruct m; cbn; [|discriminate] end.
  by intros [= <-].
Qed.

Lemma block_end_queue block bs hc c bs' new :
  block_end block bs hc c = Ok (bs', new) ->
  addr bs' = addr bs /\ taint_region bs' = taint_region bs /\
  Forall (fun s => taint_region s = taint_region bs /\ tags s = [] /\ (addr s ∉ c)) new.
Proof.
  unfold block_end. destruct (_ || _).
  - match goal with |- mbind _ ?m = _ -> _ => destruct m as [b1|] eqn:H1; cbn; [|discriminate] end.
    intros [= <- <-].
    assert (addr b1 = addr bs /\ taint_region b1 = taint_region bs) as [? Hreg].
    { destruct (_ && _); [by apply pop_return_address_region|by injection H1 as <-]. }
    repeat split; try done.
    apply enqueue_successors_Forall. intros a Ha. by repeat split.
  - destruct (str_in _ _); [|discriminate]. intros [= <- <-]. repeat split; try done.
Qed.

Lemma analyze_block_invariant st f bs block hc c new c' st' :
  analyze_block st f bs block hc c = Ok (new, c', st') ->
  name st' = name st /\
  (exists drained, events st' = events st ++ drained) /\
  c ⊆ c' /\
  Forall (fun s => taint_region s = taint_region bs) new.
Proof.
  unfold analyze_block.
  destruct (mark_addrs_of block) as [marks|]; cbn [mbind res_bind]; [|discriminate].
  destruct (foldM _ marks _) as [[b1 c1]|] eqn:Hf; cbn [mbind res_bind]; [|discriminate].
  destruct (block_end _ _ _ _) as [[b2 nw]|] eqn:Hb; cbn [mbind res_bind]; [|discriminate].
  destruct (end_ b2) as [b3|]; cbn [mbind res_bind]; [|discriminate].
  intros [= <- <- <-].
  destruct (foldM_exec_insn_grows _ _ _ _ _ _ _ Hf) as (Hsub & _ & _ & Hreg).
  destruct (block_end_queue _ _ _ _ _ _ Hb) as (_ & _ & Hnew).
  repeat split; try done.
  - by eexists.
  - eapply Forall_impl; [exact Hnew|]. cbn. intros s (Hs & _). congruence.
Qed.

Lemma loop_body_invariant f ls ls' nm :
  loop_body f ls = Ok (Next ls') ->
  traversal_invariant nm ls ->
  traversal_invariant nm ls' /\
  headcache ls ⊆ headcache ls' /\ cache ls ⊆ cache ls' /\
  exists drained, events (struct ls') = events (struct ls) ++ drained.
Proof.
  unfold loop_body, traversal_invariant. intros H [Hname Hq].
  destruct (queue ls) as [|bs q]; [discriminate|].
  apply Forall_cons in Hq as [Hbs Hq].
  assert (Hskip : forall l0,
    Next {| struct := struct ls; queue := q; headcache := headcache ls; cache := cache ls |}
      = Next l0 ->
    (name (struct l0) = nm /\ Forall (fun bs => taint_region bs = nm) (queue l0)) /\
    headcache ls ⊆ headcache l0 /\ cache ls ⊆ cache l0 /\
    exists drained, events (struct l0) = events (struct ls) ++ drained).
  { intros l0 [= <-]. cbn. repeat split; try done. exists []. by rewrite app_nil_r. }
  destruct (bool_decide _); [injection H as <-; exact (Hskip _ eq_refl)|].
  destruct (factory_block _ _) as [block|e].
  - destruct (analyze_block _ _ _ _ _ _) as [[[new c'] st']|] eqn:Hb;
      cbn [mbind res_bind] in H; [|discriminate].
    injection H as <-. cbn.
    destruct (analyze_block_invariant _ _ _ _ _ _ _ _ _ Hb) as (Hn & Hev & Hc & Hnew).
    repeat split; try done.
    + congruence.
    + apply Forall_app. split; [done|].
      eapply Forall_impl; [exact Hnew|]. cbn. intros s Hs. congruence.
    + intros x Hx. apply elem_of_union. by right.
  - destruct e; try discriminate. injection H as <-. exact (Hskip _ eq_refl).
Qed.

Lemma reaches_invariant f ls ls' k nm :
  reaches f ls ls' k -> traversal_invariant nm ls ->
  traversal_invariant nm ls' /\ headcache ls ⊆ headcache ls' /\ cache ls ⊆ cache ls'.
Proof.
  induction 1 as [ls|ls ls1 ls2 k Hstep Hr IH]; intros Hinv.
  { split; [done|]. split; intros x Hx; exact Hx. }
  destruct (loop_body_invariant _ _ _ _ Hstep Hinv) as (Hinv1 & Hh & Hc & _).
  destruct (IH Hinv1) as (? & Hh2 & Hc2). split; [done|].
  split; intros x Hx; [apply Hh2, Hh, Hx|apply Hc2, Hc, Hx].
Qed.

Lemma initial_invariant n f : traversal_invariant (struct_name n) (initial_loop_state n f).
Proof. split; [reflexivity|]. by repeat constructor. Qed.

(** X8: at every point of the traversal of a function, the frame under
    construction has the function's frame name and every queued block
    state carries that name as its taint region. *)
Theorem traversal_states_carry_frame_region (n k : nat) (funcaddr : Z) (ls : LoopState) :
  reaches funcaddr (initial_loop_state n funcaddr) ls k ->
  name (struct ls) = struct_name n /\
  Forall (fun bs => taint_region bs = struct_name n) (queue ls).
Proof.
  intros H. by destruct (reaches_invariant _ _ _ _ _ H (initial_invariant n funcaddr)) as [? _].
Qed.

Lemma analyze_loop_name fuel f : forall ls s nm,
  analyze_loop fuel f ls = Some (Ok s) -> traversal_invariant nm ls ->
  name s = nm /\ exists drained, events s = events (struct ls) ++ drained.
Proof.
  induction fuel as [|fuel IH]; intros ls s nm; cbn [analyze_loop]; [discriminate|].
  destruct (loop_body f ls) as [[s0|ls']|] eqn:Hb; [| |discriminate].
  - intros [= <-] [Hn _]. unfold loop_body in Hb.
    destruct (queue ls); [injection Hb as <-|].
    + split; [done|]. exists []. by rewrite app_nil_r.
    + destruct (bool_decide _); [discriminate|].
      destruct (factory_block _ _) as [block|e].
      * destruct (analyze_block _ _ _ _ _ _) as [[[? ?] ?]|]; discriminate.
      * destruct e; discriminate.
  - intros H Hinv.
    destruct (loop_body_invariant _ _ _ _ Hb Hinv) as (Hinv' & _ & _ & d1 & Hd1).
    destruct (IH _ _ _ H Hinv') as (? & d2 & Hd2). split; [done|].
    exists (d1 ++ d2). by rewrite Hd2, Hd1, app_assoc.
Qed.

(** X9: the frame [analyze_stack] returns for the n-th function carries
    the n-th frame name. *)
Theorem analyze_stack_names_its_frame (fuel n : nat) (funcaddr : Z) (s : Struct) :
  analyze_stack fuel n funcaddr = Some (Ok s) -> name s = struct_name n.
Proof.
  intros H. by destruct (analyze_loop_name _ _ _ _ _ H (initial_invariant n funcaddr)).
Qed.

Lemma record_frame_exists func st acc :
  frames_exist acc -> frames_exist (record_frame func st acc).
Proof.
  intros Hacc a nm. cbn.
  destruct (decide (func_addr func = a)) as [->|Hne].
  - rewrite lookup_insert_eq. intros [= <-]. exists st. by rewrite lookup_insert_eq.
  - rewrite lookup_insert_ne by done. intros Ha.
    destruct (Hacc a nm Ha) as (st0 & Hst0 & Hn).
    destruct (decide (name st = nm)) as [<-|Hnm].
    + exists st. by rewrite lookup_insert_eq.
    + exists st0. by rewrite lookup_insert_ne.
Qed.

Lemma analyze_functions_results fuel l : forall n acc r,
  analyze_functions fuel l n acc = Some (Ok r) ->
  (frames_exist acc -> frames_exist r) /\
  forall a nm, stack_frames r !! a = Some nm ->
    stack_frames acc !! a = Some nm \/
    (a ∈ map func_addr l /\ exists k, (n <= k < n + length l)%nat /\ nm = struct_name k).
Proof.
  induction l as [|func l IH]; intros n acc r; cbn [analyze_functions].
  - intros [= <-]. split; [done|]. intros a nm Ha. by left.
  - destruct (analyze_stack fuel n (func_addr func)) as [[st|e]|] eqn:Hst; [| |discriminate].
    + intros H. destruct (IH _ _ _ H) as (Hex & Hfr).
      destruct (analyze_loop_name _ _ _ _ _ Hst (initial_invariant n (func_addr func)))
        as [Hname _].
      split; [intros Hacc; by apply Hex, record_frame_exists|].
      intros a nm Ha. destruct (Hfr a nm Ha) as [Hold | (Hin & k & Hk & ->)].
      * cbn in Hold. destruct (decide (func_addr func = a)) as [<-|Hne].
        -- rewrite lookup_insert_eq in Hold. injection Hold as <-.
           right. split; [by left|]. exists n. rewrite Hname. cbn [length]. split; [lia|done].
        -- rewrite lookup_insert_ne in Hold by done. by left.
      * right. split; [by right|]. exists k. cbn [length]. split; [lia|done].
    + destruct (isinstance_FidgetAnalysisFailure e); [|discriminate].
      intros H. destruct (IH _ _ _ H) as (Hex & Hfr). split; [done|].
      intros a nm Ha. destruct (Hfr a nm Ha) as [Hold | (Hin & k & Hk & ->)]; [by left|].
      right. split; [by right|]. exists k. cbn [length]. split; [lia|done].
Qed.

(** X10: what the driver returns.  When [StructureAnalysis] returns, struct
    chasing was off, and every entry of the address-to-frame map belongs
    to a function of the list that was analysed, names the frame by the
    position of a function in that list, and is a key of the structures
    map at a frame of that name: the two maps agree. *)
Theorem StructureAnalysis_results (fuel : nat) (functions_list : option (list Function))
    (chase_structs : bool) (r : Results) :
  StructureAnalysis fuel functions_list chase_structs = Some (Ok r) ->
  chase_structs = false /\
  exists l,
    match functions_list with Some l' => Ok l' | None => get_real_functions end = Ok l /\
    forall a nm, stack_frames r !! a = Some nm ->
      a ∈ map func_addr l /\
      (exists k, (k < length l)%nat /\ nm = struct_name k) /\
      exists st, structures r !! nm = Some st /\ name st = nm.
Proof.
  unfold StructureAnalysis.
  destruct (match functions_list with Some l' => Ok l' | None => get_real_functions end)
    as [l|]; [|discriminate].
  destruct (analyze_functions fuel l 0 no_results) as [[r0|]|] eqn:Hrun; try discriminate.
  destruct chase_structs; [discriminate|]. intros [= <-]. split; [done|].
  exists l. split; [done|].
  destruct (analyze_functions_results _ _ _ _ _ Hrun) as (Hex & Hfr).
  intros a nm Ha. destruct (Hfr a nm Ha) as [Hold | (Hin & k & Hk & ->)]; [done|].
  split; [done|]. split; [exists k; split; [lia|done]|].
  eapply (Hex ltac:(by intros a' nm' Hno)), Ha.
Qed.

End Growth.

Lemma node_construction_only_appends_read_tags_witness :
  exists e bs',
    SmartExpression (W := Demo.world) Demo.entry_state
      (Iex_Load (Ity_I 64) (Iex_Get 48 (Ity_I 64))) (Some 4096) Demo.data_path = Ok (e, bs') /\
    cls e = ClsSmart /\
    mem_regions bs' = mem_regions Demo.entry_state /\
    exists new, tags bs' = tags Demo.entry_state ++ new /\
                Forall (fun t => t.1 = ACCESS /\ bdc_flags t.2 = AccessType.READ) new.
Proof.
  eexists _, _.
  match goal with |- ?A /\ _ => assert (Hrun : A) by (vm_compute; reflexivity) end.
  split; [exact Hrun|].
  destruct (node_construction_only_appends_read_tags (W := Demo.world) _ _ _ _ _ _ Hrun)
    as (Hcls & _ & _ & _ & Hmem & Htags & _).
  split; [exact Hcls|]. split; [exact Hmem|exact Htags].
Defined.

Lemma statement_only_grows_block_state_witness :
  exists bs',
    exec_stmt (W := Demo.world) {| name := "stack_0"; events := [] |} 4096 Demo.load_state
      (1, Demo.guarded_load) = Ok bs' /\
    taint_region bs' = taint_region Demo.load_state /\
    exists new, tags bs' = tags Demo.load_state ++ new.
Proof.
  eexists.
  match goal with |- ?A /\ _ => assert (Hrun : A) by (vm_compute; reflexivity) end.
  split; [exact Hrun|].
  destruct (statement_only_grows_block_state (W := Demo.world) _ _ _ _ _ Hrun)
    as (_ & Hregion & Htags & _).
  split; [exact Hregion|exact Htags].
Defined.

Lemma traversal_states_carry_frame_region_witness :
  exists ls,
    reaches (W := Demo.world) 16384 (initial_loop_state (W := Demo.world) 1 16384) ls 1 /\
    name (struct ls) = struct_name (World := Demo.world) 1 /\
    Forall (fun bs => taint_region bs = struct_name (World := Demo.world) 1) (queue ls).
Proof.
  eexists.
  match goal with
  | |- ?A /\ _ =>
      assert (Hrun : A)
        by (eapply (reaches_next (W := Demo.world)); [vm_compute; reflexivity|apply reaches_here])
  end.
  split; [exact Hrun|].
  exact (traversal_states_carry_frame_region (W := Demo.world) _ _ _ _ Hrun).
Defined.

Lemma analyze_stack_names_its_frame_witness :
  exists s,
    analyze_stack (W := Demo.world) 5 1 16384 = Some (Ok s) /\
    name s = struct_name (World := Demo.world) 1.
Proof.
  eexists.
  match goal with |- ?A /\ _ => assert (Hrun : A) by (vm_compute; reflexivity) end.
  split; [exact Hrun|].
  exact (analyze_stack_names_its_frame (W := Demo.world) _ _ _ _ Hrun).
Defined.

Lemma StructureAnalysis_results_witness :
  exists r,
    StructureAnalysis (W := Demo.world) 5
      (Some [Demo.fn 4096 "moves_sp"; Demo.fn 16384 "simulated_head"]) false = Some (Ok r) /\
    forall a nm, stack_frames r !! a = Some nm ->
      a ∈ [4096; 16384] /\ exists st, structures r !! nm = Some st /\ name st = nm.
Proof.
  eexists.
  match goal with |- ?A /\ _ => assert (Hrun : A) by (vm_compute; reflexivity) end.
  split; [exact Hrun|].
  destruct (StructureAnalysis_results (W := Demo.world) _ _ _ _ Hrun) as (_ & l & Hl & Hall).
  injection Hl as <-. intros a nm Ha.
  destruct (Hall a nm Ha) as (Hin & _ & Hst). split; [exact Hin|exact Hst].
Defined.

(** ** The functions the driver analyses *)

Section Eligibility.
Context `{W : World}.

Lemma get_real_functions_body_eq out funcaddr func :
  get_real_functions_body mips_do_not_touch out (funcaddr, func) =
    if passes_filters (funcaddr, func) then
      match get_any_node funcaddr with
      | None => Raise AttributeError
      | Some _ => Ok (out ++ [func])
      end
    else Ok out.
Proof.
  unfold get_real_functions_body, passes_filters.
  repeat match goal with
         | |- context [if ?b then Ok out else _] => destruct b; cbn; [reflexivity|]
         end.
  destruct (get_any_node funcaddr); [|reflexivity]. by destruct (bool_decide _).
Qed.

Lemma passes_filters_spec funcaddr func :
  passes_filters (funcaddr, func) = true ->
  funcaddr <> entry /\ Some funcaddr <> mips_do_not_touch /\ is_hooked funcaddr = false /\
  is_Some (find_segment_containing funcaddr) /\
  (sections_map_has ".text" = true \/
   exists sec, find_section_containing funcaddr = Some sec /\ sec_name sec = ".text") /\
  existsb (Z.eqb funcaddr) plt_values = false /\
  has_unresolved_jumps func = false.
Proof.
  unfold passes_filters. intros H.
  repeat (apply andb_prop in H as [H ?]).
  repeat match goal with
         | H : negb ?b = true |- _ => apply negb_true_iff in H
         end.
  apply Z.eqb_neq in H.
  repeat match goal with
         | H : bool_decide _ = false |- _ => apply bool_decide_eq_false in H
         end.
  repeat split; try done.
  - destruct (find_segment_containing funcaddr); [by eexists|done].
  - destruct (sections_map_has ".text"); [by left|right].
    destruct (find_section_containing funcaddr) as [sec|]; [|discriminate].
    exists sec. split; [done|]. apply String.eqb_eq.
    match goal with H : _ && negb _ = false |- _ => cbn in H; by apply negb_false_iff in H end.
Qed.

Lemma get_real_functions_members l : forall out r,
  foldM (get_real_functions_body mips_do_not_touch) l out = Ok r ->
  forall f, f ∈ r ->
    f ∈ out \/
    exists a, (a, f) ∈ l /\ passes_filters (a, f) = true /\ is_Some (get_any_node a).
Proof.
  induction l as [|[a0 f0] l IH]; intros out r; cbn [foldM].
  - intros [= <-] f Hf. by left.
  - rewrite get_real_functions_body_eq.
    destruct (passes_filters (a0, f0)) eqn:Hp.
    + destruct (get_any_node a0) as [node|] eqn:Hn; cbn [mbind res_bind]; [|discriminate].
      intros H f Hf. destruct (IH _ _ H f Hf) as [Hin | (a & Hin & ? & ?)].
      * apply elem_of_app in Hin as [Hin | Hin]; [by left|].
        apply list_elem_of_singleton in Hin as ->. right. exists a0.
        split; [by left|]. split; [done|]. by rewrite Hn.
      * right. exists a. split; [by right|done].
    + cbn [mbind res_bind]. intros H f Hf.
      destruct (IH _ _ H f Hf) as [Hin | (a & Hin & ? & ?)]; [by left|].
      right. exists a. split; [by right|done].
Qed.

(** X11: every function [get_real_functions] returns is a function of the
    function manager that passed every filter (not the entry point, not
    the MIPS stub, not hooked, inside a segment, not a PLT stub, no
    unresolved jumps) and has a node in the control-flow graph. *)
Theorem eligible_functions_pass_the_filters (out : list Function) (f : Function) :
  get_real_functions = Ok out ->
  f ∈ out ->
  exists a, (a, f) ∈ functions /\
    a <> entry /\ Some a <> mips_do_not_touch /\ is_hooked a = false /\
    is_Some (find_segment_containing a) /\
    (sections_map_has ".text" = true \/
     exists sec, find_section_containing a = Some sec /\ sec_name sec = ".text") /\
    existsb (Z.eqb a) plt_values = false /\
    has_unresolved_jumps f = false /\
    is_Some (get_any_node a).
Proof.
  intros Hrun Hf.
  destruct (get_real_functions_members _ _ _ Hrun f Hf) as [Hin | (a & Hin & Hp & Hn)].
  { by apply elem_of_nil in Hin. }
  exists a. split; [done|].
  destruct (passes_filters_spec _ _ Hp) as (?&?&?&?&?&?&?). by repeat split.
Qed.

Lemma get_real_functions_raises l : forall out a f,
  (a, f) ∈ l -> passes_filters (a, f) = true -> get_any_node a = None ->
  foldM (get_real_functions_body mips_do_not_touch) l out = Raise AttributeError.
Proof.
  induction l as [|[a0 f0] l IH]; intros out a f Hin Hp Hn.
  - by apply elem_of_nil in Hin.
  - cbn [foldM]. rewrite get_real_functions_body_eq.
    apply elem_of_cons in Hin as [[= <- <-] | Hin].
    + by rewrite Hp, Hn.
    + destruct (passes_filters (a0, f0)).
      * destruct (get_any_node a0); [|reflexivity]. cbn [mbind res_bind]. by eapply IH.
      * cbn [mbind res_bind]. by eapply IH.
Qed.

(** X12: a function that passes the filters but has no node in the
    control-flow graph makes [get_real_functions] raise AttributeError
    (the attribute access on None), and with it the whole analysis when
    no function list is given: the driver's handler does not catch it. *)
Theorem function_without_node_raises (a : Z) (f : Function) (fuel : nat) (chase : bool) :
  (a, f) ∈ functions -> passes_filters (a, f) = true -> get_any_node a = None ->
  get_real_functions = Raise AttributeError /\
  StructureAnalysis fuel None chase = Some (Raise AttributeError).
Proof.
  intros Hin Hp Hn.
  assert (H : get_real_functions = Raise AttributeError).
  { by eapply get_real_functions_raises. }
  split; [done|]. unfold StructureAnalysis. by rewrite H.
Qed.
End Eligibility.

Lemma eligible_functions_pass_the_filters_witness :
  exists a,
    (a, Demo.fn 4096 "moves_sp") ∈ functions (World := Demo.world) /\
    a <> entry (World := Demo.world) /\
    has_unresolved_jumps (Demo.fn 4096 "moves_sp") = false /\
    is_Some (get_any_node (World := Demo.world) a).
Proof.
  destruct (eligible_functions_pass_the_filters (W := Demo.world)
              [Demo.fn 4096 "moves_sp"; Demo.fn 8192 "unknown_stmt";
               Demo.fn 16384 "simulated_head"]
              (Demo.fn 4096 "moves_sp"))
    as (a & Hin & Hentry & _ & _ & _ & _ & _ & Hjumps & Hnode).
  - vm_compute. reflexivity.
  - apply list_elem_of_here.
  - exists a. split; [exact Hin|]. split; [exact Hentry|]. split; [exact Hjumps|exact Hnode].
Defined.

Lemma function_without_node_raises_witness :
  get_real_functions (W := Stray.world) = Raise AttributeError /\
  StructureAnalysis (W := Stray.world) 5 None false = Some (Raise AttributeError).
Proof.
  apply (function_without_node_raises (W := Stray.world) 4096 (Demo.fn 4096 "moves_sp") 5 false).
  - apply list_elem_of_here.
  - reflexivity.
  - reflexivity.
Defined.

(** ** Memory and register round trips *)

Section bv_induction.
Variable P : bv -> Prop.
Hypothesis HBVV : forall v s, P (BVV v s).
Hypothesis HBVS : forall a i s, P (BVS a i s).
Hypothesis HFPV : forall v s, P (FPV v s).
Hypothesis HFPS : forall a i s, P (FPS a i s).
Hypothesis HConcat : forall h l, P h -> P l -> P (Concat h l).
Hypothesis HExtract : forall hi lo a, P a -> P (Extract hi lo a).
Hypothesis HZeroExt : forall n a, P a -> P (ZeroExt n a).
Hypothesis HSignExt : forall n a, P a -> P (SignExt n a).
Hypothesis HCalc : forall op args s, Forall P args -> P (Calc op args s).

Fixpoint bv_nested_ind (b : bv) : P b :=
  let fix all (l : list bv) : Forall P l :=
    match l with
    | [] => @List.Forall_nil _ P
    | x :: l' => @List.Forall_cons _ P x l' (bv_nested_ind x) (all l')
    end in
  match b with
  | BVV v s => HBVV v s
  | BVS a i s => HBVS a i s
  | FPV v s => HFPV v s
  | FPS a i s => HFPS a i s
  | Concat h l => HConcat h l (bv_nested_ind h) (bv_nested_ind l)
  | Extract hi lo a => HExtract hi lo a (bv_nested_ind a)
  | ZeroExt n a => HZeroExt n a (bv_nested_ind a)
  | SignExt n a => HSignExt n a (bv_nested_ind a)
  | Calc op args s => HCalc op args s (all args)
  end.
End bv_induction.

Lemma bv_eqb_eq (x : bv) : forall y, bv_eqb x y = true <-> x = y.
Proof.
  induction x using bv_nested_ind; intros y; destruct y; cbn [bv_eqb];
    try (split; [discriminate|congruence]).
  - rewrite !andb_true_iff, !Z.eqb_eq. split; [intros [-> ->]; done|intros [= -> ->]; done].
  - rewrite !andb_true_iff, !Z.eqb_eq.
    split; [intros [[-> ->] ->]; done|intros [= -> -> ->]; done].
  - rewrite !andb_true_iff, !Z.eqb_eq. split; [intros [-> ->]; done|intros [= -> ->]; done].
  - rewrite !andb_true_iff, !Z.eqb_eq.
    split; [intros [[-> ->] ->]; done|intros [= -> -> ->]; done].
  - rewrite andb_true_iff, IHx1, IHx2. split; [intros [-> ->]; done|intros [= -> ->]; done].
  - rewrite !andb_true_iff, !Z.eqb_eq, IHx.
    split; [intros [[-> ->] ->]; done|intros [= -> -> ->]; done].
  - rewrite !andb_true_iff, !Z.eqb_eq, IHx. split; [intros [-> ->]; done|intros [= -> ->]; done].
  - rewrite !andb_true_iff, !Z.eqb_eq, IHx. split; [intros [-> ->]; done|intros [= -> ->]; done].
  - rewrite !andb_true_iff, Z.eqb_eq, String.eqb_eq.
    assert (Hall : forall l2,
      (fix all2 (l1 l2 : list bv) {struct l1} : bool :=
         match l1, l2 with
         | [], [] => true
         | a :: l1', b :: l2' => bv_eqb a b && all2 l1' l2'
         | _, _ => false
         end) args l2 = true <-> args = l2).
    { induction H as [|a l Ha Hl IH]; intros [|b l2]; try (split; [discriminate|congruence]);
        [done|].
      rewrite andb_true_iff, Ha, IH. split; [intros [-> ->]; done|intros [= -> ->]; done]. }
    rewrite Hall. split; [intros [[-> ->] ->]; done|intros [= -> -> ->]; done].
Qed.

Lemma bv_eqb_refl (x : bv) : bv_eqb x x = true.
Proof. by apply bv_eqb_eq. Qed.

Lemma mem_lookup_store_eq (k : bv) (v : Expr) (m : list (bv * Expr)) :
  mem_lookup k (mem_store k v m) = Some v.
Proof.
  induction m as [|[k0 w] m IH]; cbn.
  - by rewrite bv_eqb_refl.
  - destruct (bv_eqb k k0) eqn:E; cbn; by rewrite E.
Qed.

Lemma mem_lookup_store_ne (k k' : bv) (v : Expr) (m : list (bv * Expr)) :
  k' <> k -> mem_lookup k' (mem_store k v m) = mem_lookup k' m.
Proof.
  intros Hne. induction m as [|[k0 w] m IH]; cbn.
  - destruct (bv_eqb k' k) eqn:E; [by apply bv_eqb_eq in E|done].
  - destruct (bv_eqb k k0) eqn:E; cbn.
    + apply bv_eqb_eq in E as <-.
      destruct (bv_eqb k' k) eqn:E'; [by apply bv_eqb_eq in E'|done].
    + by rewrite IH.
Qed.

Section MemoryRoundTrip.
Context `{W : World}.

Lemma get_mem_ext (b1 b2 : BlockState) (a : Expr) (ty : IRType) :
  mem_regions b1 = mem_regions b2 -> get_mem b1 a ty = get_mem b2 a ty.
Proof. intros H. unfold get_mem, region_mem. by rewrite H. Qed.

Lemma access_mem_regions bs e f bs' : access bs e f = Ok bs' -> mem_regions bs' = mem_regions bs.
Proof. intros H. by destruct (access_frame _ _ _ _ H) as (_&_&_&?). Qed.

(** The memory map after a store: what [assign] and the guarded store
    leave in [mem_regions]. *)
Lemma assign_store_memory bs bs0 bs' a data expression idx addr_expr region :
  SmartExpression bs a (e_addr expression) [PStr "statements"; PInt idx; PStr "addr"]
    = Ok (addr_expr, bs0) ->
  pointer (taints addr_expr) = PRegion region -> region <> "" ->
  assign bs (Ist_Store a data) expression idx = Ok bs' ->
  mem_regions bs' =
    <[region := mem_store (cleanval addr_expr) expression (region_mem bs region)]>
      (mem_regions bs).
Proof.
  intros He Hp Hne. cbn [assign]. rewrite He. cbn [mbind res_bind].
  destruct (SmartExpression_frame _ _ _ _ _ _ He) as (_&_&_&Hm0).
  destruct (access bs0 addr_expr _) as [b1|] eqn:Hacc; cbn [mbind res_bind]; [|discriminate].
  pose proof (access_mem_regions _ _ _ _ Hacc) as Hm1.
  rewrite Hp. cbn [truthy].
  destruct (String.eqb_spec region ""); [done|]. cbn [negb].
  assert (Hreg : region_mem b1 region = region_mem bs region).
  { unfold region_mem. by rewrite Hm1, Hm0. }
  rewrite Hreg, Hm1, Hm0.
  destruct (truthy (pointer (taints expression))).
  - intros H. by rewrite (access_mem_regions _ _ _ _ H).
  - by intros [= <-].
Qed.

(** X13: a store can be loaded back.  After [assign] of a store whose
    address node is tainted with a region, [get_mem] at that address and
    the stored value's type returns the stored node itself; at any other
    type it returns the default value of that type; and the memory at any
    other region or other clean address reads as before the store. *)
Theorem store_then_load (bs bs0 bs' : BlockState) (a data : IRExpr) (expression : Expr)
    (idx : Z) (addr_expr : Expr) (region : string) :
  SmartExpression bs a (e_addr expression) [PStr "statements"; PInt idx; PStr "addr"]
    = Ok (addr_expr, bs0) ->
  pointer (taints addr_expr) = PRegion region -> region <> "" ->
  assign bs (Ist_Store a data) expression idx = Ok bs' ->
  get_mem bs' addr_expr (e_type expression) = expression /\
  (forall ty, ty <> e_type expression ->
              get_mem bs' addr_expr ty = ConstExpression_default ty) /\
  (forall other ty,
      pointer (taints other) <> PRegion region \/ cleanval other <> cleanval addr_expr ->
      get_mem bs' other ty = get_mem bs other ty).
Proof.
  intros He Hp Hne Hassign.
  pose proof (assign_store_memory _ _ _ _ _ _ _ _ _ He Hp Hne Hassign) as Hm.
  assert (Ht : truthy (PRegion region) = true).
  { cbn. by destruct (String.eqb_spec region ""). }
  split; [|split].
  - unfold get_mem, region_mem. rewrite Hp, Ht, Hm, lookup_insert_eq. cbn [default from_option id].
    by rewrite mem_lookup_store_eq, IRType_eqb_refl.
  - intros ty Hty. unfold get_mem, region_mem.
    rewrite Hp, Ht, Hm, lookup_insert_eq. cbn [default from_option id]. rewrite mem_lookup_store_eq.
    destruct (IRType_eqb (e_type expression) ty) eqn:E; [|done].
    apply IRType_eqb_eq in E. congruence.
  - intros other ty Hother. unfold get_mem, region_mem. rewrite Hm.
    destruct (pointer (taints other)) as [|r] eqn:Hpo; [done|].
    destruct (truthy (PRegion r)); [|done].
    destruct (decide (r = region)) as [->|Hr].
    + rewrite lookup_insert_eq. cbn [default from_option id].
      destruct Hother as [Hx|Hx]; [done|]. by rewrite mem_lookup_store_ne.
    + by rewrite lookup_insert_ne.
Qed.

Lemma assign_put_regs bs offset data e idx bs' :
  assign bs (Ist_Put offset data) e idx = Ok bs' ->
  exists v, regs bs' = <[offset := v]> (regs bs) /\
    (if has_F (e_type e) || (arch_bits arch <? e_size e) then v = e
     else overwrite e (default (ConstExpression_default (Ity_I (arch_bits arch)))
                               (regs bs !! offset)) = Ok v).
Proof.
  cbn [assign]. destruct (has_F (e_type e) || _).
  - cbn [mbind res_bind]. intros H. exists e. split; [|done].
    destruct (_ && _); [|by injection H as <-].
    destruct (negb _); [discriminate|].
    destruct (_ =? 0); (destruct (make_bindata e 0); cbn in H; [|discriminate]);
      by injection H as <-.
  - destruct (overwrite e _) as [v|] eqn:Ho; cbn [mbind res_bind]; [|discriminate].
    intros H. exists v. split; [|done].
    destruct (_ && _); [|by injection H as <-].
    destruct (negb _); [discriminate|].
    destruct (_ =? 0); (destruct (make_bindata e 0); cbn in H; [|discriminate]);
      by injection H as <-.
Qed.

(** X14: a register write can be read back.  After [assign] of a Put whose
    value is a float, wider than the architecture, or at least as wide as
    what the register holds, the register holds the value itself, reading
    it at the value's type returns it without changing the state, and
    every other register is as before. *)
Theorem put_then_get (bs bs' : BlockState) (offset : Z) (data : IRExpr) (e : Expr)
    (idx : Z) :
  assign bs (Ist_Put offset data) e idx = Ok bs' ->
  has_F (e_type e) || (arch_bits arch <? e_size e) = true \/
  e_size (default (ConstExpression_default (Ity_I (arch_bits arch))) (regs bs !! offset))
    <= e_size e ->
  regs bs' !! offset = Some e /\
  get_reg bs' offset (e_type e) = Ok (e, bs') /\
  forall r, r <> offset -> regs bs' !! r = regs bs !! r.
Proof.
  intros Hassign Hsize.
  destruct (assign_put_regs _ _ _ _ _ _ Hassign) as (v & Hregs & Hv).
  assert (v = e) as ->.
  { destruct (has_F (e_type e) || _) eqn:Hw; [done|].
    destruct Hsize as [?|Hsize]; [done|].
    unfold overwrite in Hv. destruct (cls e); [|discriminate].
    destruct (Z.ltb_spec (e_size (default (ConstExpression_default (Ity_I (arch_bits arch)))
                                          (regs bs !! offset))) (e_size e));
      [by injection Hv|].
    destruct (Z.eqb_spec (e_size e)
                (e_size (default (ConstExpression_default (Ity_I (arch_bits arch)))
                                 (regs bs !! offset)))); [by injection Hv|lia]. }
  assert (Hl : regs bs' !! offset = Some e) by (by rewrite Hregs, lookup_insert_eq).
  split; [done|]. split.
  - unfold get_reg. rewrite Hl. destruct (has_F (e_type e)).
    + by rewrite IRType_eqb_refl.
    + by rewrite truncate_same_type.
  - intros r Hr. by rewrite Hregs, lookup_insert_ne.
Qed.
End MemoryRoundTrip.

Lemma store_then_load_witness :
  exists addr_expr bs',
    assign (W := Demo.world) Demo.load_state
      (Ist_Store (Iex_RdTmp 0 (Ity_I 64)) (Iex_Const (Demo.u64 0))) Demo.zero_node 1 = Ok bs' /\
    pointer (taints addr_expr) = PRegion "stack_0" /\
    get_mem (W := Demo.world) bs' addr_expr (Ity_I 64) = Demo.zero_node /\
    get_mem (W := Demo.world) bs' addr_expr (Ity_I 32) = ConstExpression_default (W := Demo.world) (Ity_I 32).
Proof.
  eexists (copy_to_self
              (SmartExpression_fresh (W := Demo.world) (Iex_RdTmp 0 (Ity_I 64)) (Some 4096)
                 [PStr "statements"; PInt 1; PStr "addr"]) Demo.precall_sp), _.
  match goal with |- ?A /\ _ => assert (Hrun : A) by (vm_compute; reflexivity) end.
  split; [exact Hrun|].
  destruct (store_then_load (W := Demo.world) Demo.load_state Demo.load_state _
              (Iex_RdTmp 0 (Ity_I 64)) (Iex_Const (Demo.u64 0)) Demo.zero_node 1
              (copy_to_self
                 (SmartExpression_fresh (W := Demo.world) (Iex_RdTmp 0 (Ity_I 64)) (Some 4096)
                    [PStr "statements"; PInt 1; PStr "addr"]) Demo.precall_sp)
              "stack_0" eq_refl eq_refl ltac:(discriminate) Hrun)
    as (Hsame & Hother & _).
  split; [reflexivity|]. split; [exact Hsame|]. apply Hother. discriminate.
Defined.

Lemma put_then_get_witness :
  exists bs',
    assign (W := Demo.world) Demo.entry_state
      (Ist_Put Demo.rax (Iex_Const (Demo.u64 0))) Demo.zero_node 1 = Ok bs' /\
    get_reg (W := Demo.world) bs' Demo.rax (Ity_I 64) = Ok (Demo.zero_node, bs').
Proof.
  eexists.
  match goal with |- ?A /\ _ => assert (Hrun : A) by (vm_compute; reflexivity) end.
  split; [exact Hrun|].
  destruct (put_then_get (W := Demo.world) _ _ _ _ _ _ Hrun) as (_ & Hget & _).
  - right. vm_compute. discriminate.
  - exact Hget.
Defined.

(** ** Shielded literals *)

Section Shielding.
Context `{W : World}.

Lemma shield_all (l : list Expr) : forall i,
  Forall2 shielded l (shield_constants_from i l None).
Proof.
  induction l as [|a l IH]; intros i; cbn; constructor; [|apply IH].
  unfold shielded. by destruct (rootval a).
Qed.

Lemma shield_root_free (l : list Expr) : forall i wl,
  Forall (fun d => rootval d = false) l -> shield_constants_from i l wl = l.
Proof.
  induction l as [|a l IH]; intros i wl Hl; [done|].
  apply Forall_cons in Hl as [Ha Hl]. cbn. rewrite Ha, IH by done.
  by destruct wl as [wl|]; [destruct (negb _)|].
Qed.

Lemma shielded_root_free (l l' : list Expr) :
  Forall2 shielded l l' -> Forall (fun d => rootval d = false) l'.
Proof.
  induction 1 as [|a d l l' Had _ IH]; constructor; [|done].
  unfold shielded in Had. destruct (rootval a) eqn:E; by subst d.
Qed.

Lemma shielded_patches (l l' : list Expr) :
  Forall2 shielded l l' ->
  flat_map make_bindata_internal l'
  = flat_map make_bindata_internal (filter (fun a => rootval a = false) l).
Proof.
  induction 1 as [|a d l l' Had _ IH]; [done|].
  rewrite filter_cons. cbn [flat_map]. rewrite IH.
  unfold shielded in Had. destruct (rootval a) eqn:E; subst d.
  - by destruct (decide (true = false)).
  - by destruct (decide (false = false)).
Qed.

Lemma finish_op_deps self op args node :
  finish_op self op args = Ok node ->
  cls node = ClsSmart /\ rootval node = false /\
  deps node =
    (let deps1 := if startswith op "Iop_Mul" || startswith op "Iop_And"
                  then shield_constants args None else args in
     if str_in op ROUNDING_IROPS then shield_constants deps1 (Some [0]) else deps1).
Proof.
  unfold finish_op.
  repeat match goal with
         | |- context [match ?x with _ => _ end] => destruct x
         end; intros H; inversion H; by repeat split.
Qed.

(** X15: multiplications and bitwise ands shield their literal operands.
    The operands of such a node are the arguments with every literal root
    replaced by a plain constant of the same clean value, type and
    concreteness; no operand is a root; and the node's patch locations
    are those of the non-literal arguments only. *)
Theorem multiply_and_shield_literals (self : Expr) (op : string) (args : list Expr)
    (node : Expr) :
  finish_op self op args = Ok node ->
  startswith op "Iop_Mul" || startswith op "Iop_And" = true ->
  Forall2 shielded args (deps node) /\
  Forall (fun d => rootval d = false) (deps node) /\
  make_bindata_internal node
  = flat_map make_bindata_internal (filter (fun a => rootval a = false) args).
Proof.
  intros Hnode Hop.
  destruct (finish_op_deps _ _ _ _ Hnode) as (Hcls & Hroot & Hdeps).
  rewrite Hop in Hdeps. cbn zeta in Hdeps.
  pose proof (shield_all args 0) as Hsh. fold (shield_constants args None) in Hsh.
  pose proof (shielded_root_free _ _ Hsh) as Hfree.
  assert (Hd : deps node = shield_constants args None).
  { rewrite Hdeps. destruct (str_in op ROUNDING_IROPS); [|done].
    by apply shield_root_free. }
  rewrite Hd. split; [done|]. split; [done|].
  destruct node as [c sz ty cv dv ds tn rt ad pa]. cbn in Hcls, Hroot, Hd. subst c rt ds.
  cbn [make_bindata_internal]. by apply shielded_patches.
Qed.
End Shielding.

Lemma multiply_and_shield_literals_witness :
  exists node,
    finish_op (W := Demo.world)
      (SmartExpression_fresh (W := Demo.world)
         (Iex_Op "Iop_And64" [Iex_Get 48 (Ity_I 64); Iex_Const (Demo.u64 8)] (Ity_I 64))
         (Some 12288) Demo.data_path)
      "Iop_And64" [Demo.precall_sp; Demo.eight] = Ok node /\
    Forall (fun d => rootval d = false) (deps node) /\
    make_bindata_internal (W := Demo.world) node = [].
Proof.
  eexists.
  match goal with |- ?A /\ _ => assert (Hrun : A) by (vm_compute; reflexivity) end.
  split; [exact Hrun|].
  destruct (multiply_and_shield_literals (W := Demo.world) _ _ _ _ Hrun eq_refl)
    as (_ & Hroots & Hpatches).
  split; [exact Hroots|exact Hpatches].
Defined.

(** ** Accesses *)

Section Accesses.
Context `{W : World}.

Lemma access_ok bs e f bs' : access bs e f = Ok bs' -> bs' = accessed bs e f.
Proof.
  unfold access, accessed, in_scope. destruct (PointerTaint_eqb _ _); cbn [negb].
  - unfold make_bindata. destruct (cls e); [|discriminate]. cbn. by intros [= <-].
  - by intros [= <-].
Qed.

Lemma access_smart bs e f : cls e = ClsSmart -> access bs e f = Ok (accessed bs e f).
Proof.
  intros Hc. unfold access, accessed, in_scope. destruct (PointerTaint_eqb _ _); cbn [negb].
  - by rewrite (make_bindata_smart _ _ Hc).
  - done.
Qed.

Lemma get_mem_accessed bs e f a ty : get_mem (accessed bs e f) a ty = get_mem bs a ty.
Proof. unfold accessed. by destruct (in_scope bs e). Qed.

(** X16: a load builds its address first, then records one READ access of
    it when the address is tainted with the block's region (and nothing
    otherwise), and takes its values from the block's memory at that
    address. *)
Theorem load_tags_read_in_scope (bs bs0 : BlockState) (ty : IRType) (a : IRExpr)
    (addr : option Z) (p : list PathElem) (addr_expression : Expr) :
  ty <> Ity_INVALID ->
  SmartExpression bs a addr (p ++ [PStr "addr"]) = Ok (addr_expression, bs0) ->
  SmartExpression bs (Iex_Load ty a) addr p =
    Ok (copy_to_self (SmartExpression_fresh (Iex_Load ty a) addr p)
                     (get_mem bs0 addr_expression ty),
        accessed bs0 addr_expression AccessType.READ).
Proof.
  intros _ He. cbn [SmartExpression]. rewrite He. cbn [mbind res_bind].
  rewrite (access_smart _ _ _ (SmartExpression_cls _ _ _ _ _ _ He)). cbn [mbind res_bind].
  cbn [e_type SmartExpression_fresh result_type]. by rewrite get_mem_accessed.
Qed.

Lemma foldM_end_ (sp bp ip : Z) (l : list (Z * Expr)) : forall b b',
  foldM (fun bs '(offset, value) =>
           if (offset =? sp) || (offset =? bp) || (offset =? ip)
           then Ok bs
           else access bs value AccessType.POINTER) l b = Ok b' ->
  b' = set_tags
         (tags b ++
          omap (fun '(offset, value) =>
                  if (offset =? sp) || (offset =? bp) || (offset =? ip) then None
                  else if in_scope b value
                       then Some (access_tag value AccessType.POINTER) else None) l) b.
Proof.
  induction l as [|[r v] l IH]; intros b b'.
  - cbn. intros [= <-]. rewrite app_nil_r. by destruct b.
  - cbn -[access]. destruct ((r =? sp) || (r =? bp) || (r =? ip)).
    + cbn [mbind res_bind]. apply IH.
    + destruct (access b v _) as [b1|] eqn:Ha; cbn [mbind res_bind]; [|discriminate].
      apply access_ok in Ha. subst b1. intros H. apply IH in H. rewrite H.
      unfold accessed, in_scope. 
      destruct (PointerTaint_eqb _ _); [|done]. cbn. by rewrite <- app_assoc.
Qed.

(** X17: what [BlockState.end] does when it does not raise: it appends to
    the tag log one POINTER access for each register, other than the
    stack, base and instruction pointers, whose value is tainted with the
    block's region, in the order of the register map, and changes nothing
    else. *)
Theorem end_tags_escaping_registers (bs bs' : BlockState) :
  end_ bs = Ok bs' ->
  exists new,
    bs' = set_tags (tags bs ++ new) bs /\
    new ≡ₚ omap (fun '(offset, value) =>
                   if (offset =? sp_offset arch) || (offset =? bp_offset arch)
                      || (offset =? ip_offset arch) then None
                   else if in_scope bs value
                        then Some (access_tag value AccessType.POINTER) else None)
                (map_to_list (regs bs)).
Proof.
  unfold end_. intros H. apply foldM_end_ in H. eexists. split; [exact H|reflexivity].
Qed.

Lemma default_written (t t' : TempStore) (tmp : N) :
  TempStore_default t tmp = Ok t' ->
  exists ty, tyenv t !! N.to_nat tmp = Some ty /\ tyenv t' = tyenv t /\
    storage t' =
      <[tmp := with_vals (ZExtTo (extract_int ty) (make_default_value ty))
                         (ZExtTo (extract_int ty) (make_default_value ty))
                         (ConstExpression_default ty)]> (storage t).
Proof.
  unfold TempStore_default, TempStore_write, TempStore_size_of.
  destruct (tyenv t !! N.to_nat tmp) as [ty|]; [|discriminate].
  cbn [e_type ConstExpression_default ConstExpression]. rewrite IRType_eqb_refl.
  cbn. intros [= <-]. by exists ty.
Qed.

(** X18: a helper call gives its destination the default value.  A Dirty
    statement without a destination changes nothing; with one, the
    destination temporary afterwards reads as a constant node of its
    declared type that holds the default value and carries no taint, while
    registers, tags, memory and the other temporaries are unchanged. *)
Theorem helper_call_result_is_default (st : Struct) (a idx : Z) (bs bs' : BlockState)
    (tmp : N) :
  exec_stmt st a bs (idx, Ist_Dirty tmp) = Ok bs' ->
  (tmp = 4294967295%N /\ bs' = bs) \/
  (tmp <> 4294967295%N /\
   regs bs' = regs bs /\ tags bs' = tags bs /\ mem_regions bs' = mem_regions bs /\
   exists t ty v,
     tempstore bs = Some t /\ tyenv t !! N.to_nat tmp = Some ty /\
     get_tmp bs' tmp = Ok v /\
     cls v = ClsConst /\ e_type v = ty /\ taints v = no_taints /\
     rootval v = false /\ deps v = [] /\
     cleanval v = ZExtTo (extract_int ty) (make_default_value ty) /\
     forall tmp', tmp' <> tmp -> get_tmp bs' tmp' = get_tmp bs tmp').
Proof.
  cbn [exec_stmt]. destruct (N.eqb_spec tmp 4294967295) as [->|Hne]; cbn [negb].
  { intros [= <-]. by left. }
  unfold tempstore_default. destruct (tempstore bs) as [t|] eqn:Ht; [|discriminate].
  destruct (TempStore_default t tmp) as [t'|] eqn:Hd; cbn [mbind res_bind]; [|discriminate].
  intros [= <-]. right. split; [done|]. repeat (split; [done|]).
  destruct (default_written _ _ _ Hd) as (ty & Hty & _ & Hst).
  eexists t, ty, _. split; [done|]. split; [done|].
  unfold get_tmp, TempStore_read. cbn [tempstore set_tempstore]. rewrite Hst.
  split; [by rewrite lookup_insert_eq|]. repeat (split; [done|]).
  intros tmp' Hne'. rewrite lookup_insert_ne by done. by rewrite Ht.
Qed.

(** X19: a guarded store is performed whatever its guard is.  The statement
    builds the address and the data, records the WRITE access, updates the
    memory map and records the POINTER access before it builds the guard,
    whose node it discards: the memory map after the statement is the one
    after the store, the stored value reads back at the address, and the
    tag log is extended by the WRITE tag, the POINTER tag and the tags of
    the guard's own loads, in this order. *)
Theorem guarded_store_ignores_guard (st : Struct) (addr idx : Z)
    (bs b b0 b4 : BlockState) (a data guard : IRExpr) (addr_expr value_expr g : Expr) :
  let path := [PStr "statements"; PInt idx] in
  let b1 := accessed b0 addr_expr AccessType.WRITE in
  let b2 := after_store b1 addr_expr value_expr in
  let b3 := if PointerTaint_eqb (pointer (taints value_expr)) (PRegion (name st))
            then accessed b2 value_expr AccessType.POINTER else b2 in
  SmartExpression bs a (Some addr) (path ++ [PStr "addr"]) = Ok (addr_expr, b) ->
  SmartExpression b data (Some addr) (path ++ [PStr "data"]) = Ok (value_expr, b0) ->
  SmartExpression b3 guard (Some addr) (path ++ [PStr "guard"]) = Ok (g, b4) ->
  exec_stmt st addr bs (idx, Ist_StoreG a data guard) = Ok b4 /\
  mem_regions b4 = mem_regions b2 /\
  (truthy (pointer (taints addr_expr)) = true ->
   get_mem b4 addr_expr (e_type value_expr) = value_expr) /\
  exists new,
    tags b4 =
      tags b0
      ++ (if in_scope b0 addr_expr then [access_tag addr_expr AccessType.WRITE] else [])
      ++ (if PointerTaint_eqb (pointer (taints value_expr)) (PRegion (name st))
             && in_scope b0 value_expr
          then [access_tag value_expr AccessType.POINTER] else [])
      ++ new.
Proof.
  intros path b1 b2 b3 Ha Hv Hg.
  pose proof (SmartExpression_cls _ _ _ _ _ _ Ha) as Hca.
  pose proof (SmartExpression_cls _ _ _ _ _ _ Hv) as Hcv.
  assert (Hexec : exec_stmt st addr bs (idx, Ist_StoreG a data guard) = Ok b4).
  { cbn [exec_stmt]. fold path. rewrite Ha. cbn [mbind res_bind]. rewrite Hv.
    cbn [mbind res_bind]. rewrite (access_smart _ _ _ Hca). cbn [mbind res_bind].
    fold b1. fold (after_store b1 addr_expr value_expr). fold b2.
    replace (if PointerTaint_eqb (pointer (taints value_expr)) (PRegion (name st))
             then access b2 value_expr AccessType.POINTER else Ok b2) with (Ok b3).
    - cbn [mbind res_bind]. by rewrite Hg.
    - subst b3. destruct (PointerTaint_eqb _ _); [by rewrite (access_smart _ _ _ Hcv)|done]. }
  split; [exact Hexec|].
  assert (Hm3 : mem_regions b3 = mem_regions b2).
  { subst b3. destruct (PointerTaint_eqb _ _); [|done]. unfold accessed.
    by destruct (in_scope _ _). }
  destruct (SmartExpression_frame _ _ _ _ _ _ Hg) as (_ & _ & _ & Hm4).
  split; [congruence|]. split.
  - intros Ht. rewrite (get_mem_ext b4 b2) by congruence.
    subst b2. unfold after_store. destruct (pointer (taints addr_expr)) as [|region] eqn:Hp;
      [discriminate|].
    rewrite Ht. unfold get_mem, region_mem. rewrite Hp, Ht. cbn [mem_regions set_mem_regions].
    rewrite lookup_insert_eq. cbn [default from_option id].
    by rewrite mem_lookup_store_eq, IRType_eqb_refl.
  - assert (Htags2 : tags b2 = tags b1).
    { subst b2. unfold after_store. destruct (pointer (taints addr_expr)); [done|].
      by destruct (truthy _). }
    assert (Hreg2 : taint_region b2 = taint_region b0).
    { subst b2 b1. unfold after_store, accessed.
      destruct (pointer (taints addr_expr)); [by destruct (in_scope _ _)|].
      destruct (truthy _); by destruct (in_scope _ _). }
    destruct (SmartExpression_appends _ _ _ _ _ _ Hg) as [new Hnew].
    exists new. rewrite Hnew. rewrite !app_assoc. f_equal.
    assert (Htags1 : tags b1 = tags b0 ++
              (if in_scope b0 addr_expr then [access_tag addr_expr AccessType.WRITE] else [])).
    { subst b1. unfold accessed. destruct (in_scope b0 addr_expr); [done|].
      by rewrite app_nil_r. }
    subst b3. destruct (PointerTaint_eqb _ _); cbn [andb].
    + unfold accessed at 1. unfold in_scope at 1. rewrite Hreg2. fold (in_scope b0 value_expr).
      destruct (in_scope b0 value_expr); cbn [tags set_tags].
      * by rewrite Htags2, Htags1.
      * by rewrite Htags2, Htags1, app_nil_r.
    + by rewrite Htags2, Htags1, app_nil_r.
Qed.
End Accesses.

Lemma load_tags_read_in_scope_witness :
  exists e,
    SmartExpression (W := Demo.world) Demo.load_state
      (Iex_Load (Ity_I 64) (Iex_RdTmp 0 (Ity_I 64))) (Some 4096) Demo.data_path
    = Ok (e, set_tags [access_tag (W := Demo.world)
                         (copy_to_self
                            (SmartExpression_fresh (W := Demo.world) (Iex_RdTmp 0 (Ity_I 64))
                               (Some 4096) (Demo.data_path ++ [PStr "addr"]))
                            Demo.precall_sp)
                         AccessType.READ]
                     Demo.load_state).
Proof.
  eexists.
  apply (load_tags_read_in_scope (W := Demo.world) Demo.load_state Demo.load_state (Ity_I 64)
           (Iex_RdTmp 0 (Ity_I 64)) (Some 4096) Demo.data_path
           (copy_to_self
              (SmartExpression_fresh (W := Demo.world) (Iex_RdTmp 0 (Ity_I 64))
                 (Some 4096) (Demo.data_path ++ [PStr "addr"]))
              Demo.precall_sp)).
  - discriminate.
  - reflexivity.
Defined.

Lemma end_tags_escaping_registers_witness :
  exists bs',
    end_ (W := Demo.world)
      (set_regs (<[Demo.rax := Demo.precall_sp]> (regs Demo.entry_state)) Demo.entry_state)
    = Ok bs' /\
    tags bs' ≡ₚ [access_tag (W := Demo.world) Demo.precall_sp AccessType.POINTER].
Proof.
  eexists.
  match goal with |- ?A /\ _ => assert (Hrun : A) by (vm_compute; reflexivity) end.
  split; [exact Hrun|].
  destruct (end_tags_escaping_registers (W := Demo.world) _ _ Hrun) as (new & Hbs & Hnew).
  injection Hbs as Htags. rewrite Htags. exact Hnew.
Defined.

Lemma helper_call_result_is_default_witness :
  exists bs' v,
    exec_stmt (W := Demo.world) {| name := "stack_0"; events := [] |} 4096 Demo.load_state
      (1, Ist_Dirty 1) = Ok bs' /\
    get_tmp bs' 1 = Ok v /\
    cls v = ClsConst /\ e_type v = Ity_I 64 /\ taints v = no_taints.
Proof.
  destruct (helper_call_result_is_default (W := Demo.world)
              {| name := "stack_0"; events := [] |} 4096 1 Demo.load_state _ 1 eq_refl)
    as [[Hnone _] | (_ & _ & _ & _ & t & ty & v & Ht & Hty & Hget & Hcls & Htype & Htaints & _)].
  - discriminate Hnone.
  - eexists _, v. split; [reflexivity|]. split; [exact Hget|]. split; [exact Hcls|].
    split; [|exact Htaints]. rewrite Htype. injection Ht as <-. by injection Hty as <-.
Defined.

Lemma guarded_store_ignores_guard_witness :
  exists value_expr b4,
    exec_stmt (W := Demo.world) {| name := "stack_0"; events := [] |} 4096 Demo.load_state
      (1, Ist_StoreG (Iex_RdTmp 0 (Ity_I 64)) (Iex_Const (Demo.u64 5)) Demo.false_guard)
    = Ok b4 /\
    get_mem (W := Demo.world) b4
      (copy_to_self
         (SmartExpression_fresh (W := Demo.world) (Iex_RdTmp 0 (Ity_I 64)) (Some 4096)
            [PStr "statements"; PInt 1; PStr "addr"]) Demo.precall_sp)
      (Ity_I 64) = value_expr /\
    cleanval value_expr = BVV 5 64.
Proof.
  eexists _, _.
  epose proof (guarded_store_ignores_guard (W := Demo.world)
                 {| name := "stack_0"; events := [] |} 4096 1 Demo.load_state _ _ _
                 (Iex_RdTmp 0 (Ity_I 64)) (Iex_Const (Demo.u64 5)) Demo.false_guard
                 (copy_to_self
                    (SmartExpression_fresh (W := Demo.world) (Iex_RdTmp 0 (Ity_I 64)) (Some 4096)
                       [PStr "statements"; PInt 1; PStr "addr"]) Demo.precall_sp)
                 _ _) as H.
  cbv zeta in H. destruct H as (Hexec & _ & Hload & _).
  - vm_compute. reflexivity.
  - vm_compute. reflexivity.
  - vm_compute. reflexivity.
  - split; [exact Hexec|]. split; [exact (Hload eq_refl)|reflexivity].
Defined.

(** ** Operations without an implementation *)

Section Operands.
Context `{W : World}.

(** The argument loop of the operator and helper-call cases of
    [SmartExpression.__init__]: the local function of [SmartExpression],
    by name. *)
Fixpoint build_args (blockstate : BlockState) (args : list IRExpr) (addr : option Z)
    (path : list PathElem) (i : Z) : res (list Expr * BlockState) :=
  match args with
  | [] => Ok ([], blockstate)
  | expr :: rest =>
      '(arg, bs1) ← SmartExpression blockstate expr addr (path ++ [PStr "args"; PInt i]);
      '(more, bs2) ← build_args bs1 rest addr path (i + 1);
      Ok (arg :: more, bs2)
  end.

Lemma SmartExpression_Op bs op args ty a p :
  SmartExpression bs (Iex_Op op args ty) a p =
    '(deps, bs') ← build_args bs args a p 0;
    r ← finish_op (SmartExpression_fresh (Iex_Op op args ty) a p) op deps;
    Ok (r, bs').
Proof.
  cbn [SmartExpression].
  match goal with
  | |- mbind _ (?f args 0 bs) = _ =>
      assert (Heq : forall l i b, f l i b = build_args b l a p i)
  end.
  { induction l as [|x l IH]; intros i b; [reflexivity|].
    cbn [build_args]. destruct (SmartExpression b x a _) as [[r b1]|]; [|reflexivity].
    cbn [mbind res_bind]. by rewrite IH. }
  by rewrite Heq.
Qed.

(** X20: an operation the engine has no implementation for does not make
    the node fail.  When the arguments can be built, the node of the
    application is built too; it is neither concrete nor region-tainted,
    it is not a root, and both of its values are the default value of the
    result type. *)
Theorem unknown_operation_degrades (bs bs' : BlockState) (op : string) (args : list IRExpr)
    (ty : IRType) (a : option Z) (p : list PathElem) (ds : list Expr) :
  operations op = None ->
  build_args bs args a p 0 = Ok (ds, bs') ->
  exists e,
    SmartExpression bs (Iex_Op op args ty) a p = Ok (e, bs') /\
    concrete (taints e) = false /\ pointer (taints e) = PFalse /\
    cleanval e = make_default_value ty /\ dirtyval e = make_default_value ty /\
    e_type e = ty /\ rootval e = false.
Proof.
  intros Hop Hargs. rewrite SmartExpression_Op, Hargs. cbn [mbind res_bind].
  unfold finish_op. rewrite Hop. cbn [mbind res_bind]. eexists. split; [reflexivity|].
  by repeat split.
Qed.
End Operands.

Lemma unknown_operation_degrades_witness :
  exists e bs',
    SmartExpression (W := Demo.world) Demo.entry_state
      (Iex_Op "Iop_Shl64" [Iex_Get 48 (Ity_I 64); Iex_Const (Demo.u64 3)] (Ity_I 64))
      (Some 4096) Demo.data_path = Ok (e, bs') /\
    concrete (taints e) = false /\ pointer (taints e) = PFalse /\
    cleanval e = BVV 0 64.
Proof.
  assert (Hargs : exists ds bs',
            build_args (W := Demo.world) Demo.entry_state
              [Iex_Get 48 (Ity_I 64); Iex_Const (Demo.u64 3)] (Some 4096) Demo.data_path 0
            = Ok (ds, bs')) by (eexists _, _; vm_compute; reflexivity).
  destruct Hargs as (ds & bs' & Hargs).
  destruct (unknown_operation_degrades (W := Demo.world) Demo.entry_state bs' "Iop_Shl64"
              _ (Ity_I 64) _ _ ds eq_refl Hargs)
    as (e & Hrun & Hconcrete & Hpointer & Hclean & _).
  exists e, bs'. split; [exact Hrun|]. split; [exact Hconcrete|]. split; [exact Hpointer|].
  exact Hclean.
Defined.

(** ** Traversals that stop *)

Section Aborts.
Context `{W : World}.

Lemma block_raise_fails_analysis n funcaddr ls k blockstate queue' block fuel e :
  reaches funcaddr (initial_loop_state n funcaddr) ls k ->
  queue ls = blockstate :: queue' ->
  addr blockstate ∉ headcache ls ->
  factory_block (addr blockstate) None = Ok block ->
  analyze_block (struct ls) funcaddr blockstate block (headcache ls) (cache ls) = Raise e ->
  (k < fuel)%nat ->
  analyze_stack fuel n funcaddr = Some (Raise e).
Proof.
  intros Hreach Hq Hhead Hlift Hblock Hk.
  unfold analyze_stack. eapply reaches_raise; [exact Hreach| |exact Hk].
  unfold loop_body. rewrite Hq, bool_decide_eq_false_2 by exact Hhead.
  by rewrite Hlift, Hblock.
Qed.

(** X21: a function whose code runs into another function is given up.
    When the traversal comes to an instruction, other than the function's
    own entry, at which the function manager has a function,
    [analyze_stack] raises FidgetAnalysisFailure; the driver catches it
    and goes on with the next function, recording nothing for this one. *)
Theorem entering_another_function_fails (n : nat) (funcaddr : Z) (ls : LoopState) (k : nat)
    (blockstate : BlockState) (queue' : list BlockState) (block : IRSB) (pre post : list Z)
    (a : Z) (bs1 : BlockState) (cache1 : gset Z) (fuel : nat) (func : Function)
    (rest : list Function) (acc : Results) :
  reaches funcaddr (initial_loop_state n funcaddr) ls k ->
  queue ls = blockstate :: queue' ->
  addr blockstate ∉ headcache ls ->
  factory_block (addr blockstate) None = Ok block ->
  mark_addrs_of block = Ok (pre ++ a :: post) ->
  foldM (exec_insn (struct ls) funcaddr) pre (blockstate, cache ls) = Ok (bs1, cache1) ->
  a <> funcaddr -> is_function a = true ->
  (k < fuel)%nat ->
  func_addr func = funcaddr ->
  analyze_stack fuel n funcaddr = Some (Raise FidgetAnalysisFailure) /\
  analyze_functions fuel (func :: rest) n acc = analyze_functions fuel rest (S n) acc.
Proof.
  intros Hreach Hq Hhead Hlift Hmarks Hpre Hne Hfn Hk Hfunc.
  assert (Hfail : analyze_stack fuel n funcaddr = Some (Raise FidgetAnalysisFailure)).
  { eapply block_raise_fails_analysis; try eassumption.
    unfold analyze_block. rewrite Hmarks. cbn [mbind res_bind].
    rewrite (foldM_raise _ pre post a _ (bs1, cache1) FidgetAnalysisFailure Hpre);
      [reflexivity|].
    unfold exec_insn. rewrite Hfn. by destruct (Z.eqb_spec a funcaddr). }
  split; [exact Hfail|].
  apply (caught_failure_skips_function _ _ _ _ _ FidgetAnalysisFailure); [|reflexivity].
  by rewrite Hfunc.
Qed.

(** X22: a block that ends in a jump kind the traversal has no case for
    (not a call, not a return, not NoDecode and not one of the kinds it
    follows) makes [analyze_stack] raise FidgetError once the block's
    instructions have been interpreted. *)
Theorem unknown_jumpkind_fails (n : nat) (funcaddr : Z) (ls : LoopState) (k : nat)
    (blockstate : BlockState) (queue' : list BlockState) (block : IRSB) (marks : list Z)
    (bs1 : BlockState) (cache1 : gset Z) (fuel : nat) :
  reaches funcaddr (initial_loop_state n funcaddr) ls k ->
  queue ls = blockstate :: queue' ->
  addr blockstate ∉ headcache ls ->
  factory_block (addr blockstate) None = Ok block ->
  mark_addrs_of block = Ok marks ->
  foldM (exec_insn (struct ls) funcaddr) marks (blockstate, cache ls) = Ok (bs1, cache1) ->
  jumpkind block ∉ "Ijk_Call" :: "Ijk_Ret" :: "Ijk_NoDecode" :: OK_CONTINUE_JUMPS ->
  (k < fuel)%nat ->
  analyze_stack fuel n funcaddr
    = Some (Raise (FidgetError "Can't proceed from unknown jumpkind")).
Proof.
  intros Hreach Hq Hhead Hlift Hmarks Hrun Hjk Hk.
  eapply block_raise_fails_analysis; try eassumption.
  unfold analyze_block. rewrite Hmarks. cbn [mbind res_bind]. rewrite Hrun.
  cbn [mbind res_bind]. unfold block_end.
  assert (Hin : forall l, jumpkind block ∉ l -> str_in (jumpkind block) l = false).
  { induction l as [|x l IH]; [done|]. intros Hx. apply not_elem_of_cons in Hx as [Hx Hl].
    cbn. destruct (String.eqb_spec (jumpkind block) x); [done|]. by apply IH. }
  apply not_elem_of_cons in Hjk as [Hcall Hjk].
  apply not_elem_of_cons in Hjk as [Hret Hjk].
  apply not_elem_of_cons in Hjk as [Hnd Hjk].
  destruct (String.eqb_spec (jumpkind block) "Ijk_Call"); [done|].
  rewrite (Hin _ Hjk). cbn [orb].
  rewrite (Hin ["Ijk_Ret"; "Ijk_NoDecode"]); [reflexivity|].
  intros Hx. apply elem_of_cons in Hx as [Hx|Hx]; [done|].
  apply elem_of_cons in Hx as [Hx|Hx]; [done|]. by apply elem_of_nil in Hx.
Qed.

(** X23: a function whose first block cannot be lifted (the lifter raises
    AngrMemoryError) is not a failure: [analyze_stack] returns the
    function's frame without any event, and the driver records that empty
    frame and goes on. *)
Theorem unliftable_function_has_empty_frame (fuel n : nat) (func : Function)
    (rest : list Function) (acc : Results) :
  let frame := {| name := struct_name n; events := [] |} in
  factory_block (func_addr func) None = Raise AngrMemoryError ->
  analyze_stack (S (S fuel)) n (func_addr func) = Some (Ok frame) /\
  analyze_functions (S (S fuel)) (func :: rest) n acc
    = analyze_functions (S (S fuel)) rest (S n) (record_frame func frame acc).
Proof.
  intros frame Hlift.
  assert (Hrun : analyze_stack (S (S fuel)) n (func_addr func) = Some (Ok frame)).
  { unfold analyze_stack.
    assert (Hinit : exists bs,
              queue (initial_loop_state n (func_addr func)) = [bs] /\
              addr bs = func_addr func /\
              headcache (initial_loop_state n (func_addr func)) = ∅ /\
              struct (initial_loop_state n (func_addr func)) = frame).
    { eexists. repeat split; reflexivity. }
    destruct Hinit as (bs & Hq & Ha & Hh & Hs).
    generalize dependent (initial_loop_state n (func_addr func)). intros ls Hq Hh Hs.
    assert (Hstep : loop_body (func_addr func) ls =
              Ok (Next {| struct := struct ls; queue := []; headcache := headcache ls;
                          cache := cache ls |})).
    { unfold loop_body. rewrite Hq, bool_decide_eq_false_2.
      - by rewrite Ha, Hlift.
      - rewrite Hh. apply not_elem_of_empty. }
    change (analyze_loop (S (S fuel)) (func_addr func) ls)
      with (match loop_body (func_addr func) ls with
            | Raise e => Some (Raise e)
            | Ok (Finished s) => Some (Ok s)
            | Ok (Next ls') => analyze_loop (S fuel) (func_addr func) ls'
            end).
    rewrite Hstep. cbn [analyze_loop loop_body queue struct]. by rewrite Hs. }
  split; [exact Hrun|]. cbn [analyze_functions]. by rewrite Hrun.
Qed.
End Aborts.

Lemma entering_another_function_fails_witness :
  analyze_stack (W := Stray.world) 1 0 20480 = Some (Raise FidgetAnalysisFailure) /\
  analyze_functions (W := Stray.world) 1 [Demo.fn 20480 "runs_on"] 0 no_results
    = analyze_functions (W := Stray.world) 1 [] 1 no_results.
Proof.
  eapply (entering_another_function_fails (W := Stray.world) 0 20480 _ 0 _ []
            Stray.falls_through [20480] [] 4096 _ _ 1 (Demo.fn 20480 "runs_on") []
            no_results).
  - apply reaches_here.
  - reflexivity.
  - apply not_elem_of_empty.
  - reflexivity.
  - reflexivity.
  - vm_compute. reflexivity.
  - discriminate.
  - reflexivity.
  - lia.
  - reflexivity.
Defined.

Lemma unknown_jumpkind_fails_witness :
  analyze_stack (W := Stray.world) 1 0 24576
    = Some (Raise (FidgetError "Can't proceed from unknown jumpkind")).
Proof.
  eapply (unknown_jumpkind_fails (W := Stray.world) 0 24576 _ 0 _ [] Stray.yields [24576]
            _ _ 1).
  - apply reaches_here.
  - reflexivity.
  - apply not_elem_of_empty.
  - reflexivity.
  - reflexivity.
  - vm_compute. reflexivity.
  - unfold OK_CONTINUE_JUMPS.
    repeat (apply not_elem_of_cons; split; [discriminate|]). apply not_elem_of_nil.
  - lia.
Defined.

Lemma unliftable_function_has_empty_frame_witness :
  analyze_stack (W := Demo.world) 2 0 28672
    = Some (Ok {| name := struct_name (World := Demo.world) 0; events := [] |}) /\
  analyze_functions (W := Demo.world) 2 [Demo.fn 28672 "unmapped"] 0 no_results
    = analyze_functions (W := Demo.world) 2 [] 1
        (record_frame (Demo.fn 28672 "unmapped")
           {| name := struct_name (World := Demo.world) 0; events := [] |} no_results).
Proof.
  apply (unliftable_function_has_empty_frame (W := Demo.world) 0 0
           (Demo.fn 28672 "unmapped") [] no_results).
  reflexivity.
Defined.

(** ** The call case, from the push on *)



Section CallFixup.
Context `{W : World}.







End CallFixup.

(** A call as the lifter delivers it, flat:
    [t1 = GET sp; t0 = t1 - 8; sp = t0; *t0 = return address]. *)
Module Call.

Definition insn : IRSB :=
  {| statements :=
       [Ist_IMark 12288 0;
        Ist_WrTmp 1 (Iex_Get 48 (Ity_I 64));
        Ist_WrTmp 0 (Iex_Op "Iop_Sub64" [Iex_RdTmp 1 (Ity_I 64); Iex_Const (Demo.u64 8)]
                            (Ity_I 64));
        Ist_Put 48 (Iex_RdTmp 0 (Ity_I 64));
        Ist_Store (Iex_RdTmp 0 (Ity_I 64)) (Iex_Const (Demo.u64 12293))];
     jumpkind := "Ijk_Call";
     tyenv_types := [Ity_I 64; Ity_I 64] |}.

Definition frame : Struct := {| name := "stack_0"; events := [] |}.




End Call.


